(** * ppcg GPU back end ([gpu.c]): grid and block mapping, tiling maps,
      shared-memory budget, copy and synchronisation ranks.

    The development embeds the functions of [gpu.c] that decide the
    mapping of a kernel onto blocks and threads and the ordering of its
    copy and synchronisation statements, and proves their properties.

    Conventions.
    - A C [int] holding a count or an index (a number of dimensions, a
      loop counter) is a [nat]; the counts come from loop counters and
      from [isl_*_dim], which are never negative.  A C [int] holding a
      value (a size, a rank, a position that may be -1) is a [Z].
      Where the code stores a value that an [int] may not hold (a size
      that the user gives, a product of two sizes), the model keeps
      the low 32 bits ([to_int]).
    - An isl object is modelled by the set of integer points that it
      denotes; operations that only change the representation
      ([isl_*_copy], [isl_*_coalesce], [isl_*_detect_equalities],
      [isl_*_free]) are the identity and are left out.
    - A NULL isl object (an error) is [None]. *)

From stdpp Require Import base numbers option list strings gmap.

(** ** Shared data model *)

(** A statement instance: the name of the statement space and the
    integer tuple. *)
Definition inst : Type := string * list Z.

(** [struct gpu_array_tile]: only the per-dimension bound sizes matter
    here. *)
Record gpu_array_tile := GpuArrayTile { tile_bound_sizes : list Z }.

(** Modelled from the spec: [gpu_array_tile_size] lives in the
    reference-group collaborator; the spec describes it as the tile
    footprint size obtained from the per-dimension tile bound sizes,
    that is, their product. *)
Definition gpu_array_tile_size (t : gpu_array_tile) : Z :=
  foldr Z.mul 1%Z (tile_bound_sizes t).

(** An affine expression over the schedule dimensions: one coefficient
    per input dimension and a constant. *)
Record isl_aff := IslAff { aff_coeffs : list Z; aff_const : Z }.

(** An [isl_multi_aff]: the number of input dimensions and one affine
    expression per output dimension. *)
Record isl_multi_aff := IslMultiAff { ma_n_in : nat; ma_affs : list isl_aff }.

(** [struct gpu_array_ref_group].  [private_tile] and [shared_tile] are
    independent optional pointers; [last_shared] is the last shared
    schedule dimension that affects the tile.  [group_name] stands for
    the identity of the group (its address).  [copy_in] and [copy_out] tell
    whether the read, respectively write, access relation that is left
    after [remove_local_accesses] is non-empty, and [private_pieces]
    lists the pieces of the index expression of the group's accesses
    in terms of the thread-tiled schedule; these three are computed by
    isl from relations that are not modelled. *)
Record gpu_array_ref_group := GpuArrayRefGroup {
  group_name : string;
  private_tile : option gpu_array_tile;
  shared_tile : option gpu_array_tile;
  last_shared : Z;
  copy_in : bool;
  copy_out : bool;
  private_pieces : list isl_multi_aff
}.

(** [struct gpu_local_array_info] together with the field of
    [struct gpu_array_info] that is used: the element size in bytes. *)
Record gpu_local_array_info := GpuLocalArrayInfo {
  array_size : Z;
  groups : list gpu_array_ref_group;
  force_private : bool
}.

Definition n_group (a : gpu_local_array_info) : nat := length (groups a).

(** The fields of [struct ppcg_kernel] that are used.  [k_id] is the
    field [id] (the sequence number), [array] has [n_array] elements,
    [max_shared_memory] is [kernel->options->max_shared_memory].
    [block_dim] has three elements and [grid_dim] two (they are
    declared as [int block_dim[3]] and [int grid_dim[2]]).
    [block_filter] is the union set that relates the statement
    instances to the values of the block identifiers, at a fixed value
    of the other parameters: the tuples of block identifiers that it
    allows for each instance.  [grid_size] is the effective grid size,
    one value per grid dimension, undefined ([None]) where no block
    executes anything. *)
Record ppcg_kernel := PpcgKernel {
  k_id : nat;
  tile_len : nat;
  n_parallel : nat;
  n_grid : nat;
  n_block : nat;
  grid_dim : list Z;
  block_dim : list Z;
  array : list gpu_local_array_info;
  any_force_private : bool;
  max_shared_memory : Z;
  block_filter : inst -> list (list Z);
  grid_size : list (option Z)
}.

Definition n_array (kernel : ppcg_kernel) : nat := length (array kernel).

(** Assignments to fields of a kernel. *)
Definition set_block (kernel : ppcg_kernel) (dims : list Z) (n : nat)
  : ppcg_kernel :=
  {| k_id := k_id kernel; tile_len := tile_len kernel;
     n_parallel := n_parallel kernel; n_grid := n_grid kernel;
     n_block := n; grid_dim := grid_dim kernel; block_dim := dims;
     array := array kernel; any_force_private := any_force_private kernel;
     max_shared_memory := max_shared_memory kernel;
     block_filter := block_filter kernel;
     grid_size := grid_size kernel |}.

Definition set_grid (kernel : ppcg_kernel) (dims : list Z) (n : nat)
  : ppcg_kernel :=
  {| k_id := k_id kernel; tile_len := tile_len kernel;
     n_parallel := n_parallel kernel; n_grid := n;
     n_block := n_block kernel; grid_dim := dims;
     block_dim := block_dim kernel;
     array := array kernel; any_force_private := any_force_private kernel;
     max_shared_memory := max_shared_memory kernel;
     block_filter := block_filter kernel;
     grid_size := grid_size kernel |}.

Definition set_array (kernel : ppcg_kernel)
  (arrays : list gpu_local_array_info) : ppcg_kernel :=
  {| k_id := k_id kernel; tile_len := tile_len kernel;
     n_parallel := n_parallel kernel; n_grid := n_grid kernel;
     n_block := n_block kernel; grid_dim := grid_dim kernel;
     block_dim := block_dim kernel;
     array := arrays; any_force_private := any_force_private kernel;
     max_shared_memory := max_shared_memory kernel;
     block_filter := block_filter kernel;
     grid_size := grid_size kernel |}.

Definition set_groups (a : gpu_local_array_info)
  (gs : list gpu_array_ref_group) : gpu_local_array_info :=
  {| array_size := array_size a; groups := gs;
     force_private := force_private a |}.

Definition set_private_tile (g : gpu_array_ref_group)
  (t : option gpu_array_tile) : gpu_array_ref_group :=
  {| group_name := group_name g; private_tile := t;
     shared_tile := shared_tile g; last_shared := last_shared g;
     copy_in := copy_in g; copy_out := copy_out g;
     private_pieces := private_pieces g |}.

Definition set_shared_tile (g : gpu_array_ref_group)
  (t : option gpu_array_tile) : gpu_array_ref_group :=
  {| group_name := group_name g; private_tile := private_tile g;
     shared_tile := t; last_shared := last_shared g;
     copy_in := copy_in g; copy_out := copy_out g;
     private_pieces := private_pieces g |}.

(** The groups of a kernel in the order in which the loops over
    [kernel->array] and [array->groups] meet them. *)
Definition kernel_groups (kernel : ppcg_kernel) : list gpu_array_ref_group :=
  concat (map groups (array kernel)).

(** ** Grid and block sizes *)

(** The [sizes] option: a union map [{ kernel[id] -> type[sizes] }],
    here a finite map from the kernel number and the name of the range
    space to the tuple. *)
Abbreviation sizes_map := (gmap (nat * string) (list Z)).

(** A band node: its partial schedule, which maps a statement instance
    to one value per member, and the coincidence flag of each member. *)
Record band_node := BandNode {
  partial_schedule : inst -> list Z;
  coincident : list bool
}.

Definition band_n_member (node : band_node) : nat := length (coincident node).

(** [extract_sizes]: the tuple in the space called [type] for kernel
    [id], or NULL. *)
Definition extract_sizes (sizes : option sizes_map) (type : string) (id : nat)
  : option (list Z) :=
  match sizes with
  | None => None
  | Some m => m !! (id, type)
  end.

(** The values of an [int] (32 bits) and of a [long] (64 bits). *)
Definition int_min : Z := (- 2 ^ 31)%Z.
Definition int_max : Z := (2 ^ 31 - 1)%Z.
Definition long_min : Z := (- 2 ^ 63)%Z.
Definition long_max : Z := (2 ^ 63 - 1)%Z.

(** Storing a value in an [int]: a value that an [int] cannot hold
    keeps its low 32 bits (the conversion from [long] is
    implementation-defined and wraps on the usual compilers; the
    overflow of a product of [int]s is undefined in C and modelled in
    the same way). *)
Definition to_int (v : Z) : Z :=
  ((v - int_min) `mod` 2 ^ 32 + int_min)%Z.

(** [isl_val_get_num_si]: the value as a [long]; for a value that a
    [long] cannot hold, isl reports an error and returns 0. *)
Definition isl_val_get_num_si (v : Z) : Z :=
  if decide (long_min <= v <= long_max)%Z then v else 0%Z.

(** The loop of [read_sizes_from_set]:
    [sizes[i] = isl_val_get_num_si(v_i)] for [i < len], where
    [sizes[i]] is an [int].  The tuple has at least [len] elements
    when the loop is entered. *)
Fixpoint write_sizes (vals sizes : list Z) (i len : nat) : list Z :=
  match len with
  | O => sizes
  | S len' =>
      match vals !! i with
      | Some v =>
          write_sizes vals (<[i := to_int (isl_val_get_num_si v)]> sizes)
            (S i) len'
      | None => sizes
      end
  end.

(** [read_sizes_from_set]: returns the updated [sizes] and [*len]. *)
Definition read_sizes_from_set (set : option (list Z)) (sizes : list Z)
  (len : nat) : list Z * nat :=
  match set with
  | None => (sizes, len)
  | Some vals =>
      let dim := length vals in
      let len := if decide (dim < len) then dim else len in
      (write_sizes vals sizes 0 len, len)
  end.

Definition read_block_sizes (kernel : ppcg_kernel) (sizes : option sizes_map)
  : ppcg_kernel :=
  let n_block := if decide (3 < n_block kernel) then 3 else n_block kernel in
  let block_dim :=
    match n_block with
    | 1 => <[0 := 512%Z]> (block_dim kernel)
    | 2 => <[1 := 16%Z]> (<[0 := 32%Z]> (block_dim kernel))
    | _ => <[2 := 4%Z]> (<[1 := 4%Z]> (<[0 := 32%Z]> (block_dim kernel)))
    end in
  let size := extract_sizes sizes "block" (k_id kernel) in
  let '(block_dim, n_block) := read_sizes_from_set size block_dim n_block in
  set_block kernel block_dim n_block.

Definition read_grid_sizes (kernel : ppcg_kernel) (sizes : option sizes_map)
  : ppcg_kernel :=
  let n_grid := if decide (2 < n_grid kernel) then 2 else n_grid kernel in
  let grid_dim :=
    match n_grid with
    | 1 => <[0 := 32768%Z]> (grid_dim kernel)
    | _ => <[1 := 256%Z]> (<[0 := 256%Z]> (grid_dim kernel))
    end in
  let size := extract_sizes sizes "grid" (k_id kernel) in
  let '(grid_dim, n_grid) := read_sizes_from_set size grid_dim n_grid in
  set_grid kernel grid_dim n_grid.

(** [read_grid_and_block_sizes]; the two calls of [set_used_sizes] only
    record the sizes for the [dump_sizes] debugging option. *)
Definition read_grid_and_block_sizes (kernel : ppcg_kernel)
  (sizes : option sizes_map) : ppcg_kernel :=
  read_grid_sizes (read_block_sizes kernel sizes) sizes.

(** The loop of [n_outer_coincidence]: the number of leading coincident
    members. *)
Fixpoint count_outer (flags : list bool) : nat :=
  match flags with
  | true :: rest => S (count_outer rest)
  | _ => O
  end.

Definition n_outer_coincidence (node : band_node) : nat :=
  count_outer (coincident node).

(** The kernel as [isl_calloc_type] leaves it. *)
Definition ppcg_kernel_calloc : ppcg_kernel :=
  {| k_id := 0; tile_len := 0; n_parallel := 0; n_grid := 0; n_block := 0;
     grid_dim := [0; 0]%Z; block_dim := [0; 0; 0]%Z; array := [];
     any_force_private := false; max_shared_memory := 0%Z;
     block_filter := fun _ => []; grid_size := [] |}.

(** ** Shared-memory budget *)

(** A loop that updates the elements of an array in place while it
    threads a value through the iterations. *)
Fixpoint map_accum {A B S : Type} (f : S -> A -> S * B) (s : S) (l : list A)
  : S * list B :=
  match l with
  | [] => (s, [])
  | a :: l' =>
      let '(s1, b) := f s a in
      let '(s2, bs) := map_accum f s1 l' in
      (s2, b :: bs)
  end.

(** The body of the inner loop of [check_shared_memory_bound] for a
    group of an array with elements of [elt_size] bytes: [left] is what
    is left of the budget. *)
Definition check_group (elt_size : Z) (left : Z) (group : gpu_array_ref_group)
  : Z * gpu_array_ref_group :=
  match private_tile group with
  | Some _ => (left, group)
  | None =>
      match shared_tile group with
      | None => (left, group)
      | Some tile =>
          let size := (gpu_array_tile_size tile * elt_size)%Z in
          if decide (size ≤ left)%Z then ((left - size)%Z, group)
          else (left, set_shared_tile group None)
      end
  end.

(** The body of the outer loop. *)
Definition check_local_array (left : Z) (local : gpu_local_array_info)
  : Z * gpu_local_array_info :=
  let '(left', gs) := map_accum (check_group (array_size local)) left
                        (groups local) in
  (left', set_groups local gs).

Definition check_shared_memory_bound (kernel : ppcg_kernel) : ppcg_kernel :=
  if decide (max_shared_memory kernel < 0)%Z then kernel
  else
    let left := max_shared_memory kernel in
    let '(_, arrays) := map_accum check_local_array left (array kernel) in
    set_array kernel arrays.

(** The number of bytes of shared memory that a group takes when it is
    mapped to shared memory. *)
Definition footprint (elt_size : Z) (group : gpu_array_ref_group) : Z :=
  match shared_tile group with
  | Some tile => (gpu_array_tile_size tile * elt_size)%Z
  | None => 0%Z
  end.

(** A group is mapped to shared memory when it has a shared tile and no
    private tile: the private tile takes precedence wherever a tile is
    selected. *)
Definition in_shared (group : gpu_array_ref_group) : bool :=
  match private_tile group, shared_tile group with
  | None, Some _ => true
  | _, _ => false
  end.

Definition holds_shared_tile (group : gpu_array_ref_group) : bool :=
  match shared_tile group with Some _ => true | None => false end.

(** The groups of a kernel in encounter order, each with the element
    size of its array. *)
Definition sized_groups (kernel : ppcg_kernel)
  : list (Z * gpu_array_ref_group) :=
  concat (map (fun local => map (pair (array_size local)) (groups local))
              (array kernel)).

(** The body of the inner loop on a group paired with the element size
    of its array. *)
Definition check_sized_group (left : Z) (eg : Z * gpu_array_ref_group)
  : Z * (Z * gpu_array_ref_group) :=
  let '(left', group) := check_group eg.1 left eg.2 in
  (left', (eg.1, group)).

(** The total footprint of the groups selected by [sel]. *)
Definition total_footprint (sel : gpu_array_ref_group -> bool)
  (l : list (Z * gpu_array_ref_group)) : Z :=
  foldr (fun eg acc => if sel eg.2 then (footprint eg.1 eg.2 + acc)%Z else acc)
        0%Z l.

(** ** Basic maps built from constraints *)

Module Isl.

Inductive isl_dim_type := isl_dim_in | isl_dim_out.

(** A space: the numbers of parameters, input and output dimensions. *)
Record isl_space := IslSpace {
  space_n_param : nat;
  space_n_in : nat;
  space_n_out : nat
}.

(** The space of a union map: parameters only. *)
Definition isl_space_params_alloc (nparam : nat) : isl_space :=
  {| space_n_param := nparam; space_n_in := 0; space_n_out := 0 |}.

Definition isl_space_add_dims (space : isl_space) (type : isl_dim_type)
  (n : nat) : isl_space :=
  match type with
  | isl_dim_in =>
      {| space_n_param := space_n_param space;
         space_n_in := space_n_in space + n;
         space_n_out := space_n_out space |}
  | isl_dim_out =>
      {| space_n_param := space_n_param space;
         space_n_in := space_n_in space;
         space_n_out := space_n_out space + n |}
  end.

(** A constraint [c_in . x + c_out . y + c_div . d + c_const = 0]
    (or [>= 0]) on the input tuple [x], the output tuple [y] and the
    existentially quantified variables [d].  No function of [gpu.c]
    modelled here sets a coefficient of a parameter. *)
Record isl_constraint := IslConstraint {
  c_eq : bool;
  c_in : list Z;
  c_out : list Z;
  c_div : list Z;
  c_const : Z
}.

Record isl_basic_map := IslBasicMap {
  bmap_n_in : nat;
  bmap_n_out : nat;
  bmap_n_div : nat;
  bmap_constraints : list isl_constraint
}.

Definition isl_basic_map_universe (space : isl_space) : option isl_basic_map :=
  Some {| bmap_n_in := space_n_in space; bmap_n_out := space_n_out space;
          bmap_n_div := 0; bmap_constraints := [] |}.

Definition constraint_alloc (eq : bool) (ls : isl_space)
  : option isl_constraint :=
  Some {| c_eq := eq;
          c_in := replicate (space_n_in ls) 0%Z;
          c_out := replicate (space_n_out ls) 0%Z;
          c_div := [];
          c_const := 0%Z |}.

Definition isl_equality_alloc := constraint_alloc true.
Definition isl_inequality_alloc := constraint_alloc false.

(** Setting a coefficient replaces it; a position outside of the space
    is an error. *)
Definition isl_constraint_set_coefficient_si (c : option isl_constraint)
  (type : isl_dim_type) (pos : nat) (v : Z) : option isl_constraint :=
  c ← c;
  match type with
  | isl_dim_in =>
      if decide (pos < length (c_in c)) then
        Some {| c_eq := c_eq c; c_in := <[pos := v]> (c_in c);
                c_out := c_out c; c_div := c_div c; c_const := c_const c |}
      else None
  | isl_dim_out =>
      if decide (pos < length (c_out c)) then
        Some {| c_eq := c_eq c; c_in := c_in c;
                c_out := <[pos := v]> (c_out c);
                c_div := c_div c; c_const := c_const c |}
      else None
  end.

Definition isl_constraint_set_constant_si (c : option isl_constraint)
  (v : Z) : option isl_constraint :=
  c ← c;
  Some {| c_eq := c_eq c; c_in := c_in c; c_out := c_out c;
          c_div := c_div c; c_const := v |}.

Definition isl_basic_map_add_constraint (bmap : option isl_basic_map)
  (c : option isl_constraint) : option isl_basic_map :=
  bmap ← bmap;
  c ← c;
  Some {| bmap_n_in := bmap_n_in bmap; bmap_n_out := bmap_n_out bmap;
          bmap_n_div := bmap_n_div bmap;
          bmap_constraints := bmap_constraints bmap ++ [c] |}.

(** Projecting out [n] output dimensions starting at [first] turns them
    into existentially quantified variables. *)
Definition project_out_constraint (first n : nat) (c : isl_constraint)
  : isl_constraint :=
  {| c_eq := c_eq c; c_in := c_in c;
     c_out := take first (c_out c) ++ drop (first + n) (c_out c);
     c_div := c_div c ++ take n (drop first (c_out c));
     c_const := c_const c |}.

Definition isl_basic_map_project_out (bmap : option isl_basic_map)
  (type : isl_dim_type) (first n : nat) : option isl_basic_map :=
  bmap ← bmap;
  match type with
  | isl_dim_in => None
  | isl_dim_out =>
      if decide (first + n ≤ bmap_n_out bmap) then
        Some {| bmap_n_in := bmap_n_in bmap;
                bmap_n_out := bmap_n_out bmap - n;
                bmap_n_div := bmap_n_div bmap + n;
                bmap_constraints :=
                  map (project_out_constraint first n)
                      (bmap_constraints bmap) |}
      else None
  end.

(** *** The points of a basic map *)

Fixpoint dot (c x : list Z) : Z :=
  match c, x with
  | a :: c', b :: x' => (a * b + dot c' x')%Z
  | _, _ => 0%Z
  end.

Definition constraint_value (c : isl_constraint) (x y d : list Z) : Z :=
  (dot (c_in c) x + dot (c_out c) y + dot (c_div c) d + c_const c)%Z.

Definition constraint_holds (c : isl_constraint) (x y d : list Z) : bool :=
  if c_eq c then bool_decide (constraint_value c x y d = 0)%Z
  else bool_decide (0 ≤ constraint_value c x y d)%Z.

(** [x], [y] and the values [d] of the existentially quantified
    variables satisfy all the constraints. *)
Definition bmap_holds (bmap : isl_basic_map) (x y d : list Z) : bool :=
  bool_decide (length x = bmap_n_in bmap) &&
  bool_decide (length y = bmap_n_out bmap) &&
  bool_decide (length d = bmap_n_div bmap) &&
  forallb (fun c => constraint_holds c x y d) (bmap_constraints bmap).

(** The basic map relates [x] to [y]. *)
Definition bmap_rel (bmap : isl_basic_map) (x y : list Z) : Prop :=
  exists d, bmap_holds bmap x y d = true.

(** The domain of a basic map. *)
Definition bmap_domain (bmap : isl_basic_map) (x : list Z) : Prop :=
  exists y, bmap_rel bmap x y.

End Isl.

(** ** Tiling and wrapping maps *)

Import Isl.

(** Reading [size[i]]; the callers pass arrays with an element for each
    tiled dimension (in C, reading past the end is undefined). *)
Definition size_at (size : list Z) (i : nat) : Z := size !!! i.

(** [tile]: a map from [len] dimensions to [len + tile_len] dimensions
    that tiles the [tile_len] coordinates starting at [first]. *)
Definition tile (dim : isl_space) (len first tile_len : nat)
  (tile_size : list Z) : option isl_basic_map :=
  let dim := isl_space_add_dims dim isl_dim_in len in
  let dim := isl_space_add_dims dim isl_dim_out (len + tile_len) in
  let bmap := isl_basic_map_universe dim in
  let ls := dim in
  let bmap :=
    foldl (fun bmap i =>
      let j := if decide (i < first) then i else i + tile_len in
      let k := if decide (i < first) then i else i + 2 * tile_len in
      let c := isl_equality_alloc ls in
      let c := isl_constraint_set_coefficient_si c isl_dim_in j (-1) in
      let c := isl_constraint_set_coefficient_si c isl_dim_out k 1 in
      isl_basic_map_add_constraint bmap c)
      bmap (seq 0 (len - tile_len)) in
  let bmap :=
    foldl (fun bmap i =>
      let c := isl_equality_alloc ls in
      let c := isl_constraint_set_coefficient_si c isl_dim_in
                 (first + i) (-1) in
      let c := isl_constraint_set_coefficient_si c isl_dim_out
                 (first + i) (size_at tile_size i) in
      let c := isl_constraint_set_coefficient_si c isl_dim_out
                 (first + i + tile_len) 1 in
      let bmap := isl_basic_map_add_constraint bmap c in
      let c := isl_inequality_alloc ls in
      let c := isl_constraint_set_coefficient_si c isl_dim_out
                 (first + i + tile_len) 1 in
      let bmap := isl_basic_map_add_constraint bmap c in
      let c := isl_inequality_alloc ls in
      let c := isl_constraint_set_coefficient_si c isl_dim_out
                 (first + i + tile_len) (-1) in
      let c := isl_constraint_set_constant_si c (size_at tile_size i - 1) in
      isl_basic_map_add_constraint bmap c)
      bmap (seq 0 tile_len) in
  bmap.

(** [wrap]: a map from [len] dimensions to [len + wrap_len] dimensions
    that wraps the [wrap_len] coordinates starting at [first]; the
    quotients are projected out at the end. *)
Definition wrap (dim : isl_space) (len first wrap_len : nat)
  (wrap_size : list Z) : option isl_basic_map :=
  let dim := isl_space_add_dims dim isl_dim_in len in
  let dim := isl_space_add_dims dim isl_dim_out (len + 2 * wrap_len) in
  let bmap := isl_basic_map_universe dim in
  let ls := dim in
  let bmap :=
    foldl (fun bmap i =>
      let k := if decide (i < first + wrap_len) then i
               else i + 2 * wrap_len in
      let c := isl_equality_alloc ls in
      let c := isl_constraint_set_coefficient_si c isl_dim_in i (-1) in
      let c := isl_constraint_set_coefficient_si c isl_dim_out k 1 in
      isl_basic_map_add_constraint bmap c)
      bmap (seq 0 len) in
  let bmap :=
    foldl (fun bmap i =>
      let c := isl_equality_alloc ls in
      let c := isl_constraint_set_coefficient_si c isl_dim_out
                 (first + i) (-1) in
      let c := isl_constraint_set_coefficient_si c isl_dim_out
                 (first + wrap_len + i) 1 in
      let c := isl_constraint_set_coefficient_si c isl_dim_out
                 (first + 2 * wrap_len + i) (size_at wrap_size i) in
      let bmap := isl_basic_map_add_constraint bmap c in
      let c := isl_inequality_alloc ls in
      let c := isl_constraint_set_coefficient_si c isl_dim_out
                 (first + wrap_len + i) 1 in
      let bmap := isl_basic_map_add_constraint bmap c in
      let c := isl_inequality_alloc ls in
      let c := isl_constraint_set_coefficient_si c isl_dim_out
                 (first + wrap_len + i) (-1) in
      let c := isl_constraint_set_constant_si c (size_at wrap_size i - 1) in
      isl_basic_map_add_constraint bmap c)
      bmap (seq 0 wrap_len) in
  isl_basic_map_project_out bmap isl_dim_out (first + 2 * wrap_len) wrap_len.

(** The image of a point under the tiling and under the wrapping. *)
Definition tile_point (first tile_len : nat) (tile_size s : list Z) : list Z :=
  take first s
  ++ zip_with Z.div (take tile_len (drop first s)) tile_size
  ++ zip_with Z.modulo (take tile_len (drop first s)) tile_size
  ++ drop (first + tile_len) s.

Definition wrap_point (first wrap_len : nat) (wrap_size s : list Z) : list Z :=
  take (first + wrap_len) s
  ++ zip_with Z.modulo (take wrap_len (drop first s)) wrap_size
  ++ drop (first + wrap_len) s.

(** *** The rows that [tile] and [wrap] add

    The constraints that one iteration of each loop adds, written out
    for a space with [n_in] input and [n_out] output dimensions. *)

Definition bmap_extend (bmap : isl_basic_map) (cs : list isl_constraint)
  : isl_basic_map :=
  {| bmap_n_in := bmap_n_in bmap; bmap_n_out := bmap_n_out bmap;
     bmap_n_div := bmap_n_div bmap;
     bmap_constraints := bmap_constraints bmap ++ cs |}.

(** [out[k] - in[j] = 0]. *)
Definition copy_row (n_in n_out j k : nat) : isl_constraint :=
  {| c_eq := true;
     c_in := <[j := (-1)%Z]> (replicate n_in 0%Z);
     c_out := <[k := 1%Z]> (replicate n_out 0%Z);
     c_div := []; c_const := 0%Z |}.

(** [out[p] >= 0] and [-out[p] + size - 1 >= 0]. *)
Definition lower_row (n_in n_out p : nat) : isl_constraint :=
  {| c_eq := false;
     c_in := replicate n_in 0%Z;
     c_out := <[p := 1%Z]> (replicate n_out 0%Z);
     c_div := []; c_const := 0%Z |}.

Definition upper_row (n_in n_out p : nat) (size : Z) : isl_constraint :=
  {| c_eq := false;
     c_in := replicate n_in 0%Z;
     c_out := <[p := (-1)%Z]> (replicate n_out 0%Z);
     c_div := []; c_const := (size - 1)%Z |}.

Definition tile_copy_row (n_in n_out first tile_len i : nat) : isl_constraint :=
  copy_row n_in n_out
    (if decide (i < first) then i else i + tile_len)
    (if decide (i < first) then i else i + 2 * tile_len).

Definition tile_split_rows (n_in n_out first tile_len : nat)
  (tile_size : list Z) (i : nat) : list isl_constraint :=
  [ {| c_eq := true;
       c_in := <[first + i := (-1)%Z]> (replicate n_in 0%Z);
       c_out := <[first + i + tile_len := 1%Z]>
                  (<[first + i := size_at tile_size i]>
                     (replicate n_out 0%Z));
       c_div := []; c_const := 0%Z |};
    lower_row n_in n_out (first + i + tile_len);
    upper_row n_in n_out (first + i + tile_len) (size_at tile_size i) ].

Definition wrap_copy_row (n_in n_out first wrap_len i : nat) : isl_constraint :=
  copy_row n_in n_out i
    (if decide (i < first + wrap_len) then i else i + 2 * wrap_len).

Definition wrap_split_rows (n_in n_out first wrap_len : nat)
  (wrap_size : list Z) (i : nat) : list isl_constraint :=
  [ {| c_eq := true;
       c_in := replicate n_in 0%Z;
       c_out := <[first + 2 * wrap_len + i := size_at wrap_size i]>
                  (<[first + wrap_len + i := 1%Z]>
                     (<[first + i := (-1)%Z]> (replicate n_out 0%Z)));
       c_div := []; c_const := 0%Z |};
    lower_row n_in n_out (first + wrap_len + i);
    upper_row n_in n_out (first + wrap_len + i) (size_at wrap_size i) ].

(** The points of the map that [tile] builds, read off its rows. *)
Definition tile_spec (len first tile_len : nat) (tile_size x y : list Z)
  : Prop :=
  length x = len /\ length y = len + tile_len /\
  (forall i, i < len - tile_len ->
     y !!! (if decide (i < first) then i else i + 2 * tile_len)
     = x !!! (if decide (i < first) then i else i + tile_len)) /\
  (forall i, i < tile_len ->
     let coord : Z := x !!! (first + i) in
     let outer : Z := y !!! (first + i) in
     let inner : Z := y !!! (first + i + tile_len) in
     (coord = size_at tile_size i * outer + inner)%Z /\
     (0 <= inner <= size_at tile_size i - 1)%Z).

(** ** Effective grid size *)

Definition set_block_filter (kernel : ppcg_kernel)
  (filter : inst -> list (list Z)) : ppcg_kernel :=
  {| k_id := k_id kernel; tile_len := tile_len kernel;
     n_parallel := n_parallel kernel; n_grid := n_grid kernel;
     n_block := n_block kernel; grid_dim := grid_dim kernel;
     block_dim := block_dim kernel;
     array := array kernel; any_force_private := any_force_private kernel;
     max_shared_memory := max_shared_memory kernel;
     block_filter := filter;
     grid_size := grid_size kernel |}.

Definition set_grid_size (kernel : ppcg_kernel) (size : list (option Z))
  : ppcg_kernel :=
  {| k_id := k_id kernel; tile_len := tile_len kernel;
     n_parallel := n_parallel kernel; n_grid := n_grid kernel;
     n_block := n_block kernel; grid_dim := grid_dim kernel;
     block_dim := block_dim kernel;
     array := array kernel; any_force_private := any_force_private kernel;
     max_shared_memory := max_shared_memory kernel;
     block_filter := block_filter kernel;
     grid_size := size |}.

(** [split_band]: if the band has more than [n] members, keep the first
    [n] of them in the outer band. *)
Definition split_band (node : band_node) (n : nat) : band_node :=
  if decide (n < band_n_member node) then
    {| partial_schedule := fun x => take n (partial_schedule node x);
       coincident := take n (coincident node) |}
  else node.

(** [set_schedule_modulo]: the instances together with the values of
    the parameters that are equated to the partial schedule of [node]
    modulo [size].  A band without members constrains no parameter.
    isl only takes a value modulo a positive integer. *)
Definition set_schedule_modulo (node : band_node) (size : list Z)
  : inst -> list (list Z) :=
  if decide (band_n_member node = 0) then fun _ => [[]]
  else fun x =>
    [map (fun i => (partial_schedule node x !!! i) `mod` size_at size i)%Z
         (seq 0 (band_n_member node))].

(** [isl_set_dim_max] at the fixed value of the parameters: the maximum
    of coordinate [i] over the points of the set; there is none on the
    empty set. *)
Definition isl_set_dim_max (set : list (list Z)) (i : nat) : option Z :=
  match set with
  | [] => None
  | p :: ps => Some (foldl (fun m q => Z.max m (q !!! i)) (p !!! i) ps)
  end.

(** [extract_size] of a set of dimension [n]: the maximum in each
    direction plus one.  The value of the parameters is taken inside
    [context], where [isl_pw_aff_gist] does not change the bound. *)
Definition extract_size (n : nat) (set : list (list Z)) : list (option Z) :=
  map (fun i => bound ← isl_set_dim_max set i; Some (bound + 1)%Z) (seq 0 n).

(** [extract_grid_size]: the values of the block identifiers of the
    instances of [domain] that satisfy the block filter, turned into a
    set of [n_grid] dimensions, and its size. *)
Definition extract_grid_size (kernel : ppcg_kernel) (domain : list inst)
  : list (option Z) :=
  let grid := concat (map (block_filter kernel) domain) in
  extract_size (n_grid kernel) grid.

(** The part of [create_kernel] that fills in the dimension counts, the
    sizes, the block filter and the effective grid size of the freshly
    allocated kernel [kernel]: [node] is the band that
    [mark_outer_permutable] hands over (the tile band of the selected
    band, after the selected band is split to the number of tile
    sizes), [node_thread] the band below the "thread" mark and
    [domain] the instances that reach [node]. *)
Definition create_kernel (kernel : ppcg_kernel) (kernel_id : nat)
  (sizes : option sizes_map) (node node_thread : band_node)
  (domain : list inst) : ppcg_kernel :=
  let kernel :=
    {| k_id := kernel_id;
       tile_len := band_n_member node;
       n_parallel := n_outer_coincidence node;
       n_grid := n_outer_coincidence node;
       n_block := n_outer_coincidence node_thread;
       grid_dim := grid_dim kernel;
       block_dim := block_dim kernel;
       array := array kernel;
       any_force_private := any_force_private kernel;
       max_shared_memory := max_shared_memory kernel;
       block_filter := block_filter kernel;
       grid_size := grid_size kernel |} in
  let kernel := read_grid_and_block_sizes kernel sizes in
  let node := split_band node (n_grid kernel) in
  let kernel :=
    set_block_filter kernel (set_schedule_modulo node (grid_dim kernel)) in
  set_grid_size kernel (extract_grid_size kernel domain).

(** ** Interchange for unrolling *)

(** The fields of [struct gpu_gen] that are used. *)
Record gpu_gen := GpuGen {
  kernel : ppcg_kernel;
  tile_first : nat;
  shared_len : nat;
  thread_tiled_len : nat;
  first_unroll : Z
}.

Definition set_first_unroll (gen : gpu_gen) (v : Z) : gpu_gen :=
  {| kernel := kernel gen; tile_first := tile_first gen;
     shared_len := shared_len gen; thread_tiled_len := thread_tiled_len gen;
     first_unroll := v |}.

Definition set_kernel (gen : gpu_gen) (k : ppcg_kernel) : gpu_gen :=
  {| kernel := k; tile_first := tile_first gen;
     shared_len := shared_len gen; thread_tiled_len := thread_tiled_len gen;
     first_unroll := first_unroll gen |}.

(** A schedule: the relation between statement instances and points in
    time. *)
Definition union_map : Type := inst -> list Z -> Prop.

Definition isl_union_map_apply_range (sched : option union_map)
  (bmap : option isl_basic_map) : option union_map :=
  sched ← sched;
  bmap ← bmap;
  Some (fun x t' => exists t, sched x t /\ bmap_rel bmap t t').

(** [isl_aff_involves_dims (aff, isl_dim_in, j, 1)]. *)
Definition isl_aff_involves_dims (aff : isl_aff) (j : nat) : bool :=
  bool_decide (aff_coeffs aff !!! j ≠ 0%Z).

(** [check_unroll]: set [unroll[j]] if input dimension [j] is involved
    in the index expression [ma]. *)
Definition check_unroll (ma : isl_multi_aff) (unroll : list bool) : list bool :=
  foldl (fun unroll aff =>
    foldl (fun unroll j =>
      if isl_aff_involves_dims aff j then <[j := true]> unroll else unroll)
      unroll (seq 0 (ma_n_in ma)))
    unroll (ma_affs ma).

(** [permutation]: the map with [out[pos[i]] = in[i]]. *)
Definition permutation (dim : isl_space) (pos : list nat) (len : nat)
  : option isl_basic_map :=
  let dim := isl_space_add_dims dim isl_dim_in len in
  let dim := isl_space_add_dims dim isl_dim_out len in
  let bmap := isl_basic_map_universe dim in
  let ls := dim in
  foldl (fun bmap i =>
    let c := isl_equality_alloc ls in
    let c := isl_constraint_set_coefficient_si c isl_dim_in i (-1) in
    let c := isl_constraint_set_coefficient_si c isl_dim_out (pos !!! i) 1 in
    isl_basic_map_add_constraint bmap c)
    bmap (seq 0 len).

(** [remove_private_tiles]: remove the private tiles from all groups,
    except for the groups of arrays that are marked [force_private]. *)
Definition remove_private_tiles (gen : gpu_gen) : gpu_gen :=
  set_kernel gen
    (set_array (kernel gen)
       (map (fun local =>
          if force_private local then local
          else set_groups local
                 (map (fun group => set_private_tile group None)
                      (groups local)))
          (array (kernel gen)))).

(** The first part of [interchange_for_unroll]: the dimensions that are
    involved in the index expressions of the groups with a private
    tile. *)
Definition private_unroll (gen : gpu_gen) : list bool :=
  foldl (fun unroll array_ =>
    foldl (fun unroll group =>
      match private_tile group with
      | None => unroll
      | Some _ =>
          foldl (fun unroll ma => check_unroll ma unroll)
                unroll (private_pieces group)
      end)
      unroll (groups array_))
    (replicate (thread_tiled_len gen) false) (array (kernel gen)).

(** Reading [unroll[i]]; the array has [thread_tiled_len] elements. *)
Definition unroll_at (unroll : list bool) (i : nat) : bool := unroll !!! i.

(** The second part: the positions to which the dimensions are moved,
    and the number of dimensions from [shared_len] on that are not
    unrolled. *)
Definition unroll_perm (gen : gpu_gen) (unroll : list bool) (len : nat)
  : list nat * nat :=
  let perm := replicate (thread_tiled_len gen) 0 in
  let '(perm, j) :=
    foldl (fun '(perm, j) i => (<[i := j]> perm, S j))
          (perm, 0) (seq 0 (shared_len gen)) in
  let '(perm, j) :=
    foldl (fun '(perm, j) i =>
             if unroll_at unroll i then (perm, j) else (<[i := j]> perm, S j))
          (perm, j)
          (seq (shared_len gen) (thread_tiled_len gen - shared_len gen)) in
  let first := j - shared_len gen in
  let '(perm, j) :=
    foldl (fun '(perm, j) i =>
             if unroll_at unroll i then (<[i := j]> perm, S j) else (perm, j))
          (perm, j) (seq (shared_len gen) (len - shared_len gen)) in
  (perm, first).

Definition interchange_for_unroll (gen : gpu_gen) (dim : isl_space)
  (sched : option union_map) : gpu_gen * option union_map :=
  let len := shared_len gen + n_parallel (kernel gen)
             + n_block (kernel gen) in
  let gen := set_first_unroll gen (-1) in
  let unroll := private_unroll gen in
  if negb (existsb (unroll_at unroll)
             (seq (shared_len gen) (len - shared_len gen)))
  then (gen, sched)
  else if existsb (unroll_at unroll)
            (seq len (thread_tiled_len gen - len))
  then (gen, sched)
  else if any_force_private (kernel gen)
  then (remove_private_tiles gen, sched)
  else
    let '(perm, first) := unroll_perm gen unroll len in
    let gen := set_first_unroll gen (Z.of_nat first) in
    let permute := permutation dim perm (thread_tiled_len gen) in
    (gen, isl_union_map_apply_range sched permute).

(** ** Memory-hierarchy schedule *)

(** [insert_even] on a point of the shared tile loops: the dimensions
    from [tile_first] on go to the odd positions of the result, the
    even positions are fixed to 0 except for position [2 * pos], which
    is fixed to [val]; if [pos >= 0], the odd positions from [pos] on
    are fixed to 0 as well. *)
Definition isl_insert_dim (proj : list Z) (at_ : nat) (v : Z) : list Z :=
  take at_ proj ++ v :: drop at_ proj.

Definition insert_even (gen : gpu_gen) (pos val : Z) (s : list Z) : list Z :=
  let proj := drop (tile_first gen) s in
  let n := shared_len gen - tile_first gen in
  let proj :=
    foldl (fun proj i =>
      isl_insert_dim proj (2 * i)
        (if decide (Z.of_nat i = pos) then val else 0%Z))
      proj (seq 0 (S n)) in
  if decide (pos < 0)%Z then proj
  else
    foldl (fun proj i => <[2 * i + 1 := 0%Z]> proj)
      proj (seq (Z.to_nat pos) (n - Z.to_nat pos)).

(** A piece of the schedule that [body_schedule] builds: the statements
    of the kernel themselves, a copy of a group ([read] or write) or a
    synchronisation.  Its part of the schedule over the shared tile
    loops is [insert_even gen entry_pos entry_val]. *)
Inductive entry_kind :=
  | Body
  | Copy (read : bool) (group : gpu_array_ref_group)
  | Sync.

Record sched_entry := SchedEntry {
  entry_kind_of : entry_kind;
  entry_pos : Z;
  entry_val : Z
}.

Definition entry_time (gen : gpu_gen) (e : sched_entry) (s : list Z) : list Z :=
  insert_even gen (entry_pos e) (entry_val e) s.

Definition add_sync_schedule (gen : gpu_gen) (res : list sched_entry)
  (pos val : Z) : list sched_entry :=
  res ++ [{| entry_kind_of := Sync; entry_pos := pos; entry_val := val |}].

Definition has_tile (o : option gpu_array_tile) : bool :=
  match o with Some _ => true | None => false end.

(** [add_group_schedule]; [k] is the number of the group and [s] the
    total number of groups.  The access relation that is left to copy
    is empty when [copy_in] (for a read) or [copy_out] (for a write) is
    not set.  The assertion [pos >= 0] is not modelled. *)
Definition add_group_schedule (gen : gpu_gen) (res : list sched_entry)
  (group : gpu_array_ref_group) (read : bool) (k s : Z) : list sched_entry :=
  if negb (if read then copy_in group else copy_out group) then res
  else
    let pos := (last_shared group + 1 - Z.of_nat (tile_first gen))%Z in
    let val :=
      if read then (-2 - k)%Z
      else if has_tile (private_tile group) then (1 + k)%Z
      else (1 + s + 1 + k)%Z in
    let res :=
      res ++ [{| entry_kind_of := Copy read group;
                 entry_pos := pos; entry_val := val |}] in
    let n := (Z.of_nat (shared_len gen) - Z.of_nat (tile_first gen))%Z in
    if read then
      if negb (has_tile (private_tile group))
      then add_sync_schedule gen res n (-1)
      else res
    else
      if decide (pos = 0)%Z then res
      else if bool_decide (pos = n)%Z && has_tile (private_tile group) then res
      else add_sync_schedule gen res pos (2 * s + 2)%Z.

(** [body_schedule]: the entries for the statements of the kernel, for
    the copies of the groups with a tile and for the synchronisations. *)
Definition body_schedule (gen : gpu_gen) : list sched_entry :=
  let res := [{| entry_kind_of := Body; entry_pos := (-1)%Z;
                 entry_val := 0%Z |}] in
  let s :=
    foldl (fun s array_ => (s + Z.of_nat (n_group array_))%Z)
          0%Z (array (kernel gen)) in
  let '(res, k) :=
    foldl (fun '(res, k) array_ =>
      foldl (fun '(res, k) group =>
        if negb (has_tile (private_tile group))
           && negb (has_tile (shared_tile group))
        then (res, k)
        else
          let res := add_group_schedule gen res group false k s in
          let res := add_group_schedule gen res group true k s in
          (res, (k + 1)%Z))
        (res, k) (groups array_))
      (res, 0%Z) (array (kernel gen)) in
  add_sync_schedule gen res
    (Z.of_nat (shared_len gen) - Z.of_nat (tile_first gen))%Z (1 + s)%Z.

(** The total number of groups of a kernel, and its groups with a tile
    in the order in which [body_schedule] numbers them. *)
Definition total_groups (k : ppcg_kernel) : Z :=
  Z.of_nat (length (kernel_groups k)).

Definition tiled_groups (k : ppcg_kernel) : list gpu_array_ref_group :=
  filter (fun group => has_tile (private_tile group)
                       || has_tile (shared_tile group) = true)
         (kernel_groups k).

(** The kinds of entries that the ordering distinguishes. *)
Definition is_read (e : sched_entry) : bool :=
  match entry_kind_of e with Copy true _ => true | _ => false end.

Definition is_private_write (e : sched_entry) : bool :=
  match entry_kind_of e with
  | Copy false group => has_tile (private_tile group)
  | _ => false
  end.

Definition is_shared_write (e : sched_entry) : bool :=
  match entry_kind_of e with
  | Copy false group => negb (has_tile (private_tile group))
  | _ => false
  end.

Definition is_sync (e : sched_entry) : bool :=
  match entry_kind_of e with Sync => true | _ => false end.

(** ** Schedule constraints *)

(** A dependence relation: a set of pairs of statement instances. *)
Abbreviation isl_union_map := (gset (inst * inst)).

(** The relations of [struct ppcg_scop] that [compute_schedule] reads;
    the tagged relations relate instances of references, which are
    tuples as well. *)
Record ppcg_scop := PpcgScop {
  domain : gset inst;
  dep_flow : isl_union_map;
  dep_false : isl_union_map;
  dep_forced : isl_union_map;
  independence : isl_union_map;
  tagged_dep_flow : isl_union_map;
  tagged_dep_order : isl_union_map
}.

(** [isl_schedule_constraints]: what the scheduler is given. *)
Record isl_schedule_constraints := IslScheduleConstraints {
  sc_domain : gset inst;
  sc_validity : isl_union_map;
  sc_coincidence : isl_union_map;
  sc_proximity : isl_union_map;
  sc_condition : isl_union_map;
  sc_conditional_validity : isl_union_map
}.

Definition isl_schedule_constraints_on_domain (dom : gset inst)
  : isl_schedule_constraints :=
  {| sc_domain := dom; sc_validity := ∅; sc_coincidence := ∅;
     sc_proximity := ∅; sc_condition := ∅; sc_conditional_validity := ∅ |}.

Definition isl_schedule_constraints_set_validity
  (sc : isl_schedule_constraints) (validity : isl_union_map)
  : isl_schedule_constraints :=
  {| sc_domain := sc_domain sc; sc_validity := validity;
     sc_coincidence := sc_coincidence sc; sc_proximity := sc_proximity sc;
     sc_condition := sc_condition sc;
     sc_conditional_validity := sc_conditional_validity sc |}.

Definition isl_schedule_constraints_set_coincidence
  (sc : isl_schedule_constraints) (coincidence : isl_union_map)
  : isl_schedule_constraints :=
  {| sc_domain := sc_domain sc; sc_validity := sc_validity sc;
     sc_coincidence := coincidence; sc_proximity := sc_proximity sc;
     sc_condition := sc_condition sc;
     sc_conditional_validity := sc_conditional_validity sc |}.

Definition isl_schedule_constraints_set_proximity
  (sc : isl_schedule_constraints) (proximity : isl_union_map)
  : isl_schedule_constraints :=
  {| sc_domain := sc_domain sc; sc_validity := sc_validity sc;
     sc_coincidence := sc_coincidence sc; sc_proximity := proximity;
     sc_condition := sc_condition sc;
     sc_conditional_validity := sc_conditional_validity sc |}.

Definition isl_schedule_constraints_set_conditional_validity
  (sc : isl_schedule_constraints) (condition validity : isl_union_map)
  : isl_schedule_constraints :=
  {| sc_domain := sc_domain sc; sc_validity := sc_validity sc;
     sc_coincidence := sc_coincidence sc; sc_proximity := sc_proximity sc;
     sc_condition := condition;
     sc_conditional_validity := validity |}.

(** [compute_schedule] up to the call of the scheduler: the constraints
    that [isl_schedule_constraints_compute_schedule] is given.
    [live_range_reordering] is the option of that name and
    [array_order] is [gen->prog->array_order].  (The context only
    restricts the parameters and is left out.) *)
Definition compute_schedule (live_range_reordering : bool)
  (scop : ppcg_scop) (array_order : isl_union_map)
  : isl_schedule_constraints :=
  let sc := isl_schedule_constraints_on_domain (domain scop) in
  let '(sc, validity, coincidence, proximity) :=
    if live_range_reordering then
      let sc := isl_schedule_constraints_set_conditional_validity sc
                  (tagged_dep_flow scop) (tagged_dep_order scop) in
      let proximity := dep_flow scop in
      let validity := proximity in
      let validity := validity ∪ dep_forced scop in
      let proximity := proximity ∪ dep_false scop in
      let coincidence := validity in
      let coincidence := coincidence ∖ independence scop in
      let coincidence := coincidence ∪ array_order in
      (sc, validity, coincidence, proximity)
    else
      let dep_raw := dep_flow scop in
      let dep := dep_false scop in
      let dep := dep ∪ dep_raw in
      let proximity := dep in
      let coincidence := dep in
      let validity := dep in
      (sc, validity, coincidence, proximity) in
  let sc := isl_schedule_constraints_set_validity sc validity in
  let sc := isl_schedule_constraints_set_coincidence sc coincidence in
  let sc := isl_schedule_constraints_set_proximity sc proximity in
  sc.

(** ** Relations used to state how the kernel is changed *)

(** What the inner loop of [check_shared_memory_bound] does to a group:
    nothing, or it removes the shared tile of a group without a private
    tile. *)
Definition group_kept_or_demoted (g g' : gpu_array_ref_group) : Prop :=
  g' = g \/ (in_shared g = true /\ g' = set_shared_tile g None).

(** The same for an array: its element size and its [force_private]
    mark are kept and so is each group, up to the removal of a shared
    tile. *)
Definition array_kept_or_demoted (a a' : gpu_local_array_info) : Prop :=
  array_size a' = array_size a /\ force_private a' = force_private a /\
  Forall2 group_kept_or_demoted (groups a) (groups a').

(** ** Counting the selected dimensions *)

(** The number of positions among the [m] positions from [a] on that
    [sel] selects: what the counter [j] of the loops of
    [interchange_for_unroll] advances by. *)
Fixpoint count_sel (sel : nat -> bool) (a m : nat) : nat :=
  match m with
  | O => 0
  | S m' => (if sel a then 1 else 0) + count_sel sel (S a) m'
  end.

(** ** Tiling and scaling the schedule *)

(** The options of [struct ppcg_options] that the schedule
    transformations read. *)
Record ppcg_options := PpcgOptions {
  opt_wrap : bool;
  opt_scale_tile_loops : bool
}.

(** An [isl_map] between tuples: the relation that it denotes. *)
Definition isl_map : Type := list Z -> list Z -> Prop.

Definition isl_map_from_basic_map (bmap : option isl_basic_map)
  : option isl_map :=
  bmap ← bmap;
  Some (bmap_rel bmap).

Definition isl_map_apply_range (map1 map2 : option isl_map)
  : option isl_map :=
  map1 ← map1;
  map2 ← map2;
  Some (fun x z => exists y, map1 x y /\ map2 y z).

(** [isl_union_map_apply_range (sched, isl_union_map_from_map (map))]. *)
Definition isl_union_map_apply_range_map (sched : option union_map)
  (map : option isl_map) : option union_map :=
  sched ← sched;
  map ← map;
  Some (fun x t' => exists t, sched x t /\ map t t').

Definition set_shared_len (gen : gpu_gen) (n : nat) : gpu_gen :=
  {| kernel := kernel gen; tile_first := tile_first gen;
     shared_len := n; thread_tiled_len := thread_tiled_len gen;
     first_unroll := first_unroll gen |}.

(** [tile_schedule].  The fields [untiled_len] and [tiled_len] of
    [struct gpu_gen] and the field [tile_size] of the kernel are not
    part of the records above: [untiled_len] and [tile_size] are
    arguments and the new value of [tiled_len] is returned next to the
    updated [gen]. *)
Definition tile_schedule (options : ppcg_options) (gen : gpu_gen)
  (untiled_len : nat) (tile_size : list Z) (dim : isl_space)
  (sched : option union_map) : gpu_gen * nat * option union_map :=
  let kernel := kernel gen in
  let tiling :=
    isl_map_from_basic_map
      (tile dim untiled_len (tile_first gen) (tile_len kernel) tile_size) in
  let block_tiling :=
    if opt_wrap options then
      isl_map_from_basic_map
        (wrap dim (untiled_len + tile_len kernel) (tile_first gen)
              (n_grid kernel) (grid_dim kernel))
    else
      isl_map_from_basic_map
        (tile dim (untiled_len + tile_len kernel) (tile_first gen)
              (n_grid kernel) (grid_dim kernel)) in
  let tiled_len := untiled_len + tile_len kernel + n_grid kernel in
  let tiling := isl_map_apply_range tiling block_tiling in
  let sched := isl_union_map_apply_range_map sched tiling in
  let gen :=
    set_shared_len gen (tile_first gen + tile_len kernel + n_grid kernel) in
  (gen, tiled_len, sched).

(** The loop that [scale_tile_loops], [scale_thread_tile_loops] and
    [scale_access_tile_loops] each run: one equality
    [f(i) * in[i] - out[i] = 0] for each of the [len] dimensions. *)
Definition scale_map (dim : isl_space) (len : nat) (f : nat -> Z)
  : option isl_basic_map :=
  let dim := isl_space_add_dims dim isl_dim_in len in
  let dim := isl_space_add_dims dim isl_dim_out len in
  let scale := isl_basic_map_universe dim in
  let ls := dim in
  foldl (fun scale i =>
    let c := isl_equality_alloc ls in
    let c := isl_constraint_set_coefficient_si c isl_dim_in i (f i) in
    let c := isl_constraint_set_coefficient_si c isl_dim_out i (-1) in
    isl_basic_map_add_constraint scale c)
    scale (seq 0 len).

(** The factor [f] that [scale_tile_loops] computes for dimension [i]:
    [f] is an [int], and so is the product of [f *= grid_dim[..]]. *)
Definition tile_loop_factor (options : ppcg_options) (gen : gpu_gen)
  (tile_size : list Z) (i : nat) : Z :=
  let kernel := kernel gen in
  if decide (tile_first gen <= i /\ i < tile_first gen + n_grid kernel) then
    let f := size_at tile_size (i - tile_first gen) in
    if negb (opt_wrap options)
    then to_int (f * size_at (grid_dim kernel) (i - tile_first gen))
    else f
  else if decide (tile_first gen + n_grid kernel <= i /\
                  i < tile_first gen + n_grid kernel + tile_len kernel) then
    size_at tile_size (i - (tile_first gen + n_grid kernel))
  else 1%Z.

(** [scale_tile_loops]; [tiled_len] and [tile_size] are passed as for
    [tile_schedule]. *)
Definition scale_tile_loops (options : ppcg_options) (gen : gpu_gen)
  (tiled_len : nat) (tile_size : list Z) (dim : isl_space)
  (sched : option union_map) : option union_map :=
  if negb (opt_scale_tile_loops options) then sched
  else
    isl_union_map_apply_range sched
      (scale_map dim tiled_len (tile_loop_factor options gen tile_size)).

(** [scale_thread_tile_loops]. *)
Definition scale_thread_tile_loops (options : ppcg_options) (gen : gpu_gen)
  (dim : isl_space) (sched : option union_map) : option union_map :=
  if opt_wrap options then sched
  else if negb (opt_scale_tile_loops options) then sched
  else
    isl_union_map_apply_range sched
      (scale_map dim (thread_tiled_len gen)
         (fun i =>
            if decide (shared_len gen <= i /\
                       i < shared_len gen + n_block (kernel gen))
            then size_at (block_dim (kernel gen)) (i - shared_len gen)
            else 1%Z)).

(** [scale_access_tile_loops]. *)
Definition scale_access_tile_loops (options : ppcg_options) (gen : gpu_gen)
  (dim : isl_space) (sched : option union_map) (len first n_tile : nat)
  : option union_map :=
  if opt_wrap options then sched
  else if negb (opt_scale_tile_loops options) then sched
  else
    isl_union_map_apply_range sched
      (scale_map dim len
         (fun i =>
            if decide (first <= i /\ i < first + n_tile)
            then size_at (block_dim (kernel gen)) (i - first)
            else 1%Z)).

(** The image of a point in time under the two tilings that
    [tile_schedule] composes. *)
Definition tile_schedule_point (options : ppcg_options) (gen : gpu_gen)
  (tile_size : list Z) (t : list Z) : list Z :=
  let kernel := kernel gen in
  let u := tile_point (tile_first gen) (tile_len kernel) tile_size t in
  if opt_wrap options
  then wrap_point (tile_first gen) (n_grid kernel) (grid_dim kernel) u
  else tile_point (tile_first gen) (n_grid kernel) (grid_dim kernel) u.

(** ** Variables of a kernel and references of an array *)

(** [enum ppcg_kernel_access_type], as far as [create_kernel_var] sets
    it. *)
Inductive ppcg_kernel_access_type := ppcg_access_shared | ppcg_access_private.

(** [struct ppcg_kernel_var].  The name is printed by
    [gpu_array_ref_group_print_name], which belongs to the
    reference-group collaborator; [group_name] stands for it. *)
Record ppcg_kernel_var := PpcgKernelVar {
  var_name : string;
  var_type : ppcg_kernel_access_type;
  var_size : list Z
}.

(** [create_kernel_var]: the private tile is taken if there is one,
    the shared tile otherwise.  It is only called for a group with a
    tile; without one there is no size to read. *)
Definition create_kernel_var (group : gpu_array_ref_group) : ppcg_kernel_var :=
  let '(tile, type) :=
    match private_tile group with
    | Some tile => (Some tile, ppcg_access_private)
    | None => (shared_tile group, ppcg_access_shared)
    end in
  {| var_name := group_name group;
     var_type := type;
     var_size := match tile with
                 | Some tile => tile_bound_sizes tile
                 | None => []
                 end |}.

(** [create_kernel_vars]: returns [n_var] and the array [var], which is
    allocated with [n_var] zeroed elements ([None]) and then filled. *)
Definition create_kernel_vars (kernel : ppcg_kernel)
  : nat * list (option ppcg_kernel_var) :=
  let n :=
    foldl (fun n array_ =>
      foldl (fun n group =>
        if has_tile (private_tile group) || has_tile (shared_tile group)
        then S n else n)
        n (groups array_))
      0 (array kernel) in
  let n_var := n in
  let var := replicate n None in
  let '(var, _) :=
    foldl (fun '(var, n) array_ =>
      foldl (fun '(var, n) group =>
        if negb (has_tile (private_tile group))
           && negb (has_tile (shared_tile group))
        then (var, n)
        else (<[n := Some (create_kernel_var group)]> var, S n))
        (var, n) (groups array_))
      (var, 0) (array kernel) in
  (n_var, var).

(** [struct gpu_stmt_access]: the name of the array that is accessed
    (the name of the output tuple of [access->access], which may be
    NULL) and the identifier of the reference. *)
Record gpu_stmt_access := GpuStmtAccess {
  access_name : option string;
  ref_id : string
}.

(** [struct gpu_stmt]: the identifier of the statement and its linked
    list of accesses. *)
Record gpu_stmt := GpuStmt {
  stmt_id : string;
  accesses : list gpu_stmt_access
}.

(** An [isl_pw_aff] on the parameters: its value at a parameter
    point, undefined ([None]) outside of its domain. *)
Definition isl_pw_aff : Type := list Z -> option Z.

(** The fields of [struct gpu_array_info] that are used below.  The
    name identifies the space of the array; [bound] has [n_index]
    elements. *)
Record gpu_array_info := GpuArrayInfo {
  array_name : string;
  n_index : nat;
  bound : list isl_pw_aff;
  has_compound_element : bool;
  n_ref : nat;
  refs : list (option gpu_stmt_access)
}.

Definition set_refs (array_ : gpu_array_info) (n : nat)
  (r : list (option gpu_stmt_access)) : gpu_array_info :=
  {| array_name := array_name array_; n_index := n_index array_;
     bound := bound array_;
     has_compound_element := has_compound_element array_;
     n_ref := n; refs := r |}.

(** [name && !strcmp(array->name, name)]. *)
Definition names_array (array_ : gpu_array_info) (access : gpu_stmt_access)
  : bool :=
  match access_name access with
  | Some name => bool_decide (array_name array_ = name)
  | None => false
  end.

(** [collect_references] on the statements of the program. *)
Definition collect_references (stmts : list gpu_stmt)
  (array_ : gpu_array_info) : gpu_array_info :=
  if has_compound_element array_ then array_
  else
    let n :=
      foldl (fun n stmt =>
        foldl (fun n access => if names_array array_ access then S n else n)
          n (accesses stmt))
        0 stmts in
    let n_ref := n in
    let refs := replicate n None in
    let '(refs, _) :=
      foldl (fun '(refs, n) stmt =>
        foldl (fun '(refs, n) access =>
          if match access_name access with
             | None => true
             | Some name => negb (bool_decide (array_name array_ = name))
             end
          then (refs, n)
          else (<[n := Some access]> refs, S n))
          (refs, n) (accesses stmt))
        (refs, 0) stmts in
    set_refs array_ n_ref refs.

(** ** Searching the statements, accesses and arrays *)

(** [find_stmt]: the first statement with identifier [id], or NULL. *)
Fixpoint find_stmt (stmts : list gpu_stmt) (id : string) : option gpu_stmt :=
  match stmts with
  | [] => None
  | stmt :: rest =>
      if bool_decide (id = stmt_id stmt) then Some stmt
      else find_stmt rest id
  end.

(** [find_access]: the first access of the linked list with reference
    identifier [ref_id], or NULL. *)
Fixpoint find_access (accesses : list gpu_stmt_access) (ref_id' : string)
  : option gpu_stmt_access :=
  match accesses with
  | [] => None
  | access :: next =>
      if bool_decide (ref_id access = ref_id') then Some access
      else find_access next ref_id'
  end.

(** The loop of [find_array_index] from index [i] on. *)
Fixpoint find_array_index_from (arrays : list gpu_array_info) (name : string)
  (i : nat) : Z :=
  match arrays with
  | [] => (-1)%Z
  | array_ :: rest =>
      if bool_decide (name = array_name array_) then Z.of_nat i
      else find_array_index_from rest name (S i)
  end.

(** [find_array_index] in [gen->prog->array]. *)
Definition find_array_index (arrays : list gpu_array_info) (name : string)
  : Z :=
  find_array_index_from arrays name 0.

(** ** Order dependences and independences *)

(** [struct pet_independence]: the pairs of iterations that the user
    declares independent and the arrays (spaces) that are local to the
    loop. *)
Record pet_independence := PetIndependence {
  pi_filter : isl_union_map;
  pi_local : gset string
}.

(** [remove_independences]. *)
Definition remove_independences (independences : list pet_independence)
  (array_ : gpu_array_info) (order : isl_union_map) : isl_union_map :=
  foldl (fun order pi =>
    if bool_decide (array_name array_ ∈ pi_local pi) then order
    else order ∖ pi_filter pi)
    order independences.

(** ** The guard on the parameters of an array *)

(** A set of parameter values. *)
Definition isl_param_set : Type := list Z -> bool.

Definition isl_pw_aff_nonneg_set (pa : isl_pw_aff) : isl_param_set :=
  fun p => match pa p with Some v => bool_decide (0 <= v)%Z | None => false end.

Definition isl_pw_aff_zero_set (pa : isl_pw_aff) : isl_param_set :=
  fun p => match pa p with Some v => bool_decide (v = 0)%Z | None => false end.

Definition isl_set_subtract (s1 s2 : isl_param_set) : isl_param_set :=
  fun p => s1 p && negb (s2 p).

Definition isl_set_intersect (s1 s2 : isl_param_set) : isl_param_set :=
  fun p => s1 p && s2 p.

Definition isl_set_universe : isl_param_set := fun _ => true.

(** [gpu_array_positive_size_guard]; the loop reads [bound[i]] for
    [i < n_index]. *)
Definition gpu_array_positive_size_guard (array_ : gpu_array_info)
  : isl_param_set :=
  foldl (fun guard bound_i =>
    let guard_i := isl_pw_aff_nonneg_set bound_i in
    let zero := isl_pw_aff_zero_set bound_i in
    let guard_i := isl_set_subtract guard_i zero in
    isl_set_intersect guard guard_i)
    isl_set_universe (take (n_index array_) (bound array_)).

(** ** Selecting the outermost tilable bands *)

#[local] Set Warnings "-register-all".

(** A schedule tree, as far as [select_outer_band] looks at it: a set
    or sequence node has a list of children, a band node has its band,
    its permutable flag and a child, and any other type of node
    (context, guard, mark, extension, expansion) is not handled. *)
Inductive schedule_tree :=
  | tree_leaf
  | tree_domain (child : schedule_tree)
  | tree_filter (child : schedule_tree)
  | tree_band (band : band_node) (permutable : bool) (child : schedule_tree)
  | tree_list (children : list schedule_tree)
  | tree_other.

(** The tree that [select_outer_band] returns: the subtrees that
    [mark_outer_permutable] is called on are replaced by a mark node
    pointing to a kernel.  [kernel_tile_first] is the value that is
    stored in [info->tile_first] before the call and [kernel_subtree]
    the subtree that is handed over; what [mark_outer_permutable]
    builds below the mark is not part of this model, and the failure of
    an allocation is not modelled either. *)
Inductive host_tree :=
  | host_kernel (kernel_tile_first : nat) (kernel_subtree : schedule_tree)
  | host_domain (child : host_tree)
  | host_filter (child : host_tree)
  | host_band (band : band_node) (permutable : bool) (child : host_tree)
  | host_list (children : list host_tree).

(** The first loop of [list_select_outer_band]: [select] is
    [select_outer_band] at the position of the list node; the loop
    collects the new children and [info[i].tile_first]. *)
Definition select_children
  (select : bool -> schedule_tree -> option (bool * host_tree * nat))
  : list schedule_tree -> bool -> option (bool * list host_tree * list nat) :=
  fix loop children any_parallelism :=
    match children with
    | [] => Some (any_parallelism, [], [])
    | child :: rest =>
        '(any_parallelism, child, tile_first) ← select any_parallelism child;
        '(any_parallelism, rest, info) ← loop rest any_parallelism;
        Some (any_parallelism, child :: rest, tile_first :: info)
    end.

(** [select_outer_band] with [band_select_outer_band],
    [list_select_outer_band] and [leaf_select_outer_band].  The state
    is [gen->any_parallelism]; of [struct band_info] only [tile_first]
    is computed (the prefix schedules, which are padded to that number
    of dimensions, are not modelled).  The result is [None] when the
    tree that is returned is NULL; the assertion that a set or sequence
    node has a child fails on an empty list. *)
Fixpoint select_outer_band (any_parallelism : bool) (node : schedule_tree)
  (pos : nat) : option (bool * host_tree * nat) :=
  match node with
  | tree_domain child =>
      '(any_parallelism, child, tile_first) ←
        select_outer_band any_parallelism child pos;
      Some (any_parallelism, host_domain child, tile_first)
  | tree_filter child =>
      '(any_parallelism, child, tile_first) ←
        select_outer_band any_parallelism child pos;
      Some (any_parallelism, host_filter child, tile_first)
  | tree_leaf => Some (any_parallelism, host_kernel pos node, pos)
  | tree_band band permutable child =>
      let n := band_n_member band in
      let n_parallel := n_outer_coincidence band in
      if negb permutable || bool_decide (n_parallel = 0) then
        '(any_parallelism, child, tile_first) ←
          select_outer_band any_parallelism child (pos + n);
        Some (any_parallelism, host_band band permutable child, tile_first)
      else Some (true, host_kernel pos node, pos)
  | tree_list children =>
      match children with
      | [] => None
      | _ =>
          '(any_parallelism, children, info) ←
            select_children
              (fun any_parallelism child =>
                 select_outer_band any_parallelism child pos)
              children any_parallelism;
          let max_tile_first :=
            foldl (fun max_tile_first tile_first =>
                     if decide (max_tile_first < tile_first) then tile_first
                     else max_tile_first) 0 info in
          let info :=
            map (fun tile_first =>
                   if decide (tile_first = max_tile_first) then tile_first
                   else max_tile_first) info in
          Some (any_parallelism, host_list children, hd 0 info)
      end
  | tree_other => None
  end.

(** The part of [select_outer_tilable_band] that sets
    [gen->host_schedule] and [gen->tile_first]. *)
Definition select_outer_tilable_band (any_parallelism : bool)
  (schedule : schedule_tree) : option (bool * host_tree * nat) :=
  select_outer_band any_parallelism schedule 0.

(** The kernels of a host tree: for each of them the recorded
    [tile_first], the number of band members above it, counted from
    [pos], and its subtree. *)
Fixpoint kernels (pos : nat) (t : host_tree)
  : list (nat * nat * schedule_tree) :=
  match t with
  | host_kernel tile_first subtree => [(tile_first, pos, subtree)]
  | host_domain child | host_filter child => kernels pos child
  | host_band band _ child => kernels (pos + band_n_member band) child
  | host_list children => concat (map (kernels pos) children)
  end.

(** The tree without the kernel marks. *)
Fixpoint erase_kernels (t : host_tree) : schedule_tree :=
  match t with
  | host_kernel _ subtree => subtree
  | host_domain child => tree_domain (erase_kernels child)
  | host_filter child => tree_filter (erase_kernels child)
  | host_band band permutable child =>
      tree_band band permutable (erase_kernels child)
  | host_list children => tree_list (map erase_kernels children)
  end.

(** The bands that are left above the kernels are not permutable or
    have no outer coincident member. *)
Fixpoint no_kernel_band_above (t : host_tree) : Prop :=
  match t with
  | host_kernel _ _ => True
  | host_domain child | host_filter child => no_kernel_band_above child
  | host_band band permutable child =>
      (permutable = false \/ n_outer_coincidence band = 0) /\
      no_kernel_band_above child
  | host_list children =>
      foldr (fun child rest => no_kernel_band_above child /\ rest)
            True children
  end.

(** A subtree that is turned into a kernel: a leaf, or a permutable
    band with an outer coincident member. *)
Definition kernel_root (subtree : schedule_tree) : Prop :=
  match subtree with
  | tree_leaf => True
  | tree_band band permutable _ =>
      permutable = true /\ 1 <= n_outer_coincidence band
  | _ => False
  end.

Definition is_band (subtree : schedule_tree) : bool :=
  match subtree with tree_band _ _ _ => true | _ => false end.

(** The trees that [select_outer_band] handles down to the kernels: no
    node of another type and no set or sequence node without children
    above the outermost tilable bands. *)
Fixpoint handled (node : schedule_tree) : bool :=
  match node with
  | tree_leaf => true
  | tree_domain child | tree_filter child => handled child
  | tree_band band permutable child =>
      if negb permutable || bool_decide (n_outer_coincidence band = 0)
      then handled child else true
  | tree_list children =>
      match children with
      | [] => false
      | _ => forallb handled children
      end
  | tree_other => false
  end.

(** What [select_outer_band] establishes at position [pos]: the tree
    [t] is [node] with kernel marks, only bands that are not tilable
    or not parallel are left above the kernels, each kernel is a leaf
    or a tilable band with a parallel loop and records the number of
    band members above it, [tile_first] is the largest of these numbers
    and [any_parallelism] is set when a kernel is a band. *)
Definition selected_at (pos : nat) (any_parallelism any_parallelism' : bool)
  (node : schedule_tree) (t : host_tree) (tile_first : nat) : Prop :=
  erase_kernels t = node /\
  no_kernel_band_above t /\
  Forall (fun k => k.1.1 = k.1.2 /\ pos <= k.1.2 <= tile_first /\
                   kernel_root k.2) (kernels pos t) /\
  (exists k, k ∈ kernels pos t /\ k.1.2 = tile_first) /\
  any_parallelism'
  = any_parallelism || existsb (fun k => is_band k.2) (kernels pos t).

(** ** Linearized index expressions *)

(** The AST expressions that [gpu_local_array_info_linearize_index]
    takes apart and builds: an access [A[i_0]...[i_n]] is the operation
    [isl_ast_op_access] with arguments [A, i_0, ..., i_n]. *)
Inductive isl_ast_op_type :=
  | isl_ast_op_access
  | isl_ast_op_member
  | isl_ast_op_add
  | isl_ast_op_mul.

Inductive isl_ast_expr :=
  | ast_id (name : string)
  | ast_int (v : Z)
  | ast_op (op : isl_ast_op_type) (args : list isl_ast_expr).

Definition isl_ast_expr_mul (expr1 expr2 : isl_ast_expr) : isl_ast_expr :=
  ast_op isl_ast_op_mul [expr1; expr2].

Definition isl_ast_expr_add (expr1 expr2 : isl_ast_expr) : isl_ast_expr :=
  ast_op isl_ast_op_add [expr1; expr2].

Definition isl_ast_expr_access (array_ : isl_ast_expr)
  (indices : list isl_ast_expr) : isl_ast_expr :=
  ast_op isl_ast_op_access (array_ :: indices).

(** [gpu_local_array_info_linearize_index].  [n_index] and [bound] are
    the fields of the local array that are read; [bound] holds the
    expressions that [isl_ast_build_expr_from_pw_aff] builds for the
    bounds.  An argument or a bound that does not exist makes the isl
    function that asks for it fail, and with it the result (NULL). *)
Fixpoint gpu_local_array_info_linearize_index (n_index : nat)
  (bound : list isl_ast_expr) (expr : isl_ast_expr) : option isl_ast_expr :=
  match expr with
  | ast_op op (arg0 :: args) =>
      match arg0 with
      | ast_op isl_ast_op_member margs =>
          match margs with
          | arg :: rest =>
              arg ← gpu_local_array_info_linearize_index n_index bound arg;
              Some (ast_op op (ast_op isl_ast_op_member (arg :: rest) :: args))
          | [] => None
          end
      | _ =>
          match args with
          | [] => Some expr
          | arg1 :: _ =>
              let n := S (length args) in
              res ←
                foldl (fun res i =>
                  res ← res;
                  bound_i ← bound !! i;
                  let res := isl_ast_expr_mul res bound_i in
                  if decide (n <= i + 1) then Some res
                  else
                    expr_i ← (arg0 :: args) !! (i + 1);
                    Some (isl_ast_expr_add res expr_i))
                  (Some arg1) (seq 1 (n_index - 1));
              if decide (n < 1 + n_index)
              then Some (isl_ast_expr_add arg0 res)
              else Some (isl_ast_expr_access arg0 [res])
          end
      end
  | _ => None
  end.

(** The value of an arithmetic expression. *)
Fixpoint ast_eval (env : string -> Z) (expr : isl_ast_expr) : Z :=
  match expr with
  | ast_id name => env name
  | ast_int v => v
  | ast_op isl_ast_op_add [expr1; expr2] =>
      (ast_eval env expr1 + ast_eval env expr2)%Z
  | ast_op isl_ast_op_mul [expr1; expr2] =>
      (ast_eval env expr1 * ast_eval env expr2)%Z
  | ast_op _ _ => 0%Z
  end.

(** The offset of the element with indices [i_0, i_1, ...] in an array
    with bounds [b_0, b_1, ...] that is stored in row-major order:
    [(..(i_0 * b_1 + i_1) ..) * b_n + i_n]. *)
Definition row_major (bounds indices : list Z) : Z :=
  foldl (fun acc bi => (acc * bi.1 + bi.2)%Z)
        (hd 0%Z indices) (zip (tail bounds) (tail indices)).


(** ** Options of the AST build *)

(** [isl_space_params]: the parameter space of a space. *)
Definition isl_space_params (space : isl_space) : isl_space :=
  {| space_n_param := space_n_param space; space_n_in := 0;
     space_n_out := 0 |}.

(** [isl_space_from_domain]: the set dimensions (kept as output
    dimensions, as in isl) become the input dimensions of a map with no
    output dimension. *)
Definition isl_space_from_domain (space : isl_space) : isl_space :=
  {| space_n_param := space_n_param space; space_n_in := space_n_out space;
     space_n_out := 0 |}.

(** [isl_map_fix_si]: adds the equality [-x_pos + value = 0]; a
    position outside of the space is an error.  The maps of
    [set_atomic_and_unroll] have a single basic map. *)
Definition isl_map_fix_si (map : option isl_basic_map)
  (type : isl_dim_type) (pos : nat) (value : Z) : option isl_basic_map :=
  bmap ← map;
  let ls := {| space_n_param := 0; space_n_in := bmap_n_in bmap;
               space_n_out := bmap_n_out bmap |} in
  let c := isl_equality_alloc ls in
  let c := isl_constraint_set_coefficient_si c type pos (-1) in
  let c := isl_constraint_set_constant_si c value in
  isl_basic_map_add_constraint (Some bmap) c.

(** A map with a name for its output tuple, and a union of such maps. *)
Definition named_map : Type := string * isl_basic_map.

Definition isl_map_set_tuple_name (map : option isl_basic_map)
  (name : string) : option named_map :=
  bmap ← map; Some (name, bmap).

Definition isl_union_map_from_map (map : option named_map)
  : option (list named_map) :=
  map ← map; Some [map].

Definition isl_union_map_add_map (umap : option (list named_map))
  (map : option named_map) : option (list named_map) :=
  umap ← umap; map ← map; Some (umap ++ [map]).

(** An AST build: its options. *)
Record isl_ast_build := IslAstBuild { build_options : list named_map }.

Definition isl_ast_build_set_options (build : option isl_ast_build)
  (options : option (list named_map)) : option isl_ast_build :=
  _ ← build; options ← options; Some {| build_options := options |}.

(** [set_atomic_and_unroll]: the loop [for (i = 0; i < sched_len;
    i += 2)] visits [i = 2 * a] for [a < (sched_len + 1) / 2]. *)
Definition set_atomic_and_unroll (build : option isl_ast_build)
  (space : isl_space) (sched_len : nat) : option isl_ast_build :=
  let space := isl_space_params space in
  let space := isl_space_add_dims space isl_dim_out sched_len in
  let space := isl_space_from_domain space in
  let space := isl_space_add_dims space isl_dim_out 2 in
  let map := isl_basic_map_universe space in
  let map :=
    foldl (fun map a => isl_map_fix_si map isl_dim_in (2 * a) 0)
      map (seq 0 ((sched_len + 1) / 2)) in
  let ls := space in
  let c := isl_equality_alloc ls in
  let c := isl_constraint_set_coefficient_si c isl_dim_out 0 1 in
  let c := isl_constraint_set_coefficient_si c isl_dim_out 1 2 in
  let c := isl_constraint_set_constant_si c 1 in
  let map := isl_basic_map_add_constraint map c in
  let map := isl_basic_map_project_out map isl_dim_out 1 1 in
  let map := isl_map_set_tuple_name map "atomic" in
  let opt := isl_union_map_from_map map in
  let map := isl_basic_map_universe space in
  let ls := space in
  let c := isl_equality_alloc ls in
  let c := isl_constraint_set_coefficient_si c isl_dim_out 0 1 in
  let c := isl_constraint_set_coefficient_si c isl_dim_out 1 2 in
  let map := isl_basic_map_add_constraint map c in
  let map := isl_basic_map_project_out map isl_dim_out 1 1 in
  let map := isl_map_set_tuple_name map "unroll" in
  let opt := isl_union_map_add_map opt map in
  isl_ast_build_set_options build opt.

(** The rows that [set_atomic_and_unroll] adds: [-in[j] + v = 0] and
    [out[0] + 2 out[1] + k = 0]. *)
Definition fix_row (n_in n_out j : nat) (v : Z) : isl_constraint :=
  {| c_eq := true;
     c_in := <[j := (-1)%Z]> (replicate n_in 0%Z);
     c_out := replicate n_out 0%Z;
     c_div := []; c_const := v |}.

Definition parity_row (n_in : nat) (k : Z) : isl_constraint :=
  {| c_eq := true;
     c_in := replicate n_in 0%Z;
     c_out := <[1%nat := 2%Z]> (<[0%nat := 1%Z]> (replicate 2 0%Z));
     c_div := []; c_const := k |}.

(** ** Marking the selected band *)

(** [insert_empty_permutable_band]: a band without members. *)
Definition insert_empty_permutable_band : band_node :=
  {| partial_schedule := fun _ => []; coincident := [] |}.

(** [read_tile_sizes]: [tile_len] copies of the [tile_size] option,
    overwritten by the sizes that the user gives for the kernel;
    returns the sizes and [*tile_len].  The call of [set_used_sizes]
    only records the sizes for the [dump_sizes] debugging option. *)
Definition read_tile_sizes (options_tile_size : Z) (sizes : option sizes_map)
  (kernel_id tile_len : nat) : list Z * nat :=
  let tile_size := replicate tile_len options_tile_size in
  let size := extract_sizes sizes "tile" kernel_id in
  read_sizes_from_set size tile_size tile_len.

(** [isl_schedule_node_band_split]: the outer band, with the first [n]
    members; the other members go to a band below it. *)
Definition isl_schedule_node_band_split (node : band_node) (n : nat)
  : band_node :=
  {| partial_schedule := fun x => take n (partial_schedule node x);
     coincident := take n (coincident node) |}.

(** [construct_band_tiles_sizes]: one element of [tile_size] for each
    member of the band. *)
Definition construct_band_tiles_sizes (node : band_node) (tile_size : list Z)
  : list Z :=
  map (size_at tile_size) (seq 0 (band_n_member node)).

(** [tile_band]: [isl_schedule_node_band_tile] without scaling of the
    tile loops and with shifting of the point loops.  The band [S]
    becomes the tile band [floor(S / sizes)] with, below it, the point
    band [S - sizes * floor(S / sizes)]; both have the coincidence
    flags of [S]. *)
Definition tile_band (node : band_node) (sizes : list Z)
  : band_node * band_node :=
  ({| partial_schedule :=
        fun x => zip_with Z.div (partial_schedule node x) sizes;
      coincident := coincident node |},
   {| partial_schedule :=
        fun x => zip_with Z.modulo (partial_schedule node x) sizes;
      coincident := coincident node |}).

Definition set_tile_len (kernel : ppcg_kernel) (n : nat) : ppcg_kernel :=
  {| k_id := k_id kernel; tile_len := n;
     n_parallel := n_parallel kernel; n_grid := n_grid kernel;
     n_block := n_block kernel; grid_dim := grid_dim kernel;
     block_dim := block_dim kernel;
     array := array kernel; any_force_private := any_force_private kernel;
     max_shared_memory := max_shared_memory kernel;
     block_filter := block_filter kernel;
     grid_size := grid_size kernel |}.

(** [mark_outer_permutable] on the subtree that [select_outer_band]
    selects, a band or a leaf: [kernel] is the kernel as
    [create_kernel] allocates it, [options_tile_size] the [tile_size]
    option and [domain] the instances that reach the node.  The band
    that [create_kernel] is called on is the tile band of the selected
    band, split to the number of tile sizes, and the band below the
    "thread" mark is its point band.  Returns the kernel and
    [kernel->tile_size], which is not a field of the record. *)
Definition mark_outer_permutable (options_tile_size : Z)
  (kernel : ppcg_kernel) (kernel_id : nat) (sizes : option sizes_map)
  (node : schedule_tree) (domain : list inst)
  : option (ppcg_kernel * list Z) :=
  node ← match node with
         | tree_leaf => Some insert_empty_permutable_band
         | tree_band band _ _ => Some band
         | _ => None
         end;
  let tile_len := band_n_member node in
  let '(tile_size, tile_len) :=
    read_tile_sizes options_tile_size sizes kernel_id tile_len in
  let node :=
    if decide (tile_len < band_n_member node)
    then isl_schedule_node_band_split node tile_len
    else node in
  let tiles_sizes := construct_band_tiles_sizes node tile_size in
  let '(node, node_thread) := tile_band node tiles_sizes in
  let kernel :=
    create_kernel kernel kernel_id sizes node node_thread domain in
  Some (set_tile_len kernel tile_len, tile_size).

(** The number of dimensions [n], lowered to the number of sizes of
    [type] that the user gives for kernel [id], if any. *)
Definition user_len (sizes : option sizes_map) (type : string) (id n : nat)
  : nat :=
  match extract_sizes sizes type id with
  | Some vals => Nat.min (length vals) n
  | None => n
  end.
(** * Properties *)

(** ** Grid and block sizes *)

Section sizes.
Implicit Types (kernel : ppcg_kernel) (sizes : option sizes_map).

Lemma read_sizes_from_set_len set dims len :
  (read_sizes_from_set set dims len).2 =
  match set with
  | Some vals => Nat.min (length vals) len
  | None => len
  end.
Proof.
  destruct set as [vals|]; simpl; [|done].
  case_decide; lia.
Qed.

Lemma n_block_read_block_sizes kernel sizes :
  n_block (read_block_sizes kernel sizes) =
  match extract_sizes sizes "block" (k_id kernel) with
  | Some vals => Nat.min (length vals) (Nat.min 3 (n_block kernel))
  | None => Nat.min 3 (n_block kernel)
  end.
Proof.
  unfold read_block_sizes.
  match goal with
  | |- context [read_sizes_from_set ?a ?b ?c] =>
      pose proof (read_sizes_from_set_len a b c) as H;
      destruct (read_sizes_from_set a b c) as [d n]
  end.
  cbn [snd] in H. subst n. cbn [n_block n_grid set_block set_grid].
  destruct (extract_sizes _ _ _); case_decide; lia.
Qed.

Lemma n_grid_read_grid_sizes kernel sizes :
  n_grid (read_grid_sizes kernel sizes) =
  match extract_sizes sizes "grid" (k_id kernel) with
  | Some vals => Nat.min (length vals) (Nat.min 2 (n_grid kernel))
  | None => Nat.min 2 (n_grid kernel)
  end.
Proof.
  unfold read_grid_sizes.
  match goal with
  | |- context [read_sizes_from_set ?a ?b ?c] =>
      pose proof (read_sizes_from_set_len a b c) as H;
      destruct (read_sizes_from_set a b c) as [d n]
  end.
  cbn [snd] in H. subst n. cbn [n_block n_grid set_block set_grid].
  destruct (extract_sizes _ _ _); case_decide; lia.
Qed.

Lemma read_block_sizes_keeps kernel sizes :
  n_grid (read_block_sizes kernel sizes) = n_grid kernel /\
  k_id (read_block_sizes kernel sizes) = k_id kernel.
Proof.
  unfold read_block_sizes.
  by destruct (read_sizes_from_set _ _ _).
Qed.

Lemma read_grid_sizes_keeps kernel sizes :
  n_block (read_grid_sizes kernel sizes) = n_block kernel /\
  k_id (read_grid_sizes kernel sizes) = k_id kernel.
Proof.
  unfold read_grid_sizes.
  by destruct (read_sizes_from_set _ _ _).
Qed.
End sizes.

(** The counts of the kernel that [create_kernel] fills in, in terms
    of the band that it is called on and the band below the "thread"
    mark. *)
Lemma create_kernel_dims kernel kernel_id sizes node node_thread dom :
  let k := create_kernel kernel kernel_id sizes node node_thread dom in
  n_grid k =
    match extract_sizes sizes "grid" kernel_id with
    | Some vals => Nat.min (length vals) (Nat.min 2 (n_outer_coincidence node))
    | None => Nat.min 2 (n_outer_coincidence node)
    end /\
  n_block k =
    match extract_sizes sizes "block" kernel_id with
    | Some vals =>
        Nat.min (length vals) (Nat.min 3 (n_outer_coincidence node_thread))
    | None => Nat.min 3 (n_outer_coincidence node_thread)
    end /\
  n_grid k <= 2 /\ n_block k <= 3.
Proof.
  intros k.
  assert (Hg : n_grid k = n_grid (read_grid_and_block_sizes
    {| k_id := kernel_id; tile_len := band_n_member node;
       n_parallel := n_outer_coincidence node;
       n_grid := n_outer_coincidence node;
       n_block := n_outer_coincidence node_thread;
       grid_dim := grid_dim kernel; block_dim := block_dim kernel;
       array := array kernel; any_force_private := any_force_private kernel;
       max_shared_memory := max_shared_memory kernel;
       block_filter := block_filter kernel;
       grid_size := grid_size kernel |} sizes)) by done.
  assert (Hb : n_block k = n_block (read_grid_and_block_sizes
    {| k_id := kernel_id; tile_len := band_n_member node;
       n_parallel := n_outer_coincidence node;
       n_grid := n_outer_coincidence node;
       n_block := n_outer_coincidence node_thread;
       grid_dim := grid_dim kernel; block_dim := block_dim kernel;
       array := array kernel; any_force_private := any_force_private kernel;
       max_shared_memory := max_shared_memory kernel;
       block_filter := block_filter kernel;
       grid_size := grid_size kernel |} sizes)) by done.
  unfold read_grid_and_block_sizes in Hg, Hb.
  rewrite n_grid_read_grid_sizes in Hg.
  destruct (read_grid_sizes_keeps (read_block_sizes
    {| k_id := kernel_id; tile_len := band_n_member node;
       n_parallel := n_outer_coincidence node;
       n_grid := n_outer_coincidence node;
       n_block := n_outer_coincidence node_thread;
       grid_dim := grid_dim kernel; block_dim := block_dim kernel;
       array := array kernel; any_force_private := any_force_private kernel;
       max_shared_memory := max_shared_memory kernel;
       block_filter := block_filter kernel;
       grid_size := grid_size kernel |} sizes) sizes) as [Hb' _].
  rewrite Hb' in Hb. clear Hb'.
  rewrite n_block_read_block_sizes in Hb.
  match type of Hg with
  | context [read_block_sizes ?k0 sizes] =>
      destruct (read_block_sizes_keeps k0 sizes) as [E1 E2];
      rewrite E1, E2 in Hg
  end.
  cbn [n_block n_grid k_id] in Hg, Hb.
  rewrite Hg, Hb.
  split; [done|]. split; [done|].
  split.
  - destruct (extract_sizes sizes "grid" kernel_id); lia.
  - destruct (extract_sizes sizes "block" kernel_id); lia.
Qed.

Section marking.
Implicit Types (flags : list bool) (n : nat).

Lemma count_outer_length flags : count_outer flags <= length flags.
Proof.
  induction flags as [|[] flags IH]; cbn; lia.
Qed.

Lemma count_outer_take flags n :
  count_outer (take n flags) = Nat.min n (count_outer flags).
Proof.
  revert n. induction flags as [|[] flags IH]; intros [|n]; cbn; try done.
  by rewrite IH.
Qed.

Lemma read_tile_sizes_len tile_size sizes kernel_id n :
  (read_tile_sizes tile_size sizes kernel_id n).2
  = user_len sizes "tile" kernel_id n.
Proof.
  unfold read_tile_sizes, user_len. rewrite read_sizes_from_set_len.
  done.
Qed.
End marking.

(** C4 (as amended).  [mark_outer_permutable] tiles the selected band,
    after splitting it to the number of tile sizes that the user gives
    for the kernel, if any, and [create_kernel] counts the outer
    coincident members of the band that is left.  So the number of
    grid dimensions is the smallest of 2, the number of outer
    coincident members of the selected band and the numbers of tile
    sizes and of grid sizes that the user gives, and the number of
    block dimensions is the smallest of 3, the number of outer
    coincident members of the selected band and the numbers of tile
    sizes and of block sizes that the user gives: [n_grid <= 2] and
    [n_block <= 3].  A selected band with at least 2 outer coincident
    members gets 2 grid dimensions unless the user gives fewer than 2
    tile sizes or fewer than 2 grid sizes.  A leaf gets a kernel
    without grid and block dimensions. *)
Theorem mark_outer_permutable_dim_caps tile_size kernel kernel_id sizes
    band permutable child dom :
  (exists k sizes',
     mark_outer_permutable tile_size kernel kernel_id sizes
       (tree_band band permutable child) dom = Some (k, sizes') /\
     let n := user_len sizes "tile" kernel_id (n_outer_coincidence band) in
     tile_len k = user_len sizes "tile" kernel_id (band_n_member band) /\
     n_parallel k = n /\
     n_grid k = user_len sizes "grid" kernel_id (Nat.min 2 n) /\
     n_block k = user_len sizes "block" kernel_id (Nat.min 3 n) /\
     n_grid k <= 2 /\ n_block k <= 3 /\
     (2 <= n_outer_coincidence band ->
      (forall vals, extract_sizes sizes "tile" kernel_id = Some vals ->
                    2 <= length vals) ->
      (forall vals, extract_sizes sizes "grid" kernel_id = Some vals ->
                    2 <= length vals) ->
      n_grid k = 2)) /\
  (exists k sizes',
     mark_outer_permutable tile_size kernel kernel_id sizes tree_leaf dom
     = Some (k, sizes') /\
     tile_len k = 0 /\ n_parallel k = 0 /\ n_grid k = 0 /\ n_block k = 0).
Proof.
  assert (Hmark : forall node,
    exists k sizes',
      (let tile_len := user_len sizes "tile" kernel_id (band_n_member node) in
       node ← Some node;
       let '(tile_size, tile_len) :=
         read_tile_sizes tile_size sizes kernel_id (band_n_member node) in
       let node :=
         if decide (tile_len < band_n_member node)
         then isl_schedule_node_band_split node tile_len
         else node in
       let tiles_sizes := construct_band_tiles_sizes node tile_size in
       let '(node, node_thread) := tile_band node tiles_sizes in
       let kernel :=
         create_kernel kernel kernel_id sizes node node_thread dom in
       Some (set_tile_len kernel tile_len, tile_size)) = Some (k, sizes') /\
      let n := user_len sizes "tile" kernel_id (n_outer_coincidence node) in
      tile_len k = user_len sizes "tile" kernel_id (band_n_member node) /\
      n_parallel k = n /\
      n_grid k = user_len sizes "grid" kernel_id (Nat.min 2 n) /\
      n_block k = user_len sizes "block" kernel_id (Nat.min 3 n)).
  { intros node. cbn [mbind option_bind].
    pose proof (read_tile_sizes_len tile_size sizes kernel_id
                  (band_n_member node)) as Hlen.
    destruct (read_tile_sizes tile_size sizes kernel_id (band_n_member node))
      as [ts tl]. cbn [snd] in Hlen. subst tl.
    set (tl := user_len sizes "tile" kernel_id (band_n_member node)).
    set (split := if decide (tl < band_n_member node)
                  then isl_schedule_node_band_split node tl else node).
    assert (Hflags : n_outer_coincidence split
                     = user_len sizes "tile" kernel_id
                         (n_outer_coincidence node)).
    { pose proof (count_outer_length (coincident node)) as Hle.
      unfold n_outer_coincidence, split, tl, user_len, band_n_member in *.
      destruct (extract_sizes sizes "tile" kernel_id) as [vals|].
      - case_decide.
        + cbn [isl_schedule_node_band_split coincident].
          rewrite count_outer_take. lia.
        + lia.
      - rewrite decide_False by lia. done. }
    cbn [tile_band].
    eexists _, _. split; [reflexivity|]. cbv zeta.
    match goal with
    | |- context [create_kernel kernel kernel_id sizes ?a ?b dom] =>
        destruct (create_kernel_dims kernel kernel_id sizes a b dom)
          as (Hg & Hb & _);
        assert (Hp : n_parallel (create_kernel kernel kernel_id sizes a b dom)
                     = n_outer_coincidence a)
          by (unfold create_kernel, read_grid_and_block_sizes,
                read_grid_sizes, read_block_sizes;
              repeat match goal with
                     | |- context [read_sizes_from_set ?s ?d ?n] =>
                         destruct (read_sizes_from_set s d n)
                     end; done)
    end.
    cbn [set_tile_len tile_len n_parallel n_grid n_block].
    change (n_outer_coincidence {| partial_schedule := _;
                                   coincident := coincident split |})
      with (n_outer_coincidence split) in *.
    rewrite Hflags in *.
    split; [done|]. split; [exact Hp|]. split.
    - rewrite Hg. unfold user_len. done.
    - rewrite Hb. unfold user_len. done. }
  split.
  - destruct (Hmark band) as (k & sizes' & Hres & Htl & Hp & Hg & Hb).
    exists k, sizes'. split; [exact Hres|]. cbv zeta.
    split; [done|]. split; [done|]. split; [done|]. split; [done|].
    split; [rewrite Hg; unfold user_len;
            destruct (extract_sizes sizes "grid" kernel_id); lia|].
    split; [rewrite Hb; unfold user_len;
            destruct (extract_sizes sizes "block" kernel_id); lia|].
    intros Hn Htile Hgrid. rewrite Hg. unfold user_len.
    destruct (extract_sizes sizes "tile" kernel_id) as [tvals|];
      [pose proof (Htile tvals eq_refl)|];
      (destruct (extract_sizes sizes "grid" kernel_id) as [gvals|];
       [pose proof (Hgrid gvals eq_refl)|]); lia.
  - destruct (Hmark insert_empty_permutable_band)
      as (k & sizes' & Hres & Htl & Hp & Hg & Hb).
    exists k, sizes'. split; [exact Hres|].
    rewrite Htl, Hp, Hg, Hb. unfold user_len.
    cbn [insert_empty_permutable_band band_n_member n_outer_coincidence
         coincident count_outer length].
    destruct (extract_sizes sizes "tile" kernel_id),
             (extract_sizes sizes "grid" kernel_id),
             (extract_sizes sizes "block" kernel_id); lia.
Qed.

(** C4, counterexample.  A selected band with three outer coincident
    members and no user-specified sizes gets two grid dimensions, not
    three. *)
Lemma mark_outer_permutable_three_coincident :
  let band := {| partial_schedule := fun x => x.2;
                 coincident := [true; true; true] |} in
  3 <= n_outer_coincidence band /\
  exists k sizes',
    mark_outer_permutable 32 ppcg_kernel_calloc 0 None
      (tree_band band true tree_leaf) [] = Some (k, sizes') /\
    n_grid k = 2 /\ n_grid k <> 3 /\ n_block k = 3.
Proof.
  intros band. split; [vm_compute; lia|].
  eexists _, _. split; [reflexivity|].
  split; [reflexivity|]. split; [discriminate|reflexivity].
Qed.

(** With a single tile size from the user, a band with three outer
    coincident members gets one grid dimension and one block
    dimension. *)
Lemma mark_outer_permutable_one_tile_size :
  let band := {| partial_schedule := fun x => x.2;
                 coincident := [true; true; true] |} in
  let sizes : sizes_map := {[ (0, "tile") := [32%Z] ]} in
  exists k sizes',
    mark_outer_permutable 32 ppcg_kernel_calloc 0 (Some sizes)
      (tree_band band true tree_leaf) [] = Some (k, sizes') /\
    tile_len k = 1 /\ n_grid k = 1 /\ n_block k = 1.
Proof.
  intros band sizes.
  eexists _, _. split; [reflexivity|]. vm_compute. done.
Qed.

(** ** Shared-memory budget *)

Section shared_memory.
Implicit Types (group g : gpu_array_ref_group) (left e : Z).
Implicit Types (l : list (Z * gpu_array_ref_group)).

Lemma map_accum_app {A B S} (f : S -> A -> S * B) s (l1 l2 : list A) :
  map_accum f s (l1 ++ l2) =
  let '(s1, r1) := map_accum f s l1 in
  let '(s2, r2) := map_accum f s1 l2 in
  (s2, r1 ++ r2).
Proof.
  revert s. induction l1 as [|a l1 IH]; intros s; simpl.
  - by destruct (map_accum f s l2).
  - destruct (f s a) as [s1 b]. rewrite IH.
    destruct (map_accum f s1 l1) as [s2 r1].
    by destruct (map_accum f s2 l2).
Qed.

Lemma map_accum_length {A B S} (f : S -> A -> S * B) s (l : list A) :
  length (map_accum f s l).2 = length l.
Proof.
  revert s. induction l as [|a l IH]; intros s; simpl; [done|].
  destruct (f s a) as [s1 b]. specialize (IH s1).
  destruct (map_accum f s1 l). simpl in *. lia.
Qed.

(** The loop over the groups of one array, on the sized groups. *)
Lemma check_groups_sized e left (gs : list gpu_array_ref_group) :
  map_accum check_sized_group left (map (pair e) gs) =
  let '(left', gs') := map_accum (check_group e) left gs in
  (left', map (pair e) gs').
Proof.
  revert left. induction gs as [|g gs IH]; intros left; simpl; [done|].
  unfold check_sized_group at 1. simpl.
  destruct (check_group e left g) as [l1 g'].
  rewrite IH. by destruct (map_accum (check_group e) l1 gs).
Qed.

(** The two nested loops visit the sized groups in order. *)
Lemma check_arrays_sized left (arrays : list gpu_local_array_info) :
  map_accum check_sized_group left
    (concat (map (fun local => map (pair (array_size local)) (groups local))
                 arrays)) =
  let '(left', arrays') := map_accum check_local_array left arrays in
  (left', concat (map (fun local => map (pair (array_size local))
                                        (groups local)) arrays')).
Proof.
  revert left. induction arrays as [|a arrays IH]; intros left; simpl; [done|].
  rewrite map_accum_app, check_groups_sized.
  unfold check_local_array.
  destruct (map_accum (check_group (array_size a)) left (groups a))
    as [l1 gs'].
  rewrite IH.
  by destruct (map_accum _ l1 arrays).
Qed.

Lemma sized_groups_check kernel :
  (0 <= max_shared_memory kernel)%Z ->
  sized_groups (check_shared_memory_bound kernel) =
  (map_accum check_sized_group (max_shared_memory kernel)
     (sized_groups kernel)).2.
Proof.
  intros Hb. unfold check_shared_memory_bound, sized_groups.
  rewrite decide_False by lia.
  rewrite check_arrays_sized.
  by destruct (map_accum check_local_array _ _).
Qed.

(** What is left of the budget never becomes negative, and the kept
    groups account for what has been taken from it. *)
Lemma check_sized_groups_left left l :
  (0 <= left)%Z ->
  let '(left', l') := map_accum check_sized_group left l in
  (0 <= left')%Z /\ total_footprint in_shared l' = (left - left')%Z.
Proof.
  revert left. induction l as [|[e g] l IH]; intros left Hl; simpl.
  - split; [done | lia].
  - unfold check_sized_group at 1, check_group. simpl.
    destruct (private_tile g) as [pt|] eqn:Hp; simpl.
    + specialize (IH left Hl).
      destruct (map_accum check_sized_group left l) as [l2 r]. simpl.
      unfold in_shared at 1. simpl. rewrite Hp. done.
    + destruct (shared_tile g) as [st|] eqn:Hs; simpl.
      * case_decide as Hle; simpl.
        -- specialize (IH (left - gpu_array_tile_size st * e)%Z
                          ltac:(lia)).
           destruct (map_accum check_sized_group _ l) as [l2 r]. simpl.
           unfold in_shared at 1, footprint at 1. simpl.
           rewrite Hp, Hs. lia.
        -- specialize (IH left Hl).
           destruct (map_accum check_sized_group left l) as [l2 r]. simpl.
           unfold in_shared at 1. simpl. rewrite Hp. done.
      * specialize (IH left Hl).
        destruct (map_accum check_sized_group left l) as [l2 r]. simpl.
        unfold in_shared at 1. simpl. rewrite Hp, Hs. done.
Qed.

(** The decision on one group. *)
Lemma check_group_decision e left g :
  (check_group e left g).2 =
    (if in_shared g then
       if decide (footprint e g <= left)%Z then g
       else set_shared_tile g None
     else g).
Proof.
  unfold check_group, in_shared, footprint.
  destruct (private_tile g); [done|].
  destruct (shared_tile g); [|done].
  by case_decide.
Qed.

Lemma check_group_private e left g :
  private_tile g <> None -> check_group e left g = (left, g).
Proof.
  unfold check_group. by destruct (private_tile g).
Qed.

Lemma check_sized_group_private e left g :
  private_tile g <> None ->
  check_sized_group left (e, g) = (left, (e, g)).
Proof.
  intros Hp. unfold check_sized_group. cbn [fst snd].
  by rewrite check_group_private.
Qed.
End shared_memory.

(** C5.  For a finite budget, after [check_shared_memory_bound] the
    footprints of the groups that are still mapped to shared memory
    sum to at most the budget.  A group is mapped to shared memory
    when it holds a shared tile and no private tile: a group that
    holds a private tile is mapped to private memory and takes no
    shared memory.  The groups are visited in encounter order, and a
    group mapped to shared memory loses its shared tile exactly when
    its footprint exceeds what the earlier kept groups leave of the
    budget; every other group is left as it is. *)
Theorem check_shared_memory_bound_budget kernel :
  (0 <= max_shared_memory kernel)%Z ->
  let kernel' := check_shared_memory_bound kernel in
  (total_footprint in_shared (sized_groups kernel')
     <= max_shared_memory kernel)%Z /\
  forall pre e g post,
    sized_groups kernel = pre ++ (e, g) :: post ->
    exists pre' g' post',
      sized_groups kernel' = pre' ++ (e, g') :: post' /\
      length pre' = length pre /\
      let left := (max_shared_memory kernel
                   - total_footprint in_shared pre')%Z in
      g' = (if in_shared g then
              if decide (footprint e g <= left)%Z then g
              else set_shared_tile g None
            else g).
Proof.
  intros Hb kernel'. subst kernel'.
  rewrite sized_groups_check by done.
  split.
  - pose proof (check_sized_groups_left (max_shared_memory kernel)
                  (sized_groups kernel) Hb) as H.
    destruct (map_accum check_sized_group _ _) as [l' r]. simpl. lia.
  - intros pre e g post ->.
    rewrite map_accum_app.
    pose proof (check_sized_groups_left (max_shared_memory kernel) pre Hb)
      as Hpre.
    pose proof (map_accum_length check_sized_group
                  (max_shared_memory kernel) pre) as Hlen.
    destruct (map_accum check_sized_group (max_shared_memory kernel) pre)
      as [l1 pre']. simpl in Hlen. destruct Hpre as [Hl1 Htot].
    simpl. unfold check_sized_group at 1. simpl.
    pose proof (check_group_decision e l1 g) as Hdec.
    destruct (check_group e l1 g) as [l2 g']. simpl in Hdec.
    destruct (map_accum check_sized_group l2 post) as [l3 post'].
    exists pre', g', post'. simpl.
    split; [done|]. split; [done|].
    rewrite Htot.
    replace (max_shared_memory kernel - (max_shared_memory kernel - l1))%Z
      with l1 by lia.
    done.
Qed.

Lemma check_shared_memory_bound_budget_witness :
  let a := {| group_name := "A"; private_tile := None;
              shared_tile := Some (GpuArrayTile [8; 8]%Z);
              last_shared := 0; copy_in := true; copy_out := true;
              private_pieces := [] |} in
  let b := {| group_name := "B"; private_tile := None;
              shared_tile := Some (GpuArrayTile [16; 8]%Z);
              last_shared := 0; copy_in := true; copy_out := true;
              private_pieces := [] |} in
  let c := {| group_name := "C"; private_tile := None;
              shared_tile := Some (GpuArrayTile [4; 8]%Z);
              last_shared := 0; copy_in := true; copy_out := true;
              private_pieces := [] |} in
  let kernel :=
    {| k_id := 0; tile_len := 0; n_parallel := 0; n_grid := 0; n_block := 0;
       grid_dim := [0; 0]%Z; block_dim := [0; 0; 0]%Z;
       array := [{| array_size := 4; groups := [a; b];
                    force_private := false |};
                 {| array_size := 4; groups := [c];
                    force_private := false |}];
       any_force_private := false; max_shared_memory := 600%Z;
       block_filter := fun _ => []; grid_size := [] |} in
  let kernel' := check_shared_memory_bound kernel in
  (total_footprint in_shared (sized_groups kernel') <= 600)%Z /\
  sized_groups kernel' !! 1 = Some (4%Z, set_shared_tile b None) /\
  sized_groups kernel' !! 2 = Some (4%Z, c).
Proof.
  intros a b c kernel kernel'.
  assert (Hb : (0 <= max_shared_memory kernel)%Z) by (vm_compute; discriminate).
  destruct (check_shared_memory_bound_budget kernel Hb) as [Hsum Hgroups].
  split; [exact Hsum|].
  assert (Hlook : forall pre e g post,
    sized_groups kernel = pre ++ (e, g) :: post ->
    exists pre',
      length pre' = length pre /\
      take (length pre) (sized_groups kernel') = pre' /\
      sized_groups kernel' !! length pre
      = Some (e, if in_shared g then
                   if decide (footprint e g
                              <= max_shared_memory kernel
                                 - total_footprint in_shared pre')%Z
                   then g else set_shared_tile g None
                 else g)).
  { intros pre e g post Hk.
    destruct (Hgroups pre e g post Hk)
      as (pre' & g' & post' & Heq & Hlen & Hg).
    exists pre'. split; [exact Hlen|].
    fold kernel' in Heq. rewrite Heq, <- Hlen. split.
    - by rewrite take_app_length.
    - rewrite list_lookup_middle by done. by rewrite Hg. }
  split.
  - destruct (Hlook [(4%Z, a)] 4%Z b [(4%Z, c)] eq_refl)
      as (pre' & _ & Hpre & Hat).
    rewrite <- Hpre in Hat. exact Hat.
  - destruct (Hlook [(4%Z, a); (4%Z, b)] 4%Z c [] eq_refl)
      as (pre' & _ & Hpre & Hat).
    rewrite <- Hpre in Hat. exact Hat.
Defined.

(** C10.  The budget pass never touches a group that holds a private
    tile: such a group comes out unchanged (with its shared tile, if it
    has one), and what is left of the budget for the groups after it is
    what was left before it, so that the groups before and after it
    are treated as if it were not there. *)
Theorem check_shared_memory_bound_skips_private kernel pre e g post :
  sized_groups kernel = pre ++ (e, g) :: post ->
  private_tile g <> None ->
  (0 <= max_shared_memory kernel)%Z ->
  let '(left', pre') :=
    map_accum check_sized_group (max_shared_memory kernel) pre in
  let '(_, post') := map_accum check_sized_group left' post in
  sized_groups (check_shared_memory_bound kernel) = pre' ++ (e, g) :: post'.
Proof.
  intros Hk Hp Hb.
  rewrite sized_groups_check, Hk, map_accum_app by done.
  destruct (map_accum check_sized_group (max_shared_memory kernel) pre)
    as [l1 pre'].
  cbn [map_accum]. rewrite check_sized_group_private by done.
  by destruct (map_accum check_sized_group l1 post) as [l3 post'].
Qed.

Lemma check_shared_memory_bound_skips_private_witness :
  let a := {| group_name := "A"; private_tile := None;
              shared_tile := Some (GpuArrayTile [8; 8]%Z);
              last_shared := 0; copy_in := true; copy_out := true;
              private_pieces := [] |} in
  let p := {| group_name := "P"; private_tile := Some (GpuArrayTile [1]%Z);
              shared_tile := Some (GpuArrayTile [16; 16]%Z);
              last_shared := 0; copy_in := true; copy_out := true;
              private_pieces := [] |} in
  let kernel :=
    {| k_id := 0; tile_len := 0; n_parallel := 0; n_grid := 0; n_block := 0;
       grid_dim := [0; 0]%Z; block_dim := [0; 0; 0]%Z;
       array := [{| array_size := 4; groups := [a; p; a];
                    force_private := false |}];
       any_force_private := false; max_shared_memory := 600%Z;
       block_filter := fun _ => []; grid_size := [] |} in
  sized_groups (check_shared_memory_bound kernel) =
  [(4%Z, a); (4%Z, p); (4%Z, a)].
Proof.
  intros a p kernel.
  refine (check_shared_memory_bound_skips_private kernel
            [(4%Z, a)] 4%Z p [(4%Z, a)] _ _ _).
  - reflexivity.
  - discriminate.
  - vm_compute. discriminate.
Defined.

(** ** Basic maps *)

Section basic_maps.
Local Open Scope Z_scope.
Implicit Types (c x y d : list Z) (i j k p : nat) (v : Z).

Lemma dot_nil_r c : dot c [] = 0.
Proof. by destruct c. Qed.

Lemma dot_replicate_0 n x : dot (replicate n 0) x = 0.
Proof.
  revert x. induction n as [|n IH]; intros [|b x]; simpl; try done.
  rewrite IH. lia.
Qed.

Lemma dot_insert c x i v :
  (i < length c)%nat -> (i < length x)%nat ->
  dot (<[i := v]> c) x = dot c x + (v - c !!! i) * (x !!! i).
Proof.
  revert x i. induction c as [|a c IH]; intros [|b x] [|i] Hc Hx;
    simpl in *; try lia.
  rewrite IH by lia.
  change ((a :: c) !!! S i) with (c !!! i).
  change ((b :: x) !!! S i) with (x !!! i). lia.
Qed.

Lemma dot_app c1 c2 x1 x2 :
  length c1 = length x1 ->
  dot (c1 ++ c2) (x1 ++ x2) = dot c1 x1 + dot c2 x2.
Proof.
  revert x1. induction c1 as [|a c1 IH]; intros [|b x1] Hl;
    simpl in *; try lia.
  rewrite IH by lia. lia.
Qed.

(** The value of a row with one, two or three coefficients set. *)
Lemma dot_single n x i v :
  (i < n)%nat -> length x = n ->
  dot (<[i := v]> (replicate n 0)) x = v * x !!! i.
Proof.
  intros Hi Hx. rewrite dot_insert, dot_replicate_0
    by (rewrite ?length_replicate; lia).
  rewrite lookup_total_replicate_2 by lia. lia.
Qed.

Lemma dot_double n x i j v w :
  (i < n)%nat -> (j < n)%nat -> i <> j -> length x = n ->
  dot (<[j := w]> (<[i := v]> (replicate n 0))) x
  = v * x !!! i + w * x !!! j.
Proof.
  intros Hi Hj Hij Hx.
  rewrite dot_insert by (rewrite ?length_insert, ?length_replicate; lia).
  rewrite dot_single by done.
  rewrite list_lookup_total_insert_ne by done.
  rewrite lookup_total_replicate_2 by lia. lia.
Qed.

Lemma dot_triple n x i j k u v w :
  (i < n)%nat -> (j < n)%nat -> (k < n)%nat ->
  i <> j -> i <> k -> j <> k -> length x = n ->
  dot (<[k := w]> (<[j := v]> (<[i := u]> (replicate n 0)))) x
  = u * x !!! i + v * x !!! j + w * x !!! k.
Proof.
  intros Hi Hj Hk Hij Hik Hjk Hx.
  rewrite dot_insert by (rewrite ?length_insert, ?length_replicate; lia).
  rewrite dot_double by done.
  rewrite !list_lookup_total_insert_ne by done.
  rewrite lookup_total_replicate_2 by lia. lia.
Qed.

Lemma copy_row_holds n_in n_out j k x y d :
  (j < n_in)%nat -> (k < n_out)%nat ->
  length x = n_in -> length y = n_out ->
  constraint_holds (copy_row n_in n_out j k) x y d = true <->
  y !!! k = x !!! j.
Proof.
  intros Hj Hk Hx Hy.
  unfold constraint_holds, constraint_value, copy_row. simpl.
  rewrite !dot_single by done.
  rewrite bool_decide_eq_true. lia.
Qed.

Lemma lower_row_holds n_in n_out p x y d :
  (p < n_out)%nat -> length y = n_out ->
  constraint_holds (lower_row n_in n_out p) x y d = true <->
  0 <= y !!! p.
Proof.
  intros Hp Hy.
  unfold constraint_holds, constraint_value, lower_row. simpl.
  rewrite dot_single, dot_replicate_0 by done.
  rewrite bool_decide_eq_true. lia.
Qed.

Lemma upper_row_holds n_in n_out p size x y d :
  (p < n_out)%nat -> length y = n_out ->
  constraint_holds (upper_row n_in n_out p size) x y d = true <->
  y !!! p <= size - 1.
Proof.
  intros Hp Hy.
  unfold constraint_holds, constraint_value, upper_row. simpl.
  rewrite dot_single, dot_replicate_0 by done.
  rewrite bool_decide_eq_true. lia.
Qed.

(** Adding the rows of the iterations of a loop. *)
Lemma bmap_extend_nil bmap : bmap_extend bmap [] = bmap.
Proof. destruct bmap. unfold bmap_extend. simpl. by rewrite app_nil_r. Qed.

Lemma bmap_extend_app bmap cs1 cs2 :
  bmap_extend (bmap_extend bmap cs1) cs2 = bmap_extend bmap (cs1 ++ cs2).
Proof. unfold bmap_extend. simpl. by rewrite app_assoc. Qed.

Lemma foldl_add_rows (step : option isl_basic_map -> nat -> option isl_basic_map)
    (rows : nat -> list isl_constraint) (l : list nat) bmap :
  (forall b i, i ∈ l -> step (Some b) i = Some (bmap_extend b (rows i))) ->
  foldl step (Some bmap) l = Some (bmap_extend bmap (concat (map rows l))).
Proof.
  revert bmap. induction l as [|i l IH]; intros bmap Hstep; simpl.
  - by rewrite bmap_extend_nil.
  - rewrite Hstep by apply list_elem_of_here.
    rewrite IH, bmap_extend_app; [done|].
    intros b i' Hi'. apply Hstep. by apply list_elem_of_further.
Qed.

Lemma bmap_holds_extend bmap cs x y d :
  bmap_holds (bmap_extend bmap cs) x y d = true <->
  bmap_holds bmap x y d = true /\
  Forall (fun row => constraint_holds row x y d = true) cs.
Proof.
  unfold bmap_holds, bmap_extend. simpl.
  rewrite forallb_app, !andb_true_iff.
  rewrite (forallb_forall _ cs), Forall_forall.
  setoid_rewrite <- list_elem_of_In. tauto.
Qed.
End basic_maps.

(** ** Tiling and wrapping maps *)

Section tiling.
Local Open Scope Z_scope.
Implicit Types (x y s : list Z) (len first tile_len wrap_len i : nat).

Lemma set_coefficient_in (c : isl_constraint) pos v :
  (pos < length (c_in c))%nat ->
  isl_constraint_set_coefficient_si (Some c) isl_dim_in pos v =
  Some {| c_eq := c_eq c; c_in := <[pos := v]> (c_in c);
          c_out := c_out c; c_div := c_div c; c_const := c_const c |}.
Proof.
  intros H. unfold isl_constraint_set_coefficient_si. simpl.
  by rewrite decide_True.
Qed.

Lemma set_coefficient_out (c : isl_constraint) pos v :
  (pos < length (c_out c))%nat ->
  isl_constraint_set_coefficient_si (Some c) isl_dim_out pos v =
  Some {| c_eq := c_eq c; c_in := c_in c;
          c_out := <[pos := v]> (c_out c);
          c_div := c_div c; c_const := c_const c |}.
Proof.
  intros H. unfold isl_constraint_set_coefficient_si. simpl.
  by rewrite decide_True.
Qed.

(** Normalises the construction of one row. *)
Local Ltac in_range :=
  cbn [c_in c_out]; rewrite ?length_insert, ?length_replicate;
  repeat case_decide; lia.

Local Ltac build_row :=
  unfold isl_equality_alloc, isl_inequality_alloc, constraint_alloc;
  cbn [space_n_in space_n_out];
  repeat first
    [ rewrite set_coefficient_in by in_range
    | rewrite set_coefficient_out by in_range ];
  cbn [isl_constraint_set_constant_si isl_basic_map_add_constraint
       mbind option_bind c_in c_out c_eq c_div c_const].

Lemma tile_shape nparam len first tile_len tile_size :
  (first + tile_len <= len)%nat ->
  tile (isl_space_params_alloc nparam) len first tile_len tile_size =
  Some (bmap_extend
          (bmap_extend
             {| bmap_n_in := len; bmap_n_out := len + tile_len;
                bmap_n_div := 0; bmap_constraints := [] |}
             (concat (map (fun i => [tile_copy_row len (len + tile_len)
                                       first tile_len i])
                          (seq 0 (len - tile_len)))))
          (concat (map (tile_split_rows len (len + tile_len)
                          first tile_len tile_size)
                       (seq 0 tile_len)))).
Proof.
  intros Hlen. unfold tile, isl_basic_map_universe.
  cbn [isl_space_add_dims isl_space_params_alloc space_n_in space_n_out
       space_n_param Nat.add].
  erewrite (foldl_add_rows _ (fun i => [tile_copy_row len (len + tile_len)
                                          first tile_len i])).
  2:{ intros b i Hi. apply elem_of_seq in Hi.
      build_row. done. }
  erewrite (foldl_add_rows _ (tile_split_rows len (len + tile_len)
                                first tile_len tile_size)); [done|].
  intros b i Hi. apply elem_of_seq in Hi.
  build_row. unfold bmap_extend, tile_split_rows. cbn.
  by rewrite <- !app_assoc.
Qed.

Lemma wrap_shape nparam len first wrap_len wrap_size :
  (first + wrap_len <= len)%nat ->
  wrap (isl_space_params_alloc nparam) len first wrap_len wrap_size =
  isl_basic_map_project_out
    (Some (bmap_extend
       (bmap_extend
          {| bmap_n_in := len; bmap_n_out := len + 2 * wrap_len;
             bmap_n_div := 0; bmap_constraints := [] |}
          (concat (map (fun i => [wrap_copy_row len (len + 2 * wrap_len)
                                    first wrap_len i])
                       (seq 0 len))))
       (concat (map (wrap_split_rows len (len + 2 * wrap_len)
                       first wrap_len wrap_size)
                    (seq 0 wrap_len)))))
    isl_dim_out (first + 2 * wrap_len) wrap_len.
Proof.
  intros Hlen. unfold wrap, isl_basic_map_universe.
  cbn [isl_space_add_dims isl_space_params_alloc space_n_in space_n_out
       space_n_param Nat.add].
  erewrite (foldl_add_rows _ (fun i => [wrap_copy_row len (len + 2 * wrap_len)
                                          first wrap_len i])).
  2:{ intros b i Hi. apply elem_of_seq in Hi.
      build_row. done. }
  erewrite (foldl_add_rows _ (wrap_split_rows len (len + 2 * wrap_len)
                                first wrap_len wrap_size)); [done|].
  intros b i Hi. apply elem_of_seq in Hi.
  build_row. unfold bmap_extend, wrap_split_rows. cbn.
  by rewrite <- !app_assoc.
Qed.

Lemma Forall_concat_map_seq {A} (P : A -> Prop) (f : nat -> list A) n :
  Forall P (concat (map f (seq 0 n))) <->
  forall i, (i < n)%nat -> Forall P (f i).
Proof.
  rewrite Forall_concat, Forall_forall.
  split.
  - intros H i Hi. apply H, list_elem_of_fmap.
    exists i. split; [done|]. apply elem_of_seq. lia.
  - intros H l Hl. apply list_elem_of_fmap in Hl as (i & -> & Hi).
    apply elem_of_seq in Hi. apply H. lia.
Qed.

Lemma zip_with_lookup_total (f : Z -> Z -> Z) (l k : list Z) i :
  (i < length l)%nat -> (i < length k)%nat ->
  zip_with f l k !!! i = f (l !!! i) (k !!! i).
Proof.
  intros Hl Hk. apply list_lookup_total_correct.
  rewrite lookup_zip_with.
  rewrite (list_lookup_lookup_total_lt l i Hl).
  by rewrite (list_lookup_lookup_total_lt k i Hk).
Qed.

Lemma tile_rel nparam len first tile_len tile_size :
  (first + tile_len <= len)%nat ->
  exists bmap,
    tile (isl_space_params_alloc nparam) len first tile_len tile_size
    = Some bmap /\
    forall x y, bmap_rel bmap x y <->
                tile_spec len first tile_len tile_size x y.
Proof.
  intros Hlen. eexists. split; [by apply tile_shape|].
  intros x y. unfold bmap_rel, tile_spec.
  setoid_rewrite bmap_holds_extend.
  setoid_rewrite bmap_holds_extend.
  setoid_rewrite Forall_concat_map_seq.
  unfold bmap_holds at 1. cbn [bmap_n_in bmap_n_out bmap_n_div
    bmap_constraints forallb].
  setoid_rewrite andb_true_r.
  setoid_rewrite andb_true_iff. setoid_rewrite andb_true_iff.
  setoid_rewrite bool_decide_eq_true.
  split.
  - intros (d & (((Hx & Hy) & Hd) & Hcopy) & Hsplit).
    split; [done|]. split; [done|]. split.
    + intros i Hi. specialize (Hcopy i Hi).
      rewrite Forall_singleton in Hcopy.
      unfold tile_copy_row in Hcopy.
      apply copy_row_holds in Hcopy; [done| | |done|done];
        case_decide; lia.
    + intros i Hi. specialize (Hsplit i Hi).
      unfold tile_split_rows in Hsplit.
      rewrite !Forall_cons in Hsplit.
      destruct Hsplit as (H1 & H2 & H3 & _).
      apply lower_row_holds in H2; [|lia|done].
      apply upper_row_holds in H3; [|lia|done].
      split; [|lia].
      unfold constraint_holds, constraint_value in H1. cbn in H1.
      rewrite dot_single, dot_double in H1 by (done || lia).
      apply bool_decide_eq_true in H1. lia.
  - intros (Hx & Hy & Hcopy & Hsplit).
    exists []. split; [split; [done|]|].
    + intros i Hi. rewrite Forall_singleton. unfold tile_copy_row.
      apply copy_row_holds; [| |done|done|by apply Hcopy];
        case_decide; lia.
    + intros i Hi. destruct (Hsplit i Hi) as [H1 H2].
      unfold tile_split_rows.
      rewrite !Forall_cons. split_and!; [| | |by apply Forall_nil].
      * unfold constraint_holds, constraint_value. cbn.
        rewrite dot_single, dot_double by (done || lia).
        apply bool_decide_eq_true. lia.
      * apply lower_row_holds; [lia|done|lia].
      * apply upper_row_holds; [lia|done|lia].
Qed.

(** The coordinates of [tile_point]. *)
Lemma tile_point_coords len first tile_len tile_size s :
  (first + tile_len <= len)%nat -> length s = len ->
  length tile_size = tile_len ->
  length (tile_point first tile_len tile_size s) = (len + tile_len)%nat /\
  (forall p, (p < first)%nat ->
     tile_point first tile_len tile_size s !!! p = s !!! p) /\
  (forall i, (i < tile_len)%nat ->
     tile_point first tile_len tile_size s !!! (first + i)%nat
     = s !!! (first + i)%nat `div` size_at tile_size i /\
     tile_point first tile_len tile_size s !!! (first + i + tile_len)%nat
     = s !!! (first + i)%nat `mod` size_at tile_size i) /\
  (forall p, (first + tile_len <= p < len)%nat ->
     tile_point first tile_len tile_size s !!! (p + tile_len)%nat
     = s !!! p).
Proof.
  intros Hlen Hs Hsz. unfold tile_point, size_at.
  assert (Ha : length (take first s) = first)
    by (rewrite length_take; lia).
  assert (Hm : length (take tile_len (drop first s)) = tile_len)
    by (rewrite length_take, length_drop; lia).
  assert (Hb : forall f : Z -> Z -> Z,
             length (zip_with f (take tile_len (drop first s))
                       tile_size) = tile_len)
    by (intros f; rewrite length_zip_with; lia).
  split_and!.
  - rewrite !length_app, Ha, !Hb, length_drop. lia.
  - intros p Hp. rewrite lookup_total_app_l by lia.
    by rewrite lookup_total_take_lt.
  - intros i Hi. split.
    + rewrite lookup_total_app_r by lia.
      rewrite lookup_total_app_l by (rewrite ?Ha, ?Hb; lia).
      rewrite Ha. replace (first + i - first)%nat with i by lia.
      rewrite zip_with_lookup_total by lia.
      rewrite lookup_total_take_lt, lookup_total_drop by lia. done.
    + rewrite lookup_total_app_r by lia.
      rewrite lookup_total_app_r by (rewrite ?Ha, ?Hb; lia).
      rewrite lookup_total_app_l by (rewrite ?Ha, ?Hb; lia).
      rewrite ?Ha, ?Hb.
      replace (first + i + tile_len - first - tile_len)%nat with i by lia.
      rewrite zip_with_lookup_total by lia.
      rewrite lookup_total_take_lt, lookup_total_drop by lia. done.
  - intros p Hp.
    rewrite lookup_total_app_r by lia.
    rewrite lookup_total_app_r by (rewrite ?Ha, ?Hb; lia).
    rewrite lookup_total_app_r by (rewrite ?Ha, ?Hb; lia).
    rewrite ?Ha, ?Hb, lookup_total_drop. f_equal. lia.
Qed.

Lemma tile_spec_point len first tile_len tile_size s :
  (first + tile_len <= len)%nat -> length s = len ->
  length tile_size = tile_len -> Forall (fun t => 0 < t) tile_size ->
  tile_spec len first tile_len tile_size s
    (tile_point first tile_len tile_size s).
Proof.
  intros Hlen Hs Hsz Hpos.
  destruct (tile_point_coords len first tile_len tile_size s Hlen Hs Hsz)
    as (Hl & Hpre & Hmid & Hpost).
  split; [done|]. split; [done|]. split.
  - intros i Hi. case_decide.
    + by apply Hpre.
    + replace (i + 2 * tile_len)%nat with (i + tile_len + tile_len)%nat
        by lia.
      apply Hpost. lia.
  - intros i Hi. destruct (Hmid i Hi) as [-> ->].
    assert (0 < size_at tile_size i) as Hp.
    { unfold size_at. rewrite Forall_forall in Hpos. apply Hpos.
      apply list_elem_of_lookup_total_2. lia. }
    pose proof (Z.div_mod (s !!! (first + i)%nat) (size_at tile_size i)).
    pose proof (Z.mod_pos_bound (s !!! (first + i)%nat)
                  (size_at tile_size i) Hp).
    lia.
Qed.

Lemma tile_spec_unique len first tile_len tile_size s y :
  (first + tile_len <= len)%nat ->
  length tile_size = tile_len -> Forall (fun t => 0 < t) tile_size ->
  tile_spec len first tile_len tile_size s y ->
  y = tile_point first tile_len tile_size s.
Proof.
  intros Hlen Hsz Hpos (Hs & Hy & Hcopy & Hsplit).
  destruct (tile_point_coords len first tile_len tile_size s Hlen Hs Hsz)
    as (Hl & Hpre & Hmid & Hpost).
  apply (list_eq_same_length _ _ (len + tile_len)%nat); [done|done|].
  intros p a b Hp Ha Hb.
  apply list_lookup_total_correct in Ha, Hb. subst a b.
  destruct (decide (p < first)%nat) as [H1|H1].
  { specialize (Hcopy p ltac:(lia)). rewrite !decide_True in Hcopy by done.
    rewrite Hcopy. symmetry. by apply Hpre. }
  destruct (decide (p < first + tile_len)%nat) as [H2|H2].
  { destruct (Hsplit (p - first)%nat ltac:(lia)) as [E B].
    destruct (Hmid (p - first)%nat ltac:(lia)) as [E1 _].
    replace (first + (p - first))%nat with p in * by lia.
    rewrite E1.
    apply (Z.div_unique _ _ _ (y !!! (p + tile_len)%nat)); lia. }
  destruct (decide (p < first + 2 * tile_len)%nat) as [H3|H3].
  { destruct (Hsplit (p - first - tile_len)%nat ltac:(lia)) as [E B].
    destruct (Hmid (p - first - tile_len)%nat ltac:(lia)) as [_ E2].
    replace (first + (p - first - tile_len) + tile_len)%nat with p in *
      by lia.
    rewrite E2.
    apply (Z.mod_unique _ _
             (y !!! (first + (p - first - tile_len))%nat)); lia. }
  specialize (Hcopy (p - 2 * tile_len)%nat ltac:(lia)).
  rewrite !decide_False in Hcopy by lia.
  replace (p - 2 * tile_len + 2 * tile_len)%nat with p in Hcopy by lia.
  rewrite Hcopy.
  specialize (Hpost (p - 2 * tile_len + tile_len)%nat ltac:(lia)).
  replace (p - 2 * tile_len + tile_len + tile_len)%nat with p in Hpost
    by lia.
  by rewrite Hpost.
Qed.

(** Projecting out output dimensions: the projected map holds with
    values [q] for the projected dimensions when the map holds with
    [q] put back in their place. *)
Lemma project_out_constraint_holds (c : isl_constraint) f n x y q :
  c_div c = [] -> length (c_out c) = (length y + n)%nat ->
  (f <= length y)%nat -> length q = n ->
  constraint_holds (project_out_constraint f n c) x y q =
  constraint_holds c x (take f y ++ q ++ drop f y) [].
Proof.
  intros Hdiv Hout Hf Hq.
  unfold constraint_holds, constraint_value, project_out_constraint.
  cbn [c_eq c_in c_out c_div c_const]. rewrite Hdiv, dot_nil_r.
  cbn [app].
  assert (dot (take f (c_out c) ++ drop (f + n) (c_out c)) y
          + dot (take n (drop f (c_out c))) q
          = dot (c_out c) (take f y ++ q ++ drop f y)) as E.
  { rewrite <- (take_drop f y) at 1.
    rewrite <- (take_drop f (c_out c)) at 4.
    rewrite <- (take_drop n (drop f (c_out c))) at 2.
    rewrite drop_drop.
    rewrite !dot_app; [lia|..];
      rewrite ?length_take, ?length_drop; lia. }
  destruct (c_eq c); apply bool_decide_ext; lia.
Qed.

Lemma project_out_holds (bmap : isl_basic_map) f n :
  bmap_n_div bmap = 0%nat ->
  Forall (fun row => c_div row = [] /\
                     length (c_out row) = bmap_n_out bmap)
         (bmap_constraints bmap) ->
  (f + n <= bmap_n_out bmap)%nat ->
  exists bmap',
    isl_basic_map_project_out (Some bmap) isl_dim_out f n = Some bmap' /\
    (forall x y q,
       length q = n ->
       bmap_holds bmap x (take f y ++ q ++ drop f y) [] = true ->
       bmap_holds bmap' x y q = true) /\
    (forall x y q,
       bmap_holds bmap' x y q = true -> length x = bmap_n_in bmap).
Proof.
  intros Hdiv Hrows Hf.
  unfold isl_basic_map_project_out. cbn [mbind option_bind].
  rewrite decide_True by done. eexists. split; [done|].
  unfold bmap_holds. cbn [bmap_n_in bmap_n_out bmap_n_div bmap_constraints].
  rewrite Hdiv. split.
  - intros x y q Hq.
    rewrite !andb_true_iff, !bool_decide_eq_true.
    intros (((Hx & Hy) & _) & Hall).
    rewrite !length_app, length_take, length_drop in Hy.
    split_and!; [done|lia|done|].
    rewrite forallb_forall in Hall. apply forallb_forall.
    intros row' Hin. apply in_map_iff in Hin as (row & <- & Hin).
    rewrite Forall_forall in Hrows.
    destruct (Hrows row) as [Hd Ho]; [by apply list_elem_of_In|].
    rewrite project_out_constraint_holds; [by apply Hall|done|lia|lia|done].
  - intros x y q. rewrite !andb_true_iff, !bool_decide_eq_true. tauto.
Qed.

(** The image of a point under [wrap], with the quotients put back. *)
Lemma wrap_full_coords len first wrap_len wrap_size s :
  (first + wrap_len <= len)%nat -> length s = len ->
  length wrap_size = wrap_len ->
  let y := wrap_point first wrap_len wrap_size s in
  let q := zip_with Z.div (take wrap_len (drop first s)) wrap_size in
  let yfull := take (first + 2 * wrap_len) y ++ q
               ++ drop (first + 2 * wrap_len) y in
  length q = wrap_len /\
  length yfull = (len + 2 * wrap_len)%nat /\
  (forall p, (p < first + wrap_len)%nat -> yfull !!! p = s !!! p) /\
  (forall i, (i < wrap_len)%nat ->
     yfull !!! (first + wrap_len + i)%nat
     = s !!! (first + i)%nat `mod` size_at wrap_size i /\
     yfull !!! (first + 2 * wrap_len + i)%nat
     = s !!! (first + i)%nat `div` size_at wrap_size i) /\
  (forall p, (first + wrap_len <= p < len)%nat ->
     yfull !!! (p + 2 * wrap_len)%nat = s !!! p).
Proof.
  intros Hlen Hs Hsz y q yfull. unfold size_at.
  set (A := take (first + wrap_len) s).
  set (M := zip_with Z.modulo (take wrap_len (drop first s)) wrap_size).
  set (D := drop (first + wrap_len) s).
  assert (HA : length A = (first + wrap_len)%nat)
    by (unfold A; rewrite length_take; lia).
  assert (Hm : length (take wrap_len (drop first s)) = wrap_len)
    by (rewrite length_take, length_drop; lia).
  assert (HM : length M = wrap_len)
    by (unfold M; rewrite length_zip_with; lia).
  assert (Hq : length q = wrap_len)
    by (unfold q; rewrite length_zip_with; lia).
  assert (HD : length D = (len - (first + wrap_len))%nat)
    by (unfold D; rewrite length_drop; lia).
  assert (Hy : yfull = A ++ M ++ q ++ D).
  { unfold yfull, y, wrap_point. fold A M D.
    rewrite (app_assoc A M D).
    rewrite take_app_length', drop_app_length'
      by (rewrite length_app; lia).
    by rewrite <- app_assoc. }
  rewrite Hy. split_and!.
  - done.
  - rewrite !length_app. lia.
  - intros p Hp. rewrite lookup_total_app_l by lia.
    unfold A. by rewrite lookup_total_take_lt.
  - intros i Hi. split.
    + rewrite lookup_total_app_r by lia.
      rewrite lookup_total_app_l by lia.
      rewrite HA.
      replace (first + wrap_len + i - (first + wrap_len))%nat with i by lia.
      unfold M. rewrite zip_with_lookup_total by lia.
      by rewrite lookup_total_take_lt, lookup_total_drop by lia.
    + rewrite lookup_total_app_r by lia.
      rewrite lookup_total_app_r by lia.
      rewrite lookup_total_app_l by lia.
      rewrite HA, HM.
      replace (first + 2 * wrap_len + i - (first + wrap_len) - wrap_len)%nat
        with i by lia.
      unfold q. rewrite zip_with_lookup_total by lia.
      by rewrite lookup_total_take_lt, lookup_total_drop by lia.
  - intros p Hp.
    rewrite lookup_total_app_r by lia.
    rewrite lookup_total_app_r by lia.
    rewrite lookup_total_app_r by lia.
    rewrite HA, HM, Hq. unfold D. rewrite lookup_total_drop.
    f_equal. lia.
Qed.

(** [wrap] relates every point to its image, and only points of the
    input space. *)
Lemma wrap_rel nparam len first wrap_len wrap_size :
  (first + wrap_len <= len)%nat ->
  length wrap_size = wrap_len -> Forall (fun t => 0 < t) wrap_size ->
  exists bmap,
    wrap (isl_space_params_alloc nparam) len first wrap_len wrap_size
    = Some bmap /\
    (forall s, length s = len ->
       bmap_rel bmap s (wrap_point first wrap_len wrap_size s)) /\
    (forall x y, bmap_rel bmap x y -> length x = len).
Proof.
  intros Hlen Hsz Hpos. rewrite wrap_shape by done.
  match goal with
  | |- context [isl_basic_map_project_out (Some ?b) _ ?f ?n] =>
      destruct (project_out_holds b f n) as (bmap' & -> & Hin & Hdom)
  end.
  { done. }
  { cbn [bmap_extend bmap_constraints bmap_n_out app].
    rewrite Forall_app, !Forall_concat_map_seq. split.
    - intros i Hi. rewrite Forall_singleton.
      unfold wrap_copy_row, copy_row. cbn.
      by rewrite length_insert, length_replicate.
    - intros i Hi. unfold wrap_split_rows, lower_row, upper_row.
      rewrite !Forall_cons. cbn.
      rewrite !length_insert, !length_replicate.
      split_and!; try done. }
  { cbn [bmap_extend bmap_n_out]. lia. }
  exists bmap'. split; [done|]. split.
  - intros s Hs. unfold bmap_rel.
    destruct (wrap_full_coords len first wrap_len wrap_size s Hlen Hs Hsz)
      as (Hq & Hl & Hpre & Hmid & Hpost).
    eexists. apply Hin; [exact Hq|].
    rewrite !bmap_holds_extend, !Forall_concat_map_seq.
    split; [split|].
    + unfold bmap_holds. cbn. rewrite !andb_true_iff, !bool_decide_eq_true.
      done.
    + intros i Hi. rewrite Forall_singleton. unfold wrap_copy_row.
      apply copy_row_holds; [lia|case_decide; lia|done|done|].
      case_decide.
      * by apply Hpre.
      * apply Hpost. lia.
    + intros i Hi. destruct (Hmid i Hi) as [E1 E2].
      assert (0 < size_at wrap_size i) as Hp.
      { unfold size_at. rewrite Forall_forall in Hpos. apply Hpos.
        apply list_elem_of_lookup_total_2. lia. }
      pose proof (Z.div_mod (s !!! (first + i)%nat) (size_at wrap_size i)).
      pose proof (Z.mod_pos_bound (s !!! (first + i)%nat)
                    (size_at wrap_size i) Hp).
      unfold wrap_split_rows. rewrite !Forall_cons.
      split_and!; [| | |by apply Forall_nil].
      * unfold constraint_holds, constraint_value.
        cbn [c_eq c_in c_out c_div c_const].
        rewrite dot_replicate_0, dot_triple, dot_nil_r by (done || lia).
        rewrite E1, E2, Hpre by lia.
        apply bool_decide_eq_true. lia.
      * apply lower_row_holds; [lia|done|]. rewrite E1. lia.
      * apply upper_row_holds; [lia|done|]. rewrite E1. lia.
  - intros x y [q Hq]. by apply Hdom in Hq.
Qed.

(** [tile] relates every point of the input space to its image and to
    nothing else. *)
Lemma tile_rel_point nparam len first tile_len tile_size :
  (first + tile_len <= len)%nat ->
  length tile_size = tile_len -> Forall (fun t => 0 < t) tile_size ->
  exists bmap,
    tile (isl_space_params_alloc nparam) len first tile_len tile_size
    = Some bmap /\
    (forall s, length s = len ->
       bmap_rel bmap s (tile_point first tile_len tile_size s)) /\
    (forall x y, bmap_rel bmap x y ->
       length x = len /\ y = tile_point first tile_len tile_size x).
Proof.
  intros Hlen Hsz Hpos.
  destruct (tile_rel nparam len first tile_len tile_size Hlen)
    as (bmap & Hb & Hrel).
  exists bmap. split; [done|]. split.
  - intros s Hs. apply Hrel. by apply tile_spec_point.
  - intros x y Hxy. apply Hrel in Hxy. split; [apply Hxy|].
    by apply (tile_spec_unique len).
Qed.
End tiling.

(** C3.  For positive tile sizes, [tile] builds a map that relates each
    point [s] of the input space to exactly one point [out]; in [out]
    each tiled coordinate [s_i] is split into an outer and an inner
    coordinate with [s_i = size_i * outer_i + inner_i] and
    [0 <= inner_i < size_i], so that recombining [outer * size + inner]
    gives the coordinate back, and the coordinates that are not tiled
    pass through unchanged. *)
Theorem tile_roundtrip nparam len first tile_len tile_size :
  first + tile_len <= len ->
  length tile_size = tile_len ->
  Forall (fun t => 0 < t)%Z tile_size ->
  exists bmap,
    tile (isl_space_params_alloc nparam) len first tile_len tile_size
    = Some bmap /\
    forall s, length s = len ->
      (exists out, bmap_rel bmap s out /\
                   forall out', bmap_rel bmap s out' -> out' = out) /\
      forall out, bmap_rel bmap s out ->
        length out = len + tile_len /\
        (forall i, i < tile_len ->
           let coord : Z := s !!! (first + i) in
           let outer : Z := out !!! (first + i) in
           let inner : Z := out !!! (first + i + tile_len) in
           (coord = size_at tile_size i * outer + inner)%Z /\
           (0 <= inner < size_at tile_size i)%Z /\
           (outer * size_at tile_size i + inner = coord)%Z) /\
        (forall p, p < first -> out !!! p = s !!! p) /\
        (forall p, first + tile_len <= p < len ->
           out !!! (p + tile_len) = s !!! p).
Proof.
  intros Hlen Hsz Hpos.
  destruct (tile_rel_point nparam len first tile_len tile_size Hlen Hsz Hpos)
    as (bmap & Hb & Hex & Huniq).
  destruct (tile_rel nparam len first tile_len tile_size Hlen)
    as (bmap' & Hb' & Hrel).
  rewrite Hb in Hb'. injection Hb' as <-.
  exists bmap. split; [done|]. intros s Hs. split.
  - exists (tile_point first tile_len tile_size s). split; [by apply Hex|].
    intros out' Hout'. by apply Huniq.
  - intros out Hout. apply Hrel in Hout as (_ & Hl & Hcopy & Hsplit).
    split; [done|]. split; [|split].
    + intros i Hi. destruct (Hsplit i Hi) as [E B]. cbn zeta.
      split; [done|]. split; lia.
    + intros p Hp. specialize (Hcopy p ltac:(lia)).
      by rewrite !decide_True in Hcopy by done.
    + intros p Hp. specialize (Hcopy (p - tile_len) ltac:(lia)).
      rewrite !decide_False in Hcopy by lia.
      replace (p - tile_len + 2 * tile_len) with (p + tile_len) in Hcopy
        by lia.
      replace (p - tile_len + tile_len) with p in Hcopy by lia.
      done.
Qed.

Lemma tile_roundtrip_witness :
  1 + 2 <= 3 /\
  exists bmap,
    tile (isl_space_params_alloc 0) 3 1 2 [2; 3]%Z = Some bmap /\
    forall out, bmap_rel bmap [7; 5; 11]%Z out ->
      length out = 5 /\
      (5 = 2 * out !!! 1%nat + out !!! 3%nat)%Z /\
      (11 = 3 * out !!! 2%nat + out !!! 4%nat)%Z.
Proof.
  split; [lia|].
  destruct (tile_roundtrip 0 3 1 2 [2; 3]%Z) as (bmap & Hb & H).
  - lia.
  - reflexivity.
  - repeat constructor.
  - exists bmap. split; [exact Hb|].
    intros out Hout.
    destruct (H [7; 5; 11]%Z eq_refl) as [_ Hc].
    destruct (Hc out Hout) as (Hl & Hsplit & _).
    split; [exact Hl|]. split.
    + exact (proj1 (Hsplit 0 ltac:(lia))).
    + exact (proj1 (Hsplit 1 ltac:(lia))).
Defined.

(** C7.  For positive sizes over the same input space, the maps that
    [tile] and [wrap] build have the same domain: every point of the
    input space and nothing else.  They differ in the coordinates that
    they assign to a point ([tile_point] and [wrap_point]). *)
Theorem tile_wrap_same_domain nparam len first n size :
  first + n <= len ->
  length size = n ->
  Forall (fun t => 0 < t)%Z size ->
  exists btile bwrap,
    tile (isl_space_params_alloc nparam) len first n size = Some btile /\
    wrap (isl_space_params_alloc nparam) len first n size = Some bwrap /\
    (forall x, bmap_domain btile x <-> bmap_domain bwrap x) /\
    (forall x, bmap_domain btile x <-> length x = len) /\
    (forall x, length x = len ->
       bmap_rel btile x (tile_point first n size x) /\
       bmap_rel bwrap x (wrap_point first n size x)).
Proof.
  intros Hlen Hsz Hpos.
  destruct (tile_rel_point nparam len first n size Hlen Hsz Hpos)
    as (btile & Ht & Htex & Htdom).
  destruct (wrap_rel nparam len first n size Hlen Hsz Hpos)
    as (bwrap & Hw & Hwex & Hwdom).
  exists btile, bwrap. split; [done|]. split; [done|].
  assert (Hdt : forall x, bmap_domain btile x <-> length x = len).
  { intros x. split.
    - intros [y Hy]. by apply Htdom in Hy as [? _].
    - intros Hx. eexists. by apply Htex. }
  assert (Hdw : forall x, bmap_domain bwrap x <-> length x = len).
  { intros x. split.
    - intros [y Hy]. by apply Hwdom in Hy.
    - intros Hx. eexists. by apply Hwex. }
  split; [|split; [done|]].
  - intros x. by rewrite Hdt, Hdw.
  - intros x Hx. split; [by apply Htex | by apply Hwex].
Qed.

Lemma tile_wrap_same_domain_witness :
  1 + 2 <= 3 /\
  exists btile bwrap,
    tile (isl_space_params_alloc 0) 3 1 2 [2; 3]%Z = Some btile /\
    wrap (isl_space_params_alloc 0) 3 1 2 [2; 3]%Z = Some bwrap /\
    (bmap_domain btile [7; 5; 11]%Z <-> bmap_domain bwrap [7; 5; 11]%Z).
Proof.
  split; [lia|].
  destruct (tile_wrap_same_domain 0 3 1 2 [2; 3]%Z)
    as (btile & bwrap & Ht & Hw & Hdom & _).
  - lia.
  - reflexivity.
  - repeat constructor.
  - exists btile, bwrap. split; [exact Ht|]. split; [exact Hw|].
    exact (Hdom [7; 5; 11]%Z).
Defined.

(** ** Effective grid size *)

Section grid_size.
Local Open Scope Z_scope.
Implicit Types (set : list (list Z)) (i : nat) (domain : list inst).

Lemma foldl_max_spec (ps : list (list Z)) i (a : Z) :
  let m := foldl (fun m q => Z.max m (q !!! i)) a ps in
  a <= m /\ (forall q, q ∈ ps -> q !!! i <= m) /\
  (m = a \/ exists q, q ∈ ps /\ m = q !!! i).
Proof.
  revert a. induction ps as [|p ps IH]; intros a; simpl.
  - split; [lia|]. split; [|by left]. intros q Hq. by apply elem_of_nil in Hq.
  - destruct (IH (Z.max a (p !!! i))) as (H1 & H2 & H3).
    split; [lia|]. split.
    + intros q Hq. apply elem_of_cons in Hq as [->|Hq]; [lia|by apply H2].
    + destruct H3 as [H3|(q & Hq & H3)].
      * destruct (Z.max_spec a (p !!! i)) as [[_ E]|[_ E]].
        -- right. exists p. split; [apply list_elem_of_here|]. lia.
        -- left. lia.
      * right. exists q. split; [by apply list_elem_of_further|done].
Qed.

(** [isl_set_dim_max] on a non-empty set is the largest value of the
    coordinate, and some point has it. *)
Lemma isl_set_dim_max_spec set i :
  set <> [] ->
  exists m, isl_set_dim_max set i = Some m /\
            (exists p, p ∈ set /\ p !!! i = m) /\
            (forall p, p ∈ set -> p !!! i <= m).
Proof.
  destruct set as [|p ps]; [done|]. intros _. simpl.
  eexists. split; [done|].
  destruct (foldl_max_spec ps i (p !!! i)) as (H1 & H2 & H3).
  split.
  - destruct H3 as [H3|(q & Hq & H3)].
    + exists p. split; [apply list_elem_of_here|done].
    + exists q. split; [by apply list_elem_of_further|done].
  - intros q Hq. apply elem_of_cons in Hq as [->|Hq]; [done|by apply H2].
Qed.

Lemma extract_size_lookup n set i :
  (i < n)%nat ->
  extract_size n set !! i
  = Some (bound ← isl_set_dim_max set i; Some (bound + 1)).
Proof.
  intros Hi. unfold extract_size.
  rewrite list_lookup_fmap, lookup_seq_lt by done. done.
Qed.

(** The block identifiers that the filter of [set_schedule_modulo]
    gives to the instances of a domain. *)
Lemma set_schedule_modulo_grid node size domain :
  band_n_member node <> 0%nat ->
  concat (map (set_schedule_modulo node size) domain) =
  map (fun x =>
         map (fun i => (partial_schedule node x !!! i) `mod` size_at size i)
             (seq 0 (band_n_member node))) domain.
Proof.
  intros Hn. unfold set_schedule_modulo. rewrite decide_False by done.
  induction domain as [|x domain IH]; simpl; [done|]. by rewrite IH.
Qed.
End grid_size.

(** C6 (as amended).  When the block filter equates the block
    identifiers to the band's partial schedule modulo the (positive)
    configured grid sizes, [extract_grid_size] returns in each grid
    dimension one plus the largest block identifier of an instance of
    the domain: the smallest strict bound on the block identifiers in
    use.  It is at least 1 and at most the configured size of that
    dimension, which it reaches when the last block is in use.  For a
    domain that consists of a single instance it is one plus the block
    identifier of that instance. *)
Theorem extract_grid_size_spec kernel node domain i :
  block_filter kernel = set_schedule_modulo node (grid_dim kernel) ->
  band_n_member node = n_grid kernel ->
  (0 < size_at (grid_dim kernel) i)%Z ->
  domain <> [] ->
  i < n_grid kernel ->
  let block_id x :=
    ((partial_schedule node x !!! i) `mod` size_at (grid_dim kernel) i)%Z in
  exists v,
    extract_grid_size kernel domain !! i = Some (Some v) /\
    (exists x, x ∈ domain /\ v = (block_id x + 1)%Z) /\
    (forall x, x ∈ domain -> (block_id x < v)%Z) /\
    (forall v', (forall x, x ∈ domain -> (block_id x < v')%Z) -> (v <= v')%Z) /\
    (1 <= v <= size_at (grid_dim kernel) i)%Z /\
    (forall x, domain = [x] -> v = (block_id x + 1)%Z).
Proof.
  intros Hf Hn Hpos Hdom Hi block_id.
  unfold extract_grid_size. rewrite extract_size_lookup by done.
  rewrite Hf, set_schedule_modulo_grid by lia.
  set (grid := map _ domain).
  assert (Hgrid : forall p, p ∈ grid <->
                            exists x, x ∈ domain /\ p !!! i = block_id x
                                      /\ p = map (fun j =>
                                          (partial_schedule node x !!! j)
                                          `mod` size_at (grid_dim kernel) j)%Z
                                        (seq 0 (band_n_member node))).
  { intros p. unfold grid. rewrite list_elem_of_fmap. split.
    - intros (x & -> & Hx). exists x. split; [done|]. split; [|done].
      erewrite list_lookup_total_fmap by (rewrite length_seq; lia).
      by rewrite lookup_total_seq_lt by lia.
    - intros (x & Hx & _ & ->). by exists x. }
  destruct (isl_set_dim_max_spec grid i) as (m & -> & (p & Hp & Hm) & Hmax).
  { unfold grid. by destruct domain. }
  apply Hgrid in Hp as (x0 & Hx0 & Hid0 & _).
  assert (Hall : forall x, x ∈ domain -> (block_id x <= m)%Z).
  { intros x Hx. specialize (Hmax (map (fun j =>
        (partial_schedule node x !!! j) `mod` size_at (grid_dim kernel) j)%Z
        (seq 0 (band_n_member node)))).
    assert (Hin : map (fun j => (partial_schedule node x !!! j)
                         `mod` size_at (grid_dim kernel) j)%Z
                      (seq 0 (band_n_member node)) ∈ grid).
    { apply Hgrid. exists x. split; [done|]. split; [|done].
      erewrite list_lookup_total_fmap by (rewrite length_seq; lia).
      by rewrite lookup_total_seq_lt by lia. }
    specialize (Hmax Hin).
    erewrite list_lookup_total_fmap in Hmax by (rewrite length_seq; lia).
    by rewrite lookup_total_seq_lt in Hmax by lia. }
  assert (Hb : forall x, (0 <= block_id x < size_at (grid_dim kernel) i)%Z)
    by (intros x; by apply Z.mod_pos_bound).
  exists (m + 1)%Z. cbn [mbind option_bind]. split; [done|].
  split_and!.
  - exists x0. split; [done|]. lia.
  - intros x Hx. specialize (Hall x Hx). lia.
  - intros v' Hv'. specialize (Hv' x0 Hx0). lia.
  - specialize (Hb x0). lia.
  - specialize (Hb x0). lia.
  - intros x ->. apply list_elem_of_singleton in Hx0 as ->. lia.
Qed.

Lemma extract_grid_size_spec_witness :
  let node := {| partial_schedule := fun x => x.2; coincident := [true] |} in
  let domain := [("S", [0]%Z); ("S", [3]%Z); ("S", [1]%Z)] : list inst in
  let kernel := create_kernel ppcg_kernel_calloc 0 None node node domain in
  exists v, extract_grid_size kernel domain !! 0 = Some (Some v) /\
            (1 <= v <= size_at (grid_dim kernel) 0)%Z.
Proof.
  intros node domain kernel.
  destruct (extract_grid_size_spec kernel node domain 0)
    as (v & Hv & _ & _ & _ & Hb & _).
  - reflexivity.
  - reflexivity.
  - reflexivity.
  - discriminate.
  - vm_compute. lia.
  - exists v. split; [exact Hv | exact Hb].
Defined.

(** C6, counterexample.  For a domain that consists of the single
    instance [S[5]], scheduled at 5 by the band that is mapped to the
    blocks, the block identifier is 5 and the grid size is 6, not 1. *)
Lemma extract_grid_size_single_point :
  let node := {| partial_schedule := fun x => x.2; coincident := [true] |} in
  let domain := [("S", [5]%Z)] : list inst in
  let kernel := create_kernel ppcg_kernel_calloc 0 None node node domain in
  n_grid kernel = 1 /\
  extract_grid_size kernel domain = [Some 6%Z] /\
  extract_grid_size kernel domain !! 0 <> Some (Some 1%Z).
Proof. vm_compute. split; [done|]. split; [done|]. discriminate. Qed.

(** The effective grid size is the configured one when the last block
    is in use: with a grid of 2 blocks requested by the user and the
    instances [S[0]] and [S[1]], both are 2. *)
Lemma extract_grid_size_configured :
  let node := {| partial_schedule := fun x => x.2; coincident := [true] |} in
  let domain := [("S", [0]%Z); ("S", [1]%Z)] : list inst in
  let sizes : sizes_map := {[ (0, "grid") := [2]%Z ]} in
  let kernel := create_kernel ppcg_kernel_calloc 0 (Some sizes) node node
                  domain in
  grid_dim kernel !! 0 = Some 2%Z /\
  extract_grid_size kernel domain = [Some 2%Z].
Proof. vm_compute. done. Qed.

(** ** Memory-hierarchy schedule *)

Section memory_schedule.
Local Open Scope Z_scope.
Implicit Types (gen : gpu_gen) (group g : gpu_array_ref_group).
Implicit Types (res : list sched_entry) (e : sched_entry) (k s : Z).

Lemma foldl_concat {A B} (f : A -> B -> A) (a : A) (ls : list (list B)) :
  foldl f a (concat ls) = foldl (fun a l => foldl f a l) a ls.
Proof.
  revert a. induction ls as [|l ls IH]; intros a; simpl; [done|].
  by rewrite foldl_app, IH.
Qed.

(** The number of groups that [body_schedule] computes. *)
Lemma count_groups (arrays : list gpu_local_array_info) (s0 : Z) :
  foldl (fun s array_ => s + Z.of_nat (n_group array_)) s0 arrays
  = s0 + Z.of_nat (length (concat (map groups arrays))).
Proof.
  revert s0. induction arrays as [|a arrays IH]; intros s0; simpl; [lia|].
  rewrite IH, length_app. unfold n_group. lia.
Qed.

(** [add_group_schedule] and [add_sync_schedule] only append. *)
Lemma add_group_schedule_app gen res g read k s :
  add_group_schedule gen res g read k s
  = res ++ add_group_schedule gen [] g read k s.
Proof.
  unfold add_group_schedule, add_sync_schedule.
  destruct read, (copy_in g), (copy_out g), (has_tile (private_tile g));
    simpl; rewrite ?app_nil_r; try done;
    repeat case_decide; try case_bool_decide; simpl;
    rewrite <- ?app_assoc; done.
Qed.

Local Ltac pick_case :=
  first [ solve [repeat split; first [done | lia | intuition congruence]]
        | left; solve [repeat split;
                       first [done | lia | intuition congruence]]
        | right; pick_case ].

Local Ltac entry_cases :=
  rewrite ?elem_of_app, ?elem_of_cons, ?elem_of_nil;
  intros He; repeat destruct He as [He|He]; try done; subst; pick_case.

(** The entries that the two calls of [add_group_schedule] add for a
    group with number [k]. *)
Lemma group_entries_cases gen g k s e :
  e ∈ add_group_schedule gen (add_group_schedule gen [] g false k s)
        g true k s ->
  let pos := last_shared g + 1 - Z.of_nat (tile_first gen) in
  let n := Z.of_nat (shared_len gen) - Z.of_nat (tile_first gen) in
  (copy_out g = true /\
   e = {| entry_kind_of := Copy false g; entry_pos := pos;
          entry_val := if has_tile (private_tile g) then 1 + k
                       else 1 + s + 1 + k |}) \/
  (copy_out g = true /\ pos <> 0 /\
   ~ (pos = n /\ has_tile (private_tile g) = true) /\
   e = {| entry_kind_of := Sync; entry_pos := pos;
          entry_val := 2 * s + 2 |}) \/
  (copy_in g = true /\
   e = {| entry_kind_of := Copy true g; entry_pos := pos;
          entry_val := -2 - k |}) \/
  (copy_in g = true /\ has_tile (private_tile g) = false /\
   e = {| entry_kind_of := Sync; entry_pos := n; entry_val := -1 |}).
Proof.
  intros He. cbv zeta. revert He.
  rewrite add_group_schedule_app.
  unfold add_group_schedule, add_sync_schedule.
  destruct (copy_in g), (copy_out g), (has_tile (private_tile g));
    simpl;
    repeat case_decide; try case_bool_decide; simpl;
    entry_cases.
Qed.

(** The converse for the write and its synchronisation. *)
Lemma group_entries_write gen g k s :
  copy_out g = true ->
  let pos := last_shared g + 1 - Z.of_nat (tile_first gen) in
  let n := Z.of_nat (shared_len gen) - Z.of_nat (tile_first gen) in
  let entries :=
    add_group_schedule gen (add_group_schedule gen [] g false k s)
      g true k s in
  {| entry_kind_of := Copy false g; entry_pos := pos;
     entry_val := if has_tile (private_tile g) then 1 + k
                  else 1 + s + 1 + k |} ∈ entries /\
  (pos <> 0 -> ~ (pos = n /\ has_tile (private_tile g) = true) ->
   {| entry_kind_of := Sync; entry_pos := pos;
      entry_val := 2 * s + 2 |} ∈ entries).
Proof.
  intros Hout pos n entries. subst entries.
  rewrite add_group_schedule_app.
  assert (Hw : add_group_schedule gen [] g false k s =
               {| entry_kind_of := Copy false g; entry_pos := pos;
                  entry_val := if has_tile (private_tile g) then 1 + k
                               else 1 + s + 1 + k |}
               :: (if decide (pos = 0) then []
                   else if bool_decide (pos = n)
                           && has_tile (private_tile g) then []
                   else [{| entry_kind_of := Sync; entry_pos := pos;
                            entry_val := 2 * s + 2 |}])).
  { unfold add_group_schedule, add_sync_schedule. rewrite Hout.
    cbn [negb app]. fold pos n.
    case_decide; [done|]. by destruct (_ && _). }
  rewrite Hw. split.
  - apply elem_of_app. left. apply list_elem_of_here.
  - intros H0 Hn. apply elem_of_app. left. apply list_elem_of_further.
    rewrite decide_False by done.
    destruct (bool_decide (pos = n) && has_tile (private_tile g)) eqn:E.
    + apply andb_true_iff in E as [E1 E2].
      apply bool_decide_eq_true in E1. tauto.
    + apply list_elem_of_here.
Qed.

(** The loop over the groups of one array, and the loops over all
    arrays: the groups with a tile are numbered in encounter order
    and their entries are appended in that order. *)
Lemma groups_loop gen s (gs : list gpu_array_ref_group) res (k0 : nat) :
  foldl (fun '(res, k) group =>
      if negb (has_tile (private_tile group))
         && negb (has_tile (shared_tile group))
      then (res, k)
      else
        let res := add_group_schedule gen res group false k s in
        let res := add_group_schedule gen res group true k s in
        (res, k + 1))
    (res, Z.of_nat k0) gs
  = (res ++ concat (imap (fun j group =>
               add_group_schedule gen
                 (add_group_schedule gen [] group false
                    (Z.of_nat (k0 + j)) s)
                 group true (Z.of_nat (k0 + j)) s)
             (filter (fun group => has_tile (private_tile group)
                                   || has_tile (shared_tile group) = true)
                     gs)),
     Z.of_nat (k0 + length
                 (filter (fun group => has_tile (private_tile group)
                                       || has_tile (shared_tile group) = true)
                         gs))).
Proof.
  revert res k0. induction gs as [|g gs IH]; intros res k0.
  - simpl. rewrite app_nil_r. do 2 f_equal. lia.
  - cbn [foldl].
    destruct (has_tile (private_tile g) || has_tile (shared_tile g)) eqn:E.
    + rewrite filter_cons_True by done.
      replace (negb (has_tile (private_tile g))
               && negb (has_tile (shared_tile g))) with false
        by (by destruct (has_tile (private_tile g)),
                        (has_tile (shared_tile g))).
      replace (Z.of_nat k0 + 1) with (Z.of_nat (S k0)) by lia.
      rewrite IH. cbn [imap concat length].
      rewrite (add_group_schedule_app gen _ g true).
      rewrite (add_group_schedule_app gen res g false).
      rewrite (add_group_schedule_app gen
                 (add_group_schedule gen [] g false _ s) g true).
      replace (k0 + 0)%nat with k0 by lia.
      rewrite <- !app_assoc. f_equal; [|f_equal; lia].
      do 4 f_equal. apply imap_ext. intros j x _. unfold compose.
      by replace (S k0 + j)%nat with (k0 + S j)%nat by lia.
    + rewrite filter_cons_False by (by rewrite E).
      replace (negb (has_tile (private_tile g))
               && negb (has_tile (shared_tile g))) with true
        by (by destruct (has_tile (private_tile g)),
                        (has_tile (shared_tile g))).
      apply IH.
Qed.

Lemma arrays_loop gen s (arrays : list gpu_local_array_info) res (k0 : nat) :
  foldl (fun '(res, k) array_ =>
    foldl (fun '(res, k) group =>
      if negb (has_tile (private_tile group))
         && negb (has_tile (shared_tile group))
      then (res, k)
      else
        let res := add_group_schedule gen res group false k s in
        let res := add_group_schedule gen res group true k s in
        (res, k + 1))
      (res, k) (groups array_))
    (res, Z.of_nat k0) arrays
  = (res ++ concat (imap (fun j group =>
               add_group_schedule gen
                 (add_group_schedule gen [] group false
                    (Z.of_nat (k0 + j)) s)
                 group true (Z.of_nat (k0 + j)) s)
             (filter (fun group => has_tile (private_tile group)
                                   || has_tile (shared_tile group) = true)
                     (concat (map groups arrays)))),
     Z.of_nat (k0 + length
                 (filter (fun group => has_tile (private_tile group)
                                       || has_tile (shared_tile group) = true)
                         (concat (map groups arrays))))).
Proof.
  revert res k0. induction arrays as [|a arrays IH]; intros res k0.
  - simpl. rewrite app_nil_r. do 2 f_equal. lia.
  - cbn [foldl map concat]. rewrite groups_loop, IH.
    rewrite filter_app, imap_app, concat_app, length_app.
    rewrite <- app_assoc. f_equal; [|f_equal; lia].
    do 3 f_equal. apply imap_ext. intros j x _. unfold compose.
    by replace (k0 + length (filter
                  (fun group => has_tile (private_tile group)
                                || has_tile (shared_tile group) = true)
                  (groups a)) + j)%nat
      with (k0 + (length (filter
                  (fun group => has_tile (private_tile group)
                                || has_tile (shared_tile group) = true)
                  (groups a)) + j))%nat by lia.
Qed.

(** The schedule that [body_schedule] builds. *)
Lemma body_schedule_shape gen :
  let s := total_groups (kernel gen) in
  body_schedule gen =
  {| entry_kind_of := Body; entry_pos := -1; entry_val := 0 |}
  :: concat (imap (fun j group =>
               add_group_schedule gen
                 (add_group_schedule gen [] group false (Z.of_nat j) s)
                 group true (Z.of_nat j) s)
             (tiled_groups (kernel gen)))
  ++ [{| entry_kind_of := Sync;
         entry_pos := Z.of_nat (shared_len gen) - Z.of_nat (tile_first gen);
         entry_val := 1 + s |}].
Proof.
  intros s. unfold body_schedule.
  rewrite count_groups. change (0 + _) with s.
  change 0 with (Z.of_nat 0) at 2.
  rewrite arrays_loop. unfold add_sync_schedule. done.
Qed.
End memory_schedule.

Section memory_schedule_entries.
Local Open Scope Z_scope.
Implicit Types (gen : gpu_gen) (e w : sched_entry).

Lemma elem_of_concat_imap {A B} (f : nat -> A -> list B) (l : list A) b :
  b ∈ concat (imap f l) <-> exists j a, l !! j = Some a /\ b ∈ f j a.
Proof.
  revert f. induction l as [|a l IH]; intros f; cbn [imap concat].
  - rewrite elem_of_nil. split; [done|]. by intros (j & a & ? & _).
  - rewrite elem_of_app, IH. split.
    + intros [H|(j & a' & Hj & H)].
      * by exists 0%nat, a.
      * by exists (S j), a'.
    + intros ([|j] & a' & Hj & H).
      * left. by injection Hj as ->.
      * right. by exists j, a'.
Qed.

(** Where the entries of [body_schedule] come from. *)
Lemma body_schedule_entry gen e :
  let s := total_groups (kernel gen) in
  e ∈ body_schedule gen <->
  e = {| entry_kind_of := Body; entry_pos := -1; entry_val := 0 |} \/
  (exists (k : nat) group,
     tiled_groups (kernel gen) !! k = Some group /\
     e ∈ add_group_schedule gen
           (add_group_schedule gen [] group false (Z.of_nat k) s)
           group true (Z.of_nat k) s) \/
  e = {| entry_kind_of := Sync;
         entry_pos := Z.of_nat (shared_len gen) - Z.of_nat (tile_first gen);
         entry_val := 1 + s |}.
Proof.
  intros s. rewrite body_schedule_shape. fold s.
  rewrite elem_of_cons, elem_of_app, elem_of_concat_imap,
    list_elem_of_singleton.
  done.
Qed.

(** A group with a tile has a number below the number of groups. *)
Lemma tiled_groups_lookup (kernel : ppcg_kernel) (k : nat) group :
  tiled_groups kernel !! k = Some group ->
  Z.of_nat k < total_groups kernel /\
  has_tile (private_tile group) || has_tile (shared_tile group) = true.
Proof.
  intros Hk. split.
  - apply lookup_lt_Some in Hk. unfold tiled_groups in Hk.
    pose proof (length_filter
      (fun group => has_tile (private_tile group)
                    || has_tile (shared_tile group) = true)
      (kernel_groups kernel)).
    unfold total_groups. lia.
  - apply list_elem_of_lookup_2 in Hk. unfold tiled_groups in Hk.
    by apply list_elem_of_filter in Hk as [Hk _].
Qed.
End memory_schedule_entries.

(** C2 (as amended).  In the schedule of a kernel with [s] groups, the
    rank of every read entry is below -1, the rank of the
    synchronisation before the body, and so below 0, the rank of the
    body; the rank of every write from private memory is above 0 and
    below [1 + s], the rank of the unconditional synchronisation after
    the body, which is below the rank of every write from shared
    memory, which is below [2s + 2], the rank of the synchronisation
    after the writes.  Hence read < private write < barrier after the
    body < shared write < final barrier. *)
Theorem body_schedule_order gen :
  let s := total_groups (kernel gen) in
  let n := (Z.of_nat (shared_len gen) - Z.of_nat (tile_first gen))%Z in
  let post_body := {| entry_kind_of := Sync; entry_pos := n;
                      entry_val := (1 + s)%Z |} in
  post_body ∈ body_schedule gen /\
  (forall e, e ∈ body_schedule gen -> is_read e = true ->
     (entry_val e < -1)%Z) /\
  (forall e, e ∈ body_schedule gen -> is_private_write e = true ->
     (0 < entry_val e < entry_val post_body)%Z) /\
  (forall e, e ∈ body_schedule gen -> is_shared_write e = true ->
     (entry_val post_body < entry_val e < 2 * s + 2)%Z) /\
  (forall e, e ∈ body_schedule gen -> is_sync e = true ->
     entry_val e = (-1)%Z \/ entry_val e = (1 + s)%Z \/
     entry_val e = (2 * s + 2)%Z) /\
  (forall r p w,
     r ∈ body_schedule gen -> p ∈ body_schedule gen ->
     w ∈ body_schedule gen ->
     is_read r = true -> is_private_write p = true ->
     is_shared_write w = true ->
     (entry_val r < entry_val p < entry_val post_body)%Z /\
     (entry_val post_body < entry_val w < 2 * s + 2)%Z).
Proof.
  intros s n post_body.
  assert (Hcases : forall e, e ∈ body_schedule gen ->
            (is_read e = true -> (entry_val e < -1)%Z) /\
            (is_private_write e = true -> (0 < entry_val e < 1 + s)%Z) /\
            (is_shared_write e = true ->
               (1 + s < entry_val e < 2 * s + 2)%Z) /\
            (is_sync e = true ->
               entry_val e = (-1)%Z \/ entry_val e = (1 + s)%Z \/
               entry_val e = (2 * s + 2)%Z)).
  { intros e He. apply body_schedule_entry in He. fold s in He.
    destruct He as [->|[(k & g & Hk & He)| ->]].
    - by cbn.
    - destruct (tiled_groups_lookup _ _ _ Hk) as [Hlt _]. fold s in Hlt.
      apply group_entries_cases in He.
      unfold is_read, is_private_write, is_shared_write, is_sync.
      destruct He as [(Hout & ->)|[(Hout & H0 & Hn & ->)|
                      [(Hin & ->)|(Hin & Hp & ->)]]]; cbn.
      + destruct (has_tile (private_tile g)); cbn;
          split_and!; intros; (done || lia).
      + split_and!; intros; (done || auto).
      + split_and!; intros; (done || lia).
      + split_and!; intros; (done || auto).
    - cbn. split_and!; intros; (done || auto). }
  split_and!.
  - apply body_schedule_entry. by right; right.
  - intros e He. by apply Hcases.
  - intros e He. by apply Hcases.
  - intros e He. by apply Hcases.
  - intros e He. by apply Hcases.
  - intros r p w Hr Hp Hw Hr' Hp' Hw'.
    apply Hcases in Hr as (Hr & _). apply Hcases in Hp as (_ & Hp & _).
    apply Hcases in Hw as (_ & _ & Hw & _).
    specialize (Hr Hr'). specialize (Hp Hp'). specialize (Hw Hw').
    cbn. lia.
Qed.

(** C2, counterexample.  For a kernel with a single group that has a
    private tile, the write of the group has rank 1 and the
    unconditional synchronisation after the body has rank 2: the
    synchronisation does not come before the write from private
    memory. *)
Lemma body_schedule_private_write_before_barrier :
  let g := {| group_name := "A"; private_tile := Some (GpuArrayTile [1]%Z);
              shared_tile := None;
              last_shared := 0; copy_in := true; copy_out := true;
              private_pieces := [] |} in
  let gen :=
    {| kernel := set_array ppcg_kernel_calloc
                   [{| array_size := 4; groups := [g];
                       force_private := false |}];
       tile_first := 0; shared_len := 2; thread_tiled_len := 4;
       first_unroll := (-1)%Z |} in
  let write := {| entry_kind_of := Copy false g; entry_pos := 1%Z;
                  entry_val := 1%Z |} in
  let post_body := {| entry_kind_of := Sync; entry_pos := 2%Z;
                      entry_val := 2%Z |} in
  body_schedule gen =
    [ {| entry_kind_of := Body; entry_pos := (-1)%Z; entry_val := 0%Z |};
      write;
      {| entry_kind_of := Sync; entry_pos := 1%Z; entry_val := 4%Z |};
      {| entry_kind_of := Copy true g; entry_pos := 1%Z;
         entry_val := (-2)%Z |};
      post_body ] /\
  is_private_write write = true /\
  ~ (entry_val post_body < entry_val write)%Z.
Proof. vm_compute. split; [done|]. split; [done|]. by intros H. Qed.

Lemma body_schedule_order_witness :
  let g := {| group_name := "A"; private_tile := None;
              shared_tile := Some (GpuArrayTile [8]%Z);
              last_shared := 0; copy_in := true; copy_out := true;
              private_pieces := [] |} in
  let gen :=
    {| kernel := set_array ppcg_kernel_calloc
                   [{| array_size := 4; groups := [g];
                       force_private := false |}];
       tile_first := 0; shared_len := 2; thread_tiled_len := 4;
       first_unroll := (-1)%Z |} in
  let w := {| entry_kind_of := Copy false g; entry_pos := 1%Z;
              entry_val := 3%Z |} in
  w ∈ body_schedule gen /\ (2 < entry_val w < 4)%Z.
Proof.
  intros g gen w.
  assert (Hw : w ∈ body_schedule gen).
  { vm_compute. apply list_elem_of_further, list_elem_of_here. }
  split; [exact Hw|].
  destruct (body_schedule_order gen) as (_ & _ & _ & Hs & _).
  exact (Hs w Hw eq_refl).
Defined.

(** ** Schedule constraints *)

(** C8.  [compute_schedule] gives the scheduler the constraints of the
    two policies.  Without live-range reordering, validity, coincidence
    and proximity all are the union of the flow and the false
    dependences.  With live-range reordering, validity is the union of
    the flow and the forced dependences, proximity the union of the
    flow and the false dependences, and coincidence is validity minus
    the independences, united with the array order dependences; the
    conditional validity constraints are the tagged flow and order
    dependences. *)
Theorem compute_schedule_constraints scop array_order :
  (let sc := compute_schedule false scop array_order in
   sc_domain sc = domain scop /\
   sc_validity sc = dep_flow scop ∪ dep_false scop /\
   sc_coincidence sc = dep_flow scop ∪ dep_false scop /\
   sc_proximity sc = dep_flow scop ∪ dep_false scop /\
   sc_condition sc = ∅ /\ sc_conditional_validity sc = ∅) /\
  (let sc := compute_schedule true scop array_order in
   sc_domain sc = domain scop /\
   sc_validity sc = dep_flow scop ∪ dep_forced scop /\
   sc_proximity sc = dep_flow scop ∪ dep_false scop /\
   sc_coincidence sc =
     (sc_validity sc ∖ independence scop) ∪ array_order /\
   (forall d, d ∈ sc_coincidence sc <->
      ((d ∈ dep_flow scop \/ d ∈ dep_forced scop) /\ d ∉ independence scop)
      \/ d ∈ array_order) /\
   sc_condition sc = tagged_dep_flow scop /\
   sc_conditional_validity sc = tagged_dep_order scop).
Proof.
  split.
  - cbn. split_and!; try done; apply union_comm_L.
  - cbn. split_and!; try done. intros d. set_solver.
Qed.

(** ** Interchange for unrolling *)

Section interchange.
Implicit Types (gen : gpu_gen) (unroll : list bool).

Lemma existsb_seq_true (f : nat -> bool) a n :
  existsb f (seq a n) = true <-> exists i, a <= i < a + n /\ f i = true.
Proof.
  rewrite existsb_exists. split.
  - intros (i & Hi & Hf). exists i. split; [|done].
    apply list_elem_of_In, elem_of_seq in Hi. lia.
  - intros (i & Hi & Hf). exists i. split; [|done].
    apply list_elem_of_In, elem_of_seq. lia.
Qed.

Lemma existsb_seq_false (f : nat -> bool) a n :
  existsb f (seq a n) = false <-> forall i, a <= i < a + n -> f i = false.
Proof.
  rewrite <- not_true_iff_false, existsb_seq_true. split.
  - intros H i Hi. apply not_true_iff_false. intros Hf. apply H. by exists i.
  - intros H (i & Hi & Hf). rewrite H in Hf by done. discriminate.
Qed.

(** [remove_private_tiles] leaves the groups of the arrays that are
    marked [force_private] alone and removes the private tile of all
    other groups. *)
Lemma remove_private_tiles_spec gen i local :
  array (kernel gen) !! i = Some local ->
  exists local',
    array (kernel (remove_private_tiles gen)) !! i = Some local' /\
    force_private local' = force_private local /\
    array_size local' = array_size local /\
    if force_private local then local' = local
    else
      length (groups local') = length (groups local) /\
      Forall (fun group => private_tile group = None) (groups local').
Proof.
  intros Hi. unfold remove_private_tiles. cbn [kernel set_kernel array set_array].
  rewrite list_lookup_fmap, Hi. cbn [fmap option_fmap option_map].
  eexists. split; [done|].
  destruct (force_private local) eqn:E; cbn; [by rewrite E|].
  split_and!; try done.
  - by rewrite length_map.
  - apply Forall_forall. intros g Hg.
    apply list_elem_of_fmap in Hg as (g0 & -> & _). done.
Qed.
End interchange.

(** C9 (as amended).  When [interchange_for_unroll] finds that the
    private accesses involve a loop dimension inside the window of the
    thread-tiled and parallel loops and no dimension after that window,
    and the kernel has an array that is marked [force_private], then
    the private tile is removed from every group of every array that
    is not marked [force_private], the groups of the arrays that are
    marked [force_private] keep theirs, and the schedule is returned as
    it is, without a permutation and with [first_unroll] equal to -1. *)
Theorem interchange_for_unroll_force_private gen dim sched :
  let len := shared_len gen + n_parallel (kernel gen)
             + n_block (kernel gen) in
  let unroll := private_unroll gen in
  (exists i, shared_len gen <= i < len /\ unroll_at unroll i = true) ->
  (forall i, len <= i < thread_tiled_len gen -> unroll_at unroll i = false) ->
  any_force_private (kernel gen) = true ->
  let gen' := (interchange_for_unroll gen dim sched).1 in
  (interchange_for_unroll gen dim sched).2 = sched /\
  first_unroll gen' = (-1)%Z /\
  forall i local,
    array (kernel gen) !! i = Some local ->
    exists local',
      array (kernel gen') !! i = Some local' /\
      if force_private local then local' = local
      else
        length (groups local') = length (groups local) /\
        Forall (fun group => private_tile group = None) (groups local').
Proof.
  intros len unroll (i & Hi & Hu) Hout Hforce gen'.
  subst gen'. unfold interchange_for_unroll.
  change (private_unroll (set_first_unroll gen (-1))) with unroll.
  cbn [shared_len thread_tiled_len kernel set_first_unroll].
  fold len.
  assert (E1 : existsb (unroll_at unroll)
                 (seq (shared_len gen) (len - shared_len gen)) = true).
  { apply existsb_seq_true. exists i. split; [lia|done]. }
  assert (E2 : existsb (unroll_at unroll)
                 (seq len (thread_tiled_len gen - len)) = false).
  { apply existsb_seq_false. intros j Hj. apply Hout. lia. }
  rewrite E1, E2, Hforce. cbn [negb fst snd].
  split; [done|]. split; [done|].
  intros j local Hj.
  destruct (remove_private_tiles_spec (set_first_unroll gen (-1)) j local Hj)
    as (local' & Hl & _ & _ & H).
  by exists local'.
Qed.

Lemma interchange_for_unroll_force_private_witness :
  let gf := {| group_name := "F"; private_tile := Some (GpuArrayTile [1]%Z);
               shared_tile := None; last_shared := 0;
               copy_in := true; copy_out := true; private_pieces := [] |} in
  let gp := {| group_name := "P"; private_tile := Some (GpuArrayTile [4]%Z);
               shared_tile := None; last_shared := 0;
               copy_in := true; copy_out := true;
               private_pieces :=
                 [{| ma_n_in := 3;
                     ma_affs := [{| aff_coeffs := [0; 1; 0]%Z;
                                    aff_const := 0 |}] |}] |} in
  let k :=
    {| k_id := 0; tile_len := 1; n_parallel := 1; n_grid := 1; n_block := 1;
       grid_dim := [0; 0]%Z; block_dim := [0; 0; 0]%Z;
       array := [{| array_size := 4; groups := [gf]; force_private := true |};
                 {| array_size := 4; groups := [gp]; force_private := false |}];
       any_force_private := true; max_shared_memory := 0%Z;
       block_filter := fun _ => []; grid_size := [] |} in
  let gen := {| kernel := k; tile_first := 0; shared_len := 1;
                thread_tiled_len := 3; first_unroll := 0%Z |} in
  unroll_at (private_unroll gen) 1 = true /\
  (interchange_for_unroll gen (isl_space_params_alloc 0) None).2 = None /\
  first_unroll (interchange_for_unroll gen (isl_space_params_alloc 0) None).1
  = (-1)%Z.
Proof.
  intros gf gp k gen.
  assert (Hu : unroll_at (private_unroll gen) 1 = true) by reflexivity.
  split; [exact Hu|].
  destruct (interchange_for_unroll_force_private gen
              (isl_space_params_alloc 0) None) as (Hs & Hf & _).
  - exists 1. split; [vm_compute; lia | exact Hu].
  - intros i Hi. vm_compute in Hi. lia.
  - reflexivity.
  - split; [exact Hs | exact Hf].
Defined.

(** C9, counterexample.  The kernel has an array that is marked
    [force_private], with a group that has a private tile, and an
    array that is not, whose private access involves dimension 1 of
    the window.  [interchange_for_unroll] removes the private tile of
    the second group only: the group of the array that is marked
    [force_private] keeps its private tile. *)
Lemma interchange_for_unroll_keeps_force_private :
  let gf := {| group_name := "F"; private_tile := Some (GpuArrayTile [1]%Z);
               shared_tile := None; last_shared := 0;
               copy_in := true; copy_out := true; private_pieces := [] |} in
  let gp := {| group_name := "P"; private_tile := Some (GpuArrayTile [4]%Z);
               shared_tile := None; last_shared := 0;
               copy_in := true; copy_out := true;
               private_pieces :=
                 [{| ma_n_in := 3;
                     ma_affs := [{| aff_coeffs := [0; 1; 0]%Z;
                                    aff_const := 0 |}] |}] |} in
  let k :=
    {| k_id := 0; tile_len := 1; n_parallel := 1; n_grid := 1; n_block := 1;
       grid_dim := [0; 0]%Z; block_dim := [0; 0; 0]%Z;
       array := [{| array_size := 4; groups := [gf]; force_private := true |};
                 {| array_size := 4; groups := [gp]; force_private := false |}];
       any_force_private := true; max_shared_memory := 0%Z;
       block_filter := fun _ => []; grid_size := [] |} in
  let gen := {| kernel := k; tile_first := 0; shared_len := 1;
                thread_tiled_len := 3; first_unroll := 0%Z |} in
  let gen' := (interchange_for_unroll gen (isl_space_params_alloc 0) None).1 in
  private_unroll gen = [false; true; false] /\
  any_force_private (kernel gen) = true /\
  kernel_groups (kernel gen') = [gf; set_private_tile gp None] /\
  ~ Forall (fun group => private_tile group = None)
      (kernel_groups (kernel gen')).
Proof.
  vm_compute. split_and!; try done.
  intros H. apply Forall_cons in H as [H _]. discriminate H.
Qed.

(** When a dimension after the window is involved as well, the function
    returns early: the schedule and all private tiles are kept, also
    when an array is marked [force_private]. *)
Lemma interchange_for_unroll_outside_window gen dim sched i :
  let len := shared_len gen + n_parallel (kernel gen)
             + n_block (kernel gen) in
  len <= i < thread_tiled_len gen ->
  unroll_at (private_unroll gen) i = true ->
  interchange_for_unroll gen dim sched = (set_first_unroll gen (-1), sched).
Proof.
  intros len Hi Hu. unfold interchange_for_unroll.
  change (private_unroll (set_first_unroll gen (-1)))
    with (private_unroll gen).
  cbn [shared_len thread_tiled_len kernel set_first_unroll]. fold len.
  destruct (negb _); [done|].
  assert (E : existsb (unroll_at (private_unroll gen))
                (seq len (thread_tiled_len gen - len)) = true).
  { apply existsb_seq_true. exists i. split; [lia|done]. }
  by rewrite E.
Qed.

(** Without an array marked [force_private], the dimension that is
    involved is moved innermost and [first_unroll] records where the
    unrolled dimensions start. *)
Lemma interchange_for_unroll_permutes :
  let gp := {| group_name := "P"; private_tile := Some (GpuArrayTile [4]%Z);
               shared_tile := None; last_shared := 0;
               copy_in := true; copy_out := true;
               private_pieces :=
                 [{| ma_n_in := 3;
                     ma_affs := [{| aff_coeffs := [0; 1; 0]%Z;
                                    aff_const := 0 |}] |}] |} in
  let k :=
    {| k_id := 0; tile_len := 1; n_parallel := 1; n_grid := 1; n_block := 1;
       grid_dim := [0; 0]%Z; block_dim := [0; 0; 0]%Z;
       array := [{| array_size := 4; groups := [gp]; force_private := false |}];
       any_force_private := false; max_shared_memory := 0%Z;
       block_filter := fun _ => []; grid_size := [] |} in
  let gen := {| kernel := k; tile_first := 0; shared_len := 1;
                thread_tiled_len := 3; first_unroll := 0%Z |} in
  unroll_perm gen (private_unroll gen) 3 = ([0; 2; 1], 1) /\
  first_unroll (interchange_for_unroll gen (isl_space_params_alloc 0) None).1
  = 1%Z.
Proof. vm_compute. done. Qed.

(** ** The even coordinates of [insert_even] *)

Section insert_even.
Local Open Scope Z_scope.
Implicit Types (proj s : list Z) (v : nat -> Z) (i m : nat).

Lemma weave_length v proj m :
  length (concat (map (fun j => [v j; proj !!! j]) (seq 0 m))) = (2 * m)%nat.
Proof.
  induction m as [|m IH]; [done|].
  rewrite seq_S, map_app, concat_app, length_app, IH. simpl. lia.
Qed.

Lemma weave_lookup v proj m i :
  (i < m)%nat ->
  concat (map (fun j => [v j; proj !!! j]) (seq 0 m)) !!! (2 * i)%nat = v i.
Proof.
  induction m as [|m IH]; intros Hi; [lia|].
  rewrite seq_S, map_app, concat_app. cbn [map concat app Nat.add].
  destruct (decide (i < m)%nat) as [Hlt|Hge].
  - rewrite lookup_total_app_l by (rewrite weave_length; lia). by apply IH.
  - assert (i = m) as -> by lia.
    rewrite lookup_total_app_r by (rewrite weave_length; lia).
    rewrite weave_length. by replace (2 * m - 2 * m)%nat with 0%nat by lia.
Qed.

(** The first loop of [insert_even] weaves the fixed values into the
    tuple. *)
Lemma insert_loop v proj m :
  (m <= length proj)%nat ->
  foldl (fun proj i => isl_insert_dim proj (2 * i) (v i)) proj (seq 0 m)
  = concat (map (fun j => [v j; proj !!! j]) (seq 0 m)) ++ drop m proj.
Proof.
  induction m as [|m IH]; intros Hm; [done|].
  rewrite seq_S, foldl_app, IH by lia. cbn [foldl Nat.add].
  unfold isl_insert_dim.
  rewrite take_app_length', drop_app_length' by (by rewrite weave_length).
  rewrite map_app, concat_app. cbn [map concat app].
  rewrite <- app_assoc. f_equal. cbn [app]. f_equal.
  apply drop_S, list_lookup_lookup_total_lt. lia.
Qed.

Lemma insert_loop_all v proj :
  foldl (fun proj i => isl_insert_dim proj (2 * i) (v i)) proj
        (seq 0 (S (length proj)))
  = concat (map (fun j => [v j; proj !!! j]) (seq 0 (length proj)))
    ++ [v (length proj)].
Proof.
  rewrite seq_S, foldl_app, insert_loop by lia. cbn [foldl Nat.add].
  unfold isl_insert_dim. rewrite drop_all, app_nil_r.
  rewrite take_ge, drop_ge by (rewrite weave_length; lia). done.
Qed.

(** The second loop only writes odd positions. *)
Lemma clear_odd_even proj (l : list nat) p :
  foldl (fun proj i => <[(2 * i + 1)%nat := 0]> proj) proj l !!! (2 * p)%nat
  = proj !!! (2 * p)%nat.
Proof.
  revert proj. induction l as [|i l IH]; intros proj; [done|].
  cbn [foldl]. rewrite IH. apply list_lookup_total_insert_ne. lia.
Qed.

Lemma clear_odd_length proj (l : list nat) :
  length (foldl (fun proj i => <[(2 * i + 1)%nat := 0]> proj) proj l)
  = length proj.
Proof.
  revert proj. induction l as [|i l IH]; intros proj; [done|].
  cbn [foldl]. by rewrite IH, length_insert.
Qed.

(** [insert_even] returns a tuple of [2 n + 1] coordinates, with [n]
    the number of shared tile loops after [tile_first]; its even
    coordinate [2 i] is [val] for [i = pos] and 0 otherwise. *)
Lemma insert_even_even gen pos val s i :
  (tile_first gen <= shared_len gen)%nat ->
  length s = shared_len gen ->
  (i <= shared_len gen - tile_first gen)%nat ->
  length (insert_even gen pos val s)
  = (2 * (shared_len gen - tile_first gen) + 1)%nat /\
  insert_even gen pos val s !!! (2 * i)%nat
  = if decide (Z.of_nat i = pos) then val else 0.
Proof.
  intros Hle Hs Hi. unfold insert_even.
  assert (Hn : (shared_len gen - tile_first gen)%nat
               = length (drop (tile_first gen) s))
    by (rewrite length_drop; lia).
  rewrite Hn in Hi |- *.
  rewrite (insert_loop_all
             (fun i => if decide (Z.of_nat i = pos) then val else 0)).
  set (proj := drop (tile_first gen) s) in *.
  assert (Hlook :
    (concat (map (fun j => [if decide (Z.of_nat j = pos) then val else 0;
                            proj !!! j]) (seq 0 (length proj)))
     ++ [if decide (Z.of_nat (length proj) = pos) then val else 0])
    !!! (2 * i)%nat
    = if decide (Z.of_nat i = pos) then val else 0).
  { destruct (decide (i < length proj)%nat) as [Hlt|Hge].
    - rewrite lookup_total_app_l by (rewrite weave_length; lia).
      by rewrite (weave_lookup
                    (fun j => if decide (Z.of_nat j = pos) then val else 0)).
    - assert (i = length proj) as -> by lia.
      rewrite lookup_total_app_r by (rewrite weave_length; lia).
      rewrite weave_length.
      by replace (2 * length proj - 2 * length proj)%nat with 0%nat by lia. }
  destruct (decide (pos < 0)) as [Hneg|Hneg].
  - split; [|exact Hlook]. rewrite length_app, weave_length. simpl. lia.
  - rewrite clear_odd_length, clear_odd_even.
    split; [|exact Hlook]. rewrite length_app, weave_length. simpl. lia.
Qed.

(** The rank of an entry is the even coordinate of its level. *)
Lemma entry_time_rank gen e s :
  (tile_first gen <= shared_len gen)%nat ->
  length s = shared_len gen ->
  0 <= entry_pos e <= Z.of_nat (shared_len gen) - Z.of_nat (tile_first gen) ->
  entry_time gen e s !!! (2 * Z.to_nat (entry_pos e))%nat = entry_val e.
Proof.
  intros Hle Hs Hpos. unfold entry_time.
  destruct (insert_even_even gen (entry_pos e) (entry_val e) s
              (Z.to_nat (entry_pos e)) Hle Hs ltac:(lia)) as [_ ->].
  rewrite decide_True by lia. done.
Qed.
End insert_even.

(** ** The ranks of the copies and the synchronisations *)

Section ranks.
Local Open Scope Z_scope.
Implicit Types (gen : gpu_gen) (group g : gpu_array_ref_group).

(** The converse of [group_entries_cases] for the read. *)
Lemma group_entries_read gen g k s :
  copy_in g = true ->
  {| entry_kind_of := Copy true g;
     entry_pos := last_shared g + 1 - Z.of_nat (tile_first gen);
     entry_val := -2 - k |}
  ∈ add_group_schedule gen (add_group_schedule gen [] g false k s)
      g true k s.
Proof.
  intros Hin. rewrite add_group_schedule_app.
  apply elem_of_app. right.
  unfold add_group_schedule, add_sync_schedule. rewrite Hin. cbn [negb app].
  destruct (negb (has_tile (private_tile g)));
    [apply list_elem_of_here|apply list_elem_of_here].
Qed.

(** The element with number [k] of a filtered list: [k] counts the
    elements before it that pass the filter. *)
Lemma filter_lookup_index {A} (P : A -> Prop) `{forall x, Decision (P x)}
    (l : list A) (k : nat) x :
  filter P l !! k = Some x ->
  exists j : nat,
    l !! j = Some x /\ k = length (filter P (take j l)) /\
    (k <= j < length l)%nat.
Proof.
  revert k. induction l as [|a l IH]; intros k Hk; [done|].
  destruct (decide (P a)) as [Ha|Ha].
  - rewrite filter_cons_True in Hk by done.
    destruct k as [|k].
    + exists 0%nat. cbn in *. split; [done|]. split; [done|lia].
    + destruct (IH k Hk) as (j & Hj & Hlen & Hle).
      exists (S j). cbn [lookup take]. split; [done|].
      rewrite filter_cons_True by done. cbn [length]. split; [lia|].
      cbn. lia.
  - rewrite filter_cons_False in Hk by done.
    destruct (IH k Hk) as (j & Hj & Hlen & Hle).
    exists (S j). cbn [lookup take]. split; [done|].
    rewrite filter_cons_False by done. split; [done|]. cbn. lia.
Qed.
End ranks.

(** C1 (as amended).  [body_schedule] counts all the array reference
    groups of the kernel in [s], but numbers only the groups that hold
    a private or a shared tile: the number [k] of such a group is the
    number of groups with a tile that come before it in encounter
    order, which is at most its position [j] among all the groups.
    In the schedule of a point of the shared tile loops, the even
    coordinate at the level of a group with number [k] (the rank) is
    [-2 - k], which is negative, for its read entry, [1 + k], in
    [1..s], for its write entry if the group holds a private tile, and
    [s + 2 + k], in [s+2..2s+1], for its write entry if it only holds
    a shared tile; the entries are there when there is something to
    copy in or out.  The synchronisation after a write has rank
    [2s + 2] at the level of the write, and it is there for every
    write that is not at the outermost level and is not a write from
    private memory at the innermost level.  The other
    synchronisations have rank [-1] and [1 + s] at the innermost
    level, and the even coordinates of the kernel body are 0. *)
Theorem body_schedule_ranks gen pt :
  let s := total_groups (kernel gen) in
  let n := (Z.of_nat (shared_len gen) - Z.of_nat (tile_first gen))%Z in
  let level group :=
    (last_shared group + 1 - Z.of_nat (tile_first gen))%Z in
  let rank e := entry_time gen e pt !!! (2 * Z.to_nat (entry_pos e)) in
  let tiled group :=
    has_tile (private_tile group) || has_tile (shared_tile group) = true in
  tile_first gen <= shared_len gen ->
  length pt = shared_len gen ->
  (forall group, group ∈ tiled_groups (kernel gen) ->
     (0 <= level group <= n)%Z) ->
  (forall e, e ∈ body_schedule gen ->
     match entry_kind_of e with
     | Body =>
         forall i, (Z.of_nat i <= n)%Z -> entry_time gen e pt !!! (2 * i) = 0%Z
     | Copy read group =>
         exists k : nat,
           tiled_groups (kernel gen) !! k = Some group /\
           (Z.of_nat k < s)%Z /\ entry_pos e = level group /\
           if read then
             rank e = (-2 - Z.of_nat k)%Z /\ (rank e < 0)%Z
           else if has_tile (private_tile group) then
             rank e = (1 + Z.of_nat k)%Z /\ (1 <= rank e <= s)%Z
           else
             has_tile (shared_tile group) = true /\
             rank e = (s + 2 + Z.of_nat k)%Z /\
             (s + 2 <= rank e <= 2 * s + 1)%Z
     | Sync =>
         (entry_pos e = n /\ rank e = (-1)%Z) \/
         (entry_pos e = n /\ rank e = (1 + s)%Z) \/
         (rank e = (2 * s + 2)%Z /\
          exists w group,
            w ∈ body_schedule gen /\
            entry_kind_of w = Copy false group /\
            entry_pos w = entry_pos e)
     end) /\
  (forall (k : nat) group,
     tiled_groups (kernel gen) !! k = Some group ->
     (exists j : nat,
        kernel_groups (kernel gen) !! j = Some group /\
        k = length (filter tiled (take j (kernel_groups (kernel gen)))) /\
        k <= j /\ (Z.of_nat j < s)%Z) /\
     (copy_in group = true ->
      exists r, r ∈ body_schedule gen /\
        entry_kind_of r = Copy true group /\ entry_pos r = level group /\
        rank r = (-2 - Z.of_nat k)%Z) /\
     (copy_out group = true ->
      exists w, w ∈ body_schedule gen /\
        entry_kind_of w = Copy false group /\ entry_pos w = level group /\
        rank w = if has_tile (private_tile group) then (1 + Z.of_nat k)%Z
                 else (s + 2 + Z.of_nat k)%Z) /\
     (copy_out group = true -> level group <> 0%Z ->
      ~ (level group = n /\ has_tile (private_tile group) = true) ->
      exists y, y ∈ body_schedule gen /\
        entry_kind_of y = Sync /\ entry_pos y = level group /\
        rank y = (2 * s + 2)%Z)).
Proof.
  intros s n level rank tiled Hle Hpt Hlev.
  assert (Hrank : forall e, (0 <= entry_pos e <= n)%Z -> rank e = entry_val e).
  { intros e He. by apply entry_time_rank. }
  assert (Hn : (0 <= n)%Z) by (subst n; lia).
  assert (Hgroup : forall (k : nat) g,
            tiled_groups (kernel gen) !! k = Some g ->
            (0 <= level g <= n)%Z /\ (Z.of_nat k < s)%Z /\
            has_tile (private_tile g) || has_tile (shared_tile g) = true).
  { intros k g Hk. split.
    - apply Hlev. by apply list_elem_of_lookup_2 in Hk.
    - by apply tiled_groups_lookup. }
  split.
  - intros e He. apply body_schedule_entry in He. fold s in He.
    destruct He as [->|[(k & g & Hk & He)| ->]].
    + cbn [entry_kind_of]. intros i Hi. unfold entry_time.
      destruct (insert_even_even gen (-1) 0 pt i Hle Hpt ltac:(lia))
        as [_ Hv].
      cbn [entry_pos entry_val]. rewrite Hv. by case_decide.
    + destruct (Hgroup k g Hk) as (Hpos & Hlt & Htile).
      apply group_entries_cases in He. fold n in He.
      fold (level g) in He.
      destruct He as [(Hout & ->)|[(Hout & H0 & Hnn & ->)|
                      [(Hin & ->)|(Hin & Hp & ->)]]];
        cbn [entry_kind_of].
      * exists k. split; [done|]. split; [done|]. split; [done|].
        rewrite Hrank by done. cbn [entry_val].
        destruct (has_tile (private_tile g)); cbn in Htile |- *; [lia|].
        split; [done|]. lia.
      * right. right. rewrite Hrank by done. split; [done|].
        exists {| entry_kind_of := Copy false g;
                  entry_pos := level g;
                  entry_val := if has_tile (private_tile g)
                               then 1 + Z.of_nat k
                               else 1 + s + 1 + Z.of_nat k |}%Z, g.
        split; [|done].
        apply body_schedule_entry. right. left. exists k, g.
        split; [done|]. by apply group_entries_write.
      * exists k. split; [done|]. split; [done|]. split; [done|].
        rewrite Hrank by done. cbn [entry_val]. lia.
      * left. rewrite Hrank by (cbn [entry_pos]; lia). done.
    + cbn [entry_kind_of]. right. left.
      rewrite Hrank by (cbn [entry_pos]; lia). done.
  - intros k g Hk. destruct (Hgroup k g Hk) as (Hpos & Hlt & Htile).
    split; [|split; [|split]].
    + destruct (filter_lookup_index tiled (kernel_groups (kernel gen)) k g Hk)
        as (j & Hj & Hcount & Hkj).
      exists j. split; [done|]. split; [done|]. split; [lia|].
      unfold s, total_groups. lia.
    + intros Hin.
      exists {| entry_kind_of := Copy true g; entry_pos := level g;
                entry_val := -2 - Z.of_nat k |}%Z.
      split; [|split; [done|split; [done|by rewrite Hrank]]].
      apply body_schedule_entry. right. left. exists k, g.
      split; [done|]. by apply group_entries_read.
    + intros Hout.
      exists {| entry_kind_of := Copy false g; entry_pos := level g;
                entry_val := if has_tile (private_tile g)
                             then 1 + Z.of_nat k
                             else 1 + s + 1 + Z.of_nat k |}%Z.
      split; [|split; [done|split; [done|]]].
      * apply body_schedule_entry. right. left. exists k, g.
        split; [done|]. by apply group_entries_write.
      * rewrite Hrank by done. cbn [entry_val].
        destruct (has_tile (private_tile g)); lia.
    + intros Hout H0 Hnn.
      exists {| entry_kind_of := Sync; entry_pos := level g;
                entry_val := 2 * s + 2 |}%Z.
      split; [|split; [done|split; [done|by rewrite Hrank]]].
      apply body_schedule_entry. right. left. exists k, g.
      split; [done|]. by apply group_entries_write.
Qed.

Lemma body_schedule_ranks_witness :
  let g0 := {| group_name := "A"; private_tile := None;
               shared_tile := None;
               last_shared := 0; copy_in := true; copy_out := true;
               private_pieces := [] |} in
  let g1 := {| group_name := "B"; private_tile := None;
               shared_tile := Some (GpuArrayTile [8]%Z);
               last_shared := 0; copy_in := true; copy_out := true;
               private_pieces := [] |} in
  let gen :=
    {| kernel := set_array ppcg_kernel_calloc
                   [{| array_size := 4; groups := [g0; g1];
                       force_private := false |}];
       tile_first := 0; shared_len := 2; thread_tiled_len := 4;
       first_unroll := (-1)%Z |} in
  exists w,
    w ∈ body_schedule gen /\
    entry_kind_of w = Copy false g1 /\ entry_pos w = 1%Z /\
    entry_time gen w [5; 7]%Z !!! (2 * Z.to_nat (entry_pos w)) = 4%Z.
Proof.
  intros g0 g1 gen.
  assert (Hlev : forall group, group ∈ tiled_groups (kernel gen) ->
            (0 <= last_shared group + 1 - Z.of_nat (tile_first gen)
               <= Z.of_nat (shared_len gen) - Z.of_nat (tile_first gen))%Z).
  { intros group Hg. apply list_elem_of_singleton in Hg as ->.
    vm_compute. split; discriminate. }
  destruct (body_schedule_ranks gen [5; 7]%Z ltac:(vm_compute; lia)
              eq_refl Hlev) as [_ Hgroups].
  destruct (Hgroups 0%nat g1 eq_refl) as (_ & _ & Hwrite & _).
  exact (Hwrite eq_refl).
Defined.

(** C1, counterexample.  A kernel with three groups, of which the first
    holds no tile, the second a private tile and the third a shared
    tile: [s] is 3, the second group gets number 0 and the third
    number 1.  The write of the second group has rank 1, not
    [1 + 1], and the write of the third group has rank 6, which is
    neither [3 + 2 + 2], with the three groups numbered 0 to 2, nor
    [2 + 2 + 1], with the two groups that are scheduled numbered 0
    and 1. *)
Lemma body_schedule_untiled_group :
  let g0 := {| group_name := "A"; private_tile := None;
               shared_tile := None;
               last_shared := 0; copy_in := true; copy_out := true;
               private_pieces := [] |} in
  let g1 := {| group_name := "B"; private_tile := Some (GpuArrayTile [1]%Z);
               shared_tile := None;
               last_shared := 1; copy_in := true; copy_out := true;
               private_pieces := [] |} in
  let g2 := {| group_name := "C"; private_tile := None;
               shared_tile := Some (GpuArrayTile [8]%Z);
               last_shared := 0; copy_in := true; copy_out := true;
               private_pieces := [] |} in
  let gen :=
    {| kernel := set_array ppcg_kernel_calloc
                   [{| array_size := 4; groups := [g0; g1; g2];
                       force_private := false |}];
       tile_first := 0; shared_len := 2; thread_tiled_len := 4;
       first_unroll := (-1)%Z |} in
  let rank e :=
    entry_time gen e [5; 7]%Z !!! (2 * Z.to_nat (entry_pos e)) in
  kernel_groups (kernel gen) = [g0; g1; g2] /\
  map (fun e => (entry_kind_of e, entry_pos e, rank e)) (body_schedule gen)
  = [ (Body, -1, 0); (Copy false g1, 2, 1); (Copy true g1, 2, -2);
      (Copy false g2, 1, 6); (Sync, 1, 8); (Copy true g2, 1, -3);
      (Sync, 2, -1); (Sync, 2, 4) ]%Z /\
  (1 <> 1 + 1)%Z /\ (6 <> 3 + 2 + 2)%Z /\ (6 <> 2 + 2 + 1)%Z.
Proof. vm_compute. split_and!; done. Qed.

(** * Further properties *)

(** ** Reading sizes *)

Section reading_sizes.
Implicit Types (vals sizes : list Z) (i j len : nat).

Lemma write_sizes_spec vals sizes i len :
  i + len <= length vals ->
  length (write_sizes vals sizes i len) = length sizes /\
  forall j,
    write_sizes vals sizes i len !! j =
    if decide (i <= j < i + len /\ j < length sizes)
    then (fun v => to_int (isl_val_get_num_si v)) <$> vals !! j
    else sizes !! j.
Proof.
  revert sizes i. induction len as [|len IH]; intros sizes i Hlen.
  - split; [done|]. intros j. rewrite decide_False by lia. done.
  - cbn [write_sizes].
    destruct (vals !! i) as [v|] eqn:Hv.
    2:{ apply lookup_ge_None in Hv. lia. }
    destruct (IH (<[i := to_int (isl_val_get_num_si v)]> sizes) (S i)
                ltac:(lia)) as [Hl Hj].
    rewrite length_insert in Hl, Hj. split; [done|].
    intros j. rewrite Hj.
    destruct (decide (j = i)) as [->|Hne].
    + rewrite decide_False by lia.
      destruct (decide (i < length sizes)) as [Hi|Hi].
      * rewrite list_lookup_insert_eq by done.
        rewrite decide_True by lia. by rewrite Hv.
      * rewrite list_insert_ge by lia. rewrite decide_False by lia. done.
    + rewrite list_lookup_insert_ne by done.
      repeat case_decide; (done || lia).
Qed.

(** What an [int] holds, and the values that it keeps. *)
Lemma to_int_range v : (int_min <= to_int v <= int_max)%Z.
Proof.
  unfold to_int, int_min, int_max.
  pose proof (Z.mod_pos_bound (v - - 2 ^ 31) (2 ^ 32) ltac:(lia)). lia.
Qed.

Lemma to_int_fits v : (int_min <= v <= int_max)%Z -> to_int v = v.
Proof.
  unfold to_int, int_min, int_max. intros Hv.
  rewrite Z.mod_small by lia. lia.
Qed.

Lemma isl_val_get_num_si_fits v :
  (int_min <= v <= int_max)%Z -> isl_val_get_num_si v = v.
Proof.
  unfold isl_val_get_num_si, int_min, int_max, long_min, long_max.
  intros Hv. by rewrite decide_True by lia.
Qed.
End reading_sizes.

(** The sizes that the user specifies replace the first elements of
    the array, as many as there are dimensions, and lower the number of
    dimensions to the number of sizes that are specified; the other
    elements and the length of the array are kept.  A size is stored
    as an [int]: a size that an [int] can hold is stored as it is, any
    other size is stored as the low 32 bits of its value as a [long],
    which is 0 for a size that a [long] cannot hold.  Without a
    specification nothing changes. *)
Theorem read_sizes_from_set_spec set sizes len :
  let '(sizes', len') := read_sizes_from_set set sizes len in
  length sizes' = length sizes /\
  match set with
  | None => sizes' = sizes /\ len' = len
  | Some vals =>
      len' = Nat.min (length vals) len /\
      (forall i v, i < len' -> i < length sizes -> vals !! i = Some v ->
         sizes' !! i = Some (to_int (isl_val_get_num_si v)) /\
         (int_min <= to_int (isl_val_get_num_si v) <= int_max)%Z /\
         ((int_min <= v <= int_max)%Z -> sizes' !! i = Some v) /\
         (~ (long_min <= v <= long_max)%Z -> sizes' !! i = Some 0%Z)) /\
      (forall i, len' <= i -> sizes' !! i = sizes !! i)
  end.
Proof.
  unfold read_sizes_from_set. destruct set as [vals|]; [|done].
  set (len' := if decide (length vals < len) then length vals else len).
  assert (Hlen : len' = Nat.min (length vals) len)
    by (subst len'; case_decide; lia).
  destruct (write_sizes_spec vals sizes 0 len' ltac:(lia)) as [Hl Hj].
  split; [done|]. split; [done|]. split.
  - intros i v Hi Hs Hv. rewrite Hj, decide_True, Hv by lia.
    cbn [fmap option_fmap option_map].
    split; [done|]. split; [apply to_int_range|]. split.
    + intros Hfit.
      by rewrite isl_val_get_num_si_fits, to_int_fits by done.
    + intros Hbig. unfold isl_val_get_num_si.
      rewrite decide_False by done. done.
  - intros i Hi. rewrite Hj, decide_False by lia. done.
Qed.

(** The default block sizes have 512 threads in all, whatever the
    number of block dimensions (from 1 on), and the default grid sizes
    have 32768 or 65536 blocks. *)
Theorem default_sizes_product kernel :
  1 <= n_block kernel -> 1 <= n_grid kernel ->
  length (block_dim kernel) = 3 -> length (grid_dim kernel) = 2 ->
  let kb := read_block_sizes kernel None in
  let kg := read_grid_sizes kernel None in
  foldr Z.mul 1%Z (take (n_block kb) (block_dim kb)) = 512%Z /\
  (foldr Z.mul 1%Z (take (n_grid kg) (grid_dim kg)) = 32768%Z \/
   foldr Z.mul 1%Z (take (n_grid kg) (grid_dim kg)) = 65536%Z).
Proof.
  intros Hb Hg Hlb Hlg.
  destruct kernel as [id tl np ng nb gd bd arr afp msm bf gs].
  cbn in *.
  destruct bd as [|b0 [|b1 [|b2 [|]]]]; try done.
  destruct gd as [|g0 [|g1 [|]]]; try done.
  unfold read_block_sizes, read_grid_sizes. cbn.
  split.
  - destruct nb as [|[|[|[|nb]]]]; try lia; by cbn.
  - destruct ng as [|[|[|ng]]]; try lia; cbn; auto.
Qed.

Lemma default_sizes_product_witness :
  let kernel := set_grid (set_block ppcg_kernel_calloc [0; 0; 0]%Z 2)
                  [0; 0]%Z 2 in
  foldr Z.mul 1%Z (take (n_block (read_block_sizes kernel None))
                        (block_dim (read_block_sizes kernel None))) = 512%Z.
Proof.
  intros kernel.
  refine (proj1 (default_sizes_product kernel _ _ _ _)).
  - vm_compute. lia.
  - vm_compute. lia.
  - reflexivity.
  - reflexivity.
Defined.

(** ** Dimension counts of a kernel *)

Section outer_coincidence.

Lemma count_outer_le (flags : list bool) :
  count_outer flags <= length flags.
Proof.
  induction flags as [|[] flags IH]; cbn [count_outer length]; lia.
Qed.

End outer_coincidence.

(** [n_outer_coincidence] returns the length of the longest prefix of
    coincident members of the band: at most the number of members, all
    the members before it are coincident and the member at that
    position, if there is one, is not. *)
Theorem n_outer_coincidence_spec node :
  let n := n_outer_coincidence node in
  n <= band_n_member node /\
  (forall i, i < n -> coincident node !! i = Some true) /\
  (n < band_n_member node -> coincident node !! n = Some false).
Proof.
  unfold n_outer_coincidence, band_n_member. cbn zeta.
  induction (coincident node) as [|[] flags IH]; cbn [count_outer length].
  - split; [lia|]. split; intros; lia.
  - destruct IH as (Hle & Htrue & Hfalse). split; [lia|]. split.
    + intros [|i] Hi; [done|]. cbn. apply Htrue. lia.
    + intros Hlt. cbn. apply Hfalse. lia.
  - split; [lia|]. split; [intros; lia|done].
Qed.

Section kernel_counts.
Implicit Types (kernel : ppcg_kernel) (sizes : option sizes_map).

Lemma read_block_sizes_fields kernel sizes :
  let k := read_block_sizes kernel sizes in
  tile_len k = tile_len kernel /\ n_parallel k = n_parallel kernel /\
  array k = array kernel /\ max_shared_memory k = max_shared_memory kernel.
Proof.
  cbn zeta. unfold read_block_sizes.
  destruct (read_sizes_from_set _ _ _). done.
Qed.

Lemma read_grid_sizes_fields kernel sizes :
  let k := read_grid_sizes kernel sizes in
  tile_len k = tile_len kernel /\ n_parallel k = n_parallel kernel /\
  array k = array kernel /\ max_shared_memory k = max_shared_memory kernel.
Proof.
  cbn zeta. unfold read_grid_sizes.
  destruct (read_sizes_from_set _ _ _). done.
Qed.

Lemma n_grid_read_sizes_le kernel sizes :
  n_grid (read_grid_and_block_sizes kernel sizes) <= n_grid kernel.
Proof.
  unfold read_grid_and_block_sizes. rewrite n_grid_read_grid_sizes.
  destruct (read_block_sizes_keeps kernel sizes) as [-> _].
  destruct (extract_sizes _ _ _); lia.
Qed.

End kernel_counts.

(** The kernel that [create_kernel] fills in has no more grid
    dimensions than parallel dimensions and no more parallel dimensions
    than tiled dimensions, its effective grid size has one entry for
    each grid dimension, and the arrays and the options that it was
    allocated with are kept. *)
Theorem create_kernel_counts kernel kernel_id sizes node node_thread dom :
  let k := create_kernel kernel kernel_id sizes node node_thread dom in
  n_grid k <= n_parallel k /\ n_parallel k <= tile_len k /\
  tile_len k = band_n_member node /\
  length (grid_size k) = n_grid k /\
  k_id k = kernel_id /\ array k = array kernel /\
  max_shared_memory k = max_shared_memory kernel.
Proof.
  cbn zeta. unfold create_kernel.
  set (k0 := {| k_id := kernel_id; tile_len := band_n_member node;
                n_parallel := n_outer_coincidence node;
                n_grid := n_outer_coincidence node;
                n_block := n_outer_coincidence node_thread;
                grid_dim := grid_dim kernel; block_dim := block_dim kernel;
                array := array kernel;
                any_force_private := any_force_private kernel;
                max_shared_memory := max_shared_memory kernel;
                block_filter := block_filter kernel;
                grid_size := grid_size kernel |}).
  set (k1 := read_grid_and_block_sizes k0 sizes).
  cbn [n_grid n_parallel tile_len grid_size set_grid_size set_block_filter
       k_id array max_shared_memory].
  unfold extract_grid_size, extract_size.
  rewrite length_map, length_seq.
  cbn [n_grid set_block_filter].
  pose proof (n_grid_read_sizes_le k0 sizes) as Hgrid. fold k1 in Hgrid.
  destruct (read_block_sizes_fields k0 sizes) as (Ht1 & Hp1 & Ha1 & Hm1).
  destruct (read_grid_sizes_fields (read_block_sizes k0 sizes) sizes)
    as (Ht2 & Hp2 & Ha2 & Hm2).
  destruct (read_block_sizes_keeps k0 sizes) as [_ Hi1].
  destruct (read_grid_sizes_keeps (read_block_sizes k0 sizes) sizes)
    as [_ Hi2].
  fold (read_grid_and_block_sizes k0 sizes) in Ht2, Hp2, Ha2, Hm2, Hi2.
  fold k1 in Ht2, Hp2, Ha2, Hm2, Hi2.
  rewrite Ht2, Hp2, Ha2, Hm2, Hi2, Ht1, Hp1, Ha1, Hm1, Hi1.
  subst k0. cbn [n_grid n_parallel tile_len k_id array max_shared_memory] in *.
  pose proof (count_outer_le (coincident node)) as Hle.
  unfold n_outer_coincidence, band_n_member in *.
  split_and!; (done || lia).
Qed.

(** A grid dimension has no effective size exactly when no instance of
    the domain passes the block filter. *)
Theorem extract_grid_size_undefined kernel domain i :
  i < n_grid kernel ->
  extract_grid_size kernel domain !! i = Some None <->
  forall x, x ∈ domain -> block_filter kernel x = [].
Proof.
  intros Hi. unfold extract_grid_size.
  rewrite extract_size_lookup by done.
  set (grid := concat (map (block_filter kernel) domain)).
  assert (Hgrid : grid = [] <-> forall x, x ∈ domain -> block_filter kernel x = []).
  { subst grid. induction domain as [|x dom IH]; cbn [map concat].
    - split; [intros _ y Hy; by apply elem_of_nil in Hy|done].
    - split.
      + intros H. apply app_eq_nil in H as [H1 H2].
        intros y Hy. apply elem_of_cons in Hy as [->|Hy]; [done|].
        by apply IH.
      + intros H. rewrite (H x) by (apply elem_of_cons; by left). cbn.
        apply IH. intros y Hy. apply H. apply elem_of_cons; by right. }
  rewrite <- Hgrid.
  destruct grid as [|p ps]; cbn; [done|].
  split; [done|]. intros; done.
Qed.

Lemma extract_grid_size_undefined_witness :
  extract_grid_size (set_grid ppcg_kernel_calloc [0; 0]%Z 1) [] !! 0
  = Some None.
Proof.
  apply (extract_grid_size_undefined (set_grid ppcg_kernel_calloc [0; 0]%Z 1)
           [] 0).
  - cbn. lia.
  - intros x Hx. by apply elem_of_nil in Hx.
Defined.

(** ** More on the shared-memory budget *)

Section budget_again.
Implicit Types (group g : gpu_array_ref_group) (left e : Z).
Implicit Types (local : gpu_local_array_info).

Lemma map_accum_fixed {A S} (f : S -> A -> S * A) s (l : list A) :
  (forall s a, f s (f s a).2 = f s a) ->
  map_accum f s (map_accum f s l).2 = map_accum f s l.
Proof.
  intros Hf. revert s. induction l as [|a l IH]; intros s; [done|].
  cbn [map_accum].
  destruct (f s a) as [s1 b] eqn:Hfa.
  destruct (map_accum f s1 l) as [s2 bs] eqn:Hl.
  cbn [snd map_accum].
  specialize (Hf s a). rewrite Hfa in Hf. cbn [snd] in Hf. rewrite Hf.
  specialize (IH s1). rewrite Hl in IH. cbn [snd] in IH. rewrite IH. done.
Qed.

Lemma check_group_fixed e left g :
  check_group e left (check_group e left g).2 = check_group e left g.
Proof.
  unfold check_group.
  destruct (private_tile g) eqn:Hp; cbn [snd]; [by rewrite Hp|].
  destruct (shared_tile g) eqn:Hs; cbn [snd]; [|by rewrite Hp, Hs].
  case_decide as Hfit; cbn [snd].
  - rewrite Hp, Hs. by rewrite decide_True.
  - cbn [private_tile shared_tile set_shared_tile]. by rewrite Hp.
Qed.

Lemma check_local_array_fixed left local :
  check_local_array left (check_local_array left local).2
  = check_local_array left local.
Proof.
  unfold check_local_array.
  destruct (map_accum _ left (groups local)) as [left' gs] eqn:Hgs.
  cbn [snd set_groups groups array_size].
  pose proof (map_accum_fixed (check_group (array_size local)) left
                (groups local) (check_group_fixed (array_size local))) as Hfix.
  rewrite Hgs in Hfix. cbn [snd] in Hfix. rewrite Hfix. done.
Qed.

Lemma check_group_kept_or_demoted e left g :
  group_kept_or_demoted g (check_group e left g).2.
Proof.
  rewrite check_group_decision. unfold group_kept_or_demoted.
  destruct (in_shared g); [|by left].
  case_decide; [by left|by right].
Qed.

Lemma map_accum_Forall2 {A B S} (R : A -> B -> Prop)
    (f : S -> A -> S * B) s (l : list A) :
  (forall s a, R a (f s a).2) -> Forall2 R l (map_accum f s l).2.
Proof.
  intros Hf. revert s. induction l as [|a l IH]; intros s; cbn [map_accum].
  - constructor.
  - specialize (Hf s a). destruct (f s a) as [s1 b].
    specialize (IH s1). destruct (map_accum f s1 l) as [s2 bs].
    by constructor.
Qed.

End budget_again.

(** [check_shared_memory_bound] only ever removes shared tiles of
    groups that are mapped to shared memory: the arrays, their element
    sizes and marks, the groups and their private tiles are kept, and so
    are all the other fields of the kernel.  With a negative
    [max_shared_memory] (no limit) the kernel is not changed at all. *)
Theorem check_shared_memory_bound_only_demotes kernel :
  let kernel' := check_shared_memory_bound kernel in
  Forall2 array_kept_or_demoted (array kernel) (array kernel') /\
  set_array kernel' (array kernel) = kernel /\
  ((max_shared_memory kernel < 0)%Z -> kernel' = kernel).
Proof.
  cbn zeta. unfold check_shared_memory_bound.
  case_decide as Hneg.
  - split_and!; [|by destruct kernel|done].
    apply Forall2_same_length_lookup_2; [done|].
    intros i a a' Ha Ha'. assert (a' = a) as -> by congruence.
    split_and!; [done..|].
    apply Forall2_same_length_lookup_2; [done|].
    intros j g g' Hg Hg'. left. congruence.
  - pose proof (map_accum_Forall2 array_kept_or_demoted check_local_array
                  (max_shared_memory kernel) (array kernel)) as Hall.
    destruct (map_accum check_local_array _ (array kernel)) as [left' arrays].
    cbn [snd] in Hall. cbn [array set_array].
    split_and!; [|by destruct kernel|lia].
    apply Hall. intros left local. unfold check_local_array.
    pose proof (map_accum_Forall2 group_kept_or_demoted
                  (check_group (array_size local)) left (groups local)
                  (check_group_kept_or_demoted (array_size local))) as Hgs.
    destruct (map_accum _ left (groups local)) as [left1 gs].
    cbn [snd] in *. done.
Qed.

(** Running [check_shared_memory_bound] a second time changes nothing:
    the groups that were kept take the same amounts from the same
    budget and fit again. *)
Theorem check_shared_memory_bound_idempotent kernel :
  check_shared_memory_bound (check_shared_memory_bound kernel)
  = check_shared_memory_bound kernel.
Proof.
  unfold check_shared_memory_bound at 2 3.
  case_decide as Hneg.
  - unfold check_shared_memory_bound. by rewrite decide_True.
  - pose proof (map_accum_fixed check_local_array (max_shared_memory kernel)
                  (array kernel) check_local_array_fixed) as Hfix.
    destruct (map_accum check_local_array _ (array kernel))
      as [left' arrays] eqn:Harr.
    cbn [snd] in Hfix.
    unfold check_shared_memory_bound.
    cbn [max_shared_memory set_array array].
    rewrite decide_False by done. rewrite Hfix. done.
Qed.

(** When no group of the kernel has a private tile, the groups that
    still hold a shared tile after [check_shared_memory_bound] fit
    together in the budget. *)
Theorem check_shared_memory_bound_no_private kernel :
  (0 <= max_shared_memory kernel)%Z ->
  Forall (fun eg => private_tile eg.2 = None) (sized_groups kernel) ->
  (total_footprint holds_shared_tile
     (sized_groups (check_shared_memory_bound kernel))
   <= max_shared_memory kernel)%Z.
Proof.
  intros Hmax Hpriv.
  rewrite sized_groups_check by done.
  pose proof (check_sized_groups_left (max_shared_memory kernel)
                (sized_groups kernel) Hmax) as Hleft.
  assert (Hkeep : forall left l,
    Forall (fun eg => private_tile eg.2 = None) l ->
    Forall (fun eg : Z * gpu_array_ref_group => private_tile eg.2 = None)
           (map_accum check_sized_group left l).2).
  { intros left l. revert left.
    induction l as [|[e g] l IH]; intros left Hl; cbn [map_accum].
    - constructor.
    - apply Forall_cons in Hl as [Hg Hl].
      unfold check_sized_group at 1. cbn [fst snd] in *.
      pose proof (check_group_decision e left g) as Hdec.
      destruct (check_group e left g) as [left1 g1]. cbn [snd] in Hdec.
      specialize (IH left1 Hl).
      destruct (map_accum check_sized_group left1 l) as [left2 l2].
      cbn [snd] in *. constructor; [|done]. cbn [snd]. subst g1.
      destruct (in_shared g); [|done]. by case_decide. }
  specialize (Hkeep (max_shared_memory kernel) _ Hpriv).
  destruct (map_accum check_sized_group _ (sized_groups kernel))
    as [left' l']. cbn [snd] in *.
  destruct Hleft as [Hpos Htotal].
  assert (Heq : total_footprint holds_shared_tile l'
                = total_footprint in_shared l').
  { clear Htotal. induction l' as [|[e g] l' IH]; [done|].
    apply Forall_cons in Hkeep as [Hg Hl]. cbn [snd] in Hg.
    cbn [total_footprint foldr fst snd].
    fold (total_footprint holds_shared_tile l').
    fold (total_footprint in_shared l').
    rewrite (IH Hl). unfold holds_shared_tile, in_shared. rewrite Hg.
    by destruct (shared_tile g). }
  rewrite Heq, Htotal. lia.
Qed.

Lemma check_shared_memory_bound_no_private_witness :
  let g := {| group_name := "A"; private_tile := None;
              shared_tile := Some (GpuArrayTile [8; 8]%Z);
              last_shared := 0; copy_in := true; copy_out := true;
              private_pieces := [] |} in
  let kernel :=
    {| k_id := 0; tile_len := 0; n_parallel := 0; n_grid := 0; n_block := 0;
       grid_dim := [0; 0]%Z; block_dim := [0; 0; 0]%Z;
       array := [{| array_size := 4; groups := [g; g; g];
                    force_private := false |}];
       any_force_private := false; max_shared_memory := 600%Z;
       block_filter := fun _ => []; grid_size := [] |} in
  (total_footprint holds_shared_tile
     (sized_groups (check_shared_memory_bound kernel)) <= 600)%Z.
Proof.
  intros g kernel.
  apply (check_shared_memory_bound_no_private kernel).
  - cbn. lia.
  - repeat constructor.
Defined.

(** ** The dimensions to unroll *)

Section unroll_marks.
Implicit Types (unroll u : list bool) (i j : nat).

Lemma foldl_marks {A} (F : A -> list bool -> list bool)
    (Q : A -> nat -> Prop) (l : list A) u i :
  (forall a u, a ∈ l ->
     length (F a u) = length u /\
     (F a u !! i = Some true <->
      u !! i = Some true \/ (i < length u /\ Q a i))) ->
  length (foldl (fun u a => F a u) u l) = length u /\
  (foldl (fun u a => F a u) u l !! i = Some true <->
   u !! i = Some true \/ (i < length u /\ exists a, a ∈ l /\ Q a i)).
Proof.
  revert u. induction l as [|a l IH]; intros u HF; cbn [foldl].
  - split; [done|]. split; [by left|].
    intros [H|(_ & a & Ha & _)]; [done|]. by apply elem_of_nil in Ha.
  - destruct (HF a u) as [Hlen Ha]; [apply elem_of_cons; by left|].
    destruct (IH (F a u)) as [Hlen' Hl].
    { intros b v Hb. apply HF. apply elem_of_cons. by right. }
    split; [congruence|]. rewrite Hl, Ha, Hlen. split.
    + intros [[H|(Hi & HQ)]|(Hi & b & Hb & HQ)].
      * by left.
      * right. split; [done|]. exists a. split; [|done].
        apply elem_of_cons. by left.
      * right. split; [done|]. exists b. split; [|done].
        apply elem_of_cons. by right.
    + intros [H|(Hi & b & Hb & HQ)]; [by left; left|].
      apply elem_of_cons in Hb as [->|Hb].
      * left. right. done.
      * right. split; [done|]. by exists b.
Qed.

Lemma mark_dim (P : bool) u i j :
  length (if P then <[j := true]> u else u) = length u /\
  ((if P then <[j := true]> u else u) !! i = Some true <->
   u !! i = Some true \/ (i < length u /\ j = i /\ P = true)).
Proof.
  destruct P.
  - rewrite length_insert. split; [done|].
    destruct (decide (j = i)) as [->|Hne].
    + destruct (decide (i < length u)) as [Hi|Hi].
      * rewrite list_lookup_insert_eq by done. split; [by right|done].
      * rewrite list_insert_ge by lia. split; [by left|].
        intros [H|(? & _)]; [done|lia].
    + rewrite list_lookup_insert_ne by done. split; [by left|].
      intros [H|(_ & ? & _)]; done.
  - split; [done|]. split; [by left|]. intros [H|(_ & _ & ?)]; done.
Qed.

Lemma check_unroll_spec ma unroll i :
  length (check_unroll ma unroll) = length unroll /\
  (check_unroll ma unroll !! i = Some true <->
   unroll !! i = Some true \/
   (i < length unroll /\
    exists aff, aff ∈ ma_affs ma /\
      i < ma_n_in ma /\ isl_aff_involves_dims aff i = true)).
Proof.
  unfold check_unroll.
  apply (foldl_marks
    (fun aff u =>
       foldl (fun u j =>
                if isl_aff_involves_dims aff j then <[j := true]> u else u)
             u (seq 0 (ma_n_in ma)))
    (fun aff i => i < ma_n_in ma /\ isl_aff_involves_dims aff i = true)).
  intros aff u _.
  destruct (foldl_marks
    (fun j u => if isl_aff_involves_dims aff j then <[j := true]> u else u)
    (fun j i => j = i /\ isl_aff_involves_dims aff j = true)
    (seq 0 (ma_n_in ma)) u i) as [Hlen Hi].
  { intros j v _. apply mark_dim. }
  split; [done|]. rewrite Hi. split.
  - intros [H|(Hlt & j & Hj & -> & Hinv)]; [by left|].
    apply elem_of_seq in Hj. right. split; [done|]. split; [lia|done].
  - intros [H|(Hlt & Hn & Hinv)]; [by left|].
    right. split; [done|]. exists i. split; [|done].
    apply elem_of_seq. lia.
Qed.

(** The loops over the arrays and their groups, from any array
    [unroll]. *)
Lemma private_unroll_loop (arrays : list gpu_local_array_info) u0 i :
  let unroll :=
    foldl (fun unroll array_ =>
      foldl (fun unroll group =>
        match private_tile group with
        | None => unroll
        | Some _ =>
            foldl (fun unroll ma => check_unroll ma unroll)
                  unroll (private_pieces group)
        end)
        unroll (groups array_))
      u0 arrays in
  length unroll = length u0 /\
  (unroll !! i = Some true <->
   u0 !! i = Some true \/
   (i < length u0 /\
    exists local group ma aff,
      local ∈ arrays /\ group ∈ groups local /\
      private_tile group <> None /\ ma ∈ private_pieces group /\
      aff ∈ ma_affs ma /\ i < ma_n_in ma /\ aff_coeffs aff !!! i <> 0%Z)).
Proof.
  cbv zeta.
  destruct (foldl_marks
    (fun array_ u =>
       foldl (fun unroll group =>
         match private_tile group with
         | None => unroll
         | Some _ => foldl (fun unroll ma => check_unroll ma unroll)
                       unroll (private_pieces group)
         end) u (groups array_))
    (fun local i => exists group ma aff,
       group ∈ groups local /\
       private_tile group <> None /\ ma ∈ private_pieces group /\
       aff ∈ ma_affs ma /\ i < ma_n_in ma /\ aff_coeffs aff !!! i <> 0%Z)
    arrays u0 i)
    as [Hlen Hi].
  { intros local u _.
    destruct (foldl_marks
      (fun group u =>
         match private_tile group with
         | None => u
         | Some _ => foldl (fun unroll ma => check_unroll ma unroll)
                       u (private_pieces group)
         end)
      (fun group i => exists ma aff,
         private_tile group <> None /\ ma ∈ private_pieces group /\
         aff ∈ ma_affs ma /\ i < ma_n_in ma /\ aff_coeffs aff !!! i <> 0%Z)
      (groups local) u i) as [Hlen Hi].
    { intros group v _. destruct (private_tile group) as [t|].
      - destruct (foldl_marks check_unroll
          (fun ma i => exists aff, aff ∈ ma_affs ma /\
             i < ma_n_in ma /\ isl_aff_involves_dims aff i = true)
          (private_pieces group) v i) as [Hlen Hi].
        { intros ma w _. apply check_unroll_spec. }
        split; [done|]. rewrite Hi. split.
        + intros [H|(Hlt & ma & Hma & aff & Haff & Hn & Hinv)]; [by left|].
          right. split; [done|]. exists ma, aff.
          apply bool_decide_eq_true in Hinv. done.
        + intros [H|(Hlt & ma & aff & _ & Hma & Haff & Hn & Hinv)];
            [by left|].
          right. split; [done|]. exists ma. split; [done|]. exists aff.
          split_and!; [done..|]. by apply bool_decide_eq_true.
      - split; [done|]. split; [by left|].
        intros [H|(_ & ma & aff & Hp & _)]; done. }
    split; [done|]. rewrite Hi. split.
    - intros [H|(Hlt & group & Hg & ma & aff & H)]; [by left|].
      right. split; [done|]. exists group, ma, aff. tauto.
    - intros [H|(Hlt & group & ma & aff & H)]; [by left|].
      right. split; [done|]. exists group. split; [tauto|].
      exists ma, aff. tauto. }
  split; [done|]. rewrite Hi. split.
  - intros [H|(Hlt & local & Hl & group & ma & aff & H)]; [by left|].
    right. split; [done|]. exists local, group, ma, aff. tauto.
  - intros [H|(Hlt & local & group & ma & aff & Hl & H)]; [by left|].
    right. split; [done|]. exists local. split; [done|].
    exists group, ma, aff. done.
Qed.

End unroll_marks.

(** The first part of [interchange_for_unroll] marks exactly the
    schedule dimensions that have a non-zero coefficient in some affine
    expression of some piece of the index expression of some group with
    a private tile; the groups without a private tile do not
    contribute. *)
Theorem private_unroll_spec gen i :
  length (private_unroll gen) = thread_tiled_len gen /\
  (private_unroll gen !! i = Some true <->
   i < thread_tiled_len gen /\
   exists local group ma aff,
     local ∈ array (kernel gen) /\ group ∈ groups local /\
     private_tile group <> None /\ ma ∈ private_pieces group /\
     aff ∈ ma_affs ma /\ i < ma_n_in ma /\ aff_coeffs aff !!! i <> 0%Z).
Proof.
  unfold private_unroll.
  destruct (private_unroll_loop (array (kernel gen))
              (replicate (thread_tiled_len gen) false) i) as [Hlen Hi].
  rewrite length_replicate in Hlen, Hi. split; [done|].
  rewrite Hi. split.
  - intros [H|H]; [|done].
    apply lookup_replicate in H as [? _]. done.
  - intros H. by right.
Qed.


(** ** The permutation that moves the unrolled dimensions innermost *)

Section unroll_permutation.
Implicit Types (sel : nat -> bool) (perm : list nat) (a m i j : nat).

Lemma count_sel_le sel a m : count_sel sel a m <= m.
Proof.
  revert a. induction m as [|m IH]; intros a; cbn [count_sel]; [lia|].
  specialize (IH (S a)). destruct (sel a); lia.
Qed.

Lemma count_sel_add sel a m k :
  count_sel sel a (m + k) = count_sel sel a m + count_sel sel (a + m) k.
Proof.
  revert a. induction m as [|m IH]; intros a; cbn [count_sel Nat.add].
  - by rewrite Nat.add_0_r.
  - rewrite IH. replace (S a + m) with (a + S m) by lia. lia.
Qed.

Lemma count_sel_S sel a m :
  count_sel sel a (S m)
  = count_sel sel a m + (if sel (a + m) then 1 else 0).
Proof.
  replace (S m) with (m + 1) by lia. rewrite count_sel_add.
  cbn [count_sel]. lia.
Qed.

Lemma count_sel_mono sel a m k :
  m <= k -> count_sel sel a m <= count_sel sel a k.
Proof.
  intros Hle. replace k with (m + (k - m)) by lia.
  rewrite count_sel_add. lia.
Qed.

Lemma count_sel_lt sel a m k :
  m < k -> sel (a + m) = true -> count_sel sel a m < count_sel sel a k.
Proof.
  intros Hlt Hsel.
  pose proof (count_sel_mono sel a (S m) k ltac:(lia)) as Hle.
  rewrite count_sel_S, Hsel in Hle. lia.
Qed.

Lemma count_sel_negb sel a m :
  count_sel sel a m + count_sel (fun i => negb (sel i)) a m = m.
Proof.
  revert a. induction m as [|m IH]; intros a; cbn [count_sel]; [done|].
  specialize (IH (S a)). destruct (sel a); cbn [negb]; lia.
Qed.

Lemma count_sel_none sel a m :
  (forall i, a <= i < a + m -> sel i = false) -> count_sel sel a m = 0.
Proof.
  revert a. induction m as [|m IH]; intros a Hsel; cbn [count_sel]; [done|].
  rewrite (Hsel a) by lia. rewrite IH; [done|]. intros i Hi. apply Hsel. lia.
Qed.

Lemma foldl_fun_ext {A B} (f g : A -> B -> A) (x : A) (l : list B) :
  (forall y b, f y b = g y b) -> foldl f x l = foldl g x l.
Proof.
  intros Hfg. revert x. induction l as [|b l IH]; intros x; [done|].
  cbn [foldl]. by rewrite Hfg, IH.
Qed.

(** A loop that assigns the successive values of a counter to the
    selected positions. *)
Lemma assign_loop sel perm j a m :
  a + m <= length perm ->
  exists perm',
    foldl (fun '(perm, j) i =>
             if sel i then (<[i := j]> perm, S j) else (perm, j))
          (perm, j) (seq a m)
    = (perm', j + count_sel sel a m) /\
    length perm' = length perm /\
    forall i, perm' !! i =
              if decide (a <= i < a + m /\ sel i = true)
              then Some (j + count_sel sel a (i - a))
              else perm !! i.
Proof.
  revert perm j a. induction m as [|m IH]; intros perm j a Hlen.
  - exists perm. cbn [seq foldl count_sel]. rewrite Nat.add_0_r.
    split_and!; [done..|]. intros i. rewrite decide_False by lia. done.
  - cbn [seq foldl count_sel].
    destruct (sel a) eqn:Hsel.
    + destruct (IH (<[a := j]> perm) (S j) (S a)) as (perm' & Hfold & Hl & Hi).
      { rewrite length_insert. lia. }
      exists perm'. rewrite Hfold. rewrite length_insert in Hl.
      split_and!; [f_equal; lia|done|].
      intros i. rewrite Hi.
      destruct (decide (i = a)) as [->|Hne].
      * rewrite decide_False by lia. rewrite decide_True by (split; [lia|done]).
        rewrite list_lookup_insert_eq by lia. rewrite Nat.sub_diag. cbn.
        f_equal. lia.
      * rewrite list_lookup_insert_ne by done.
        destruct (decide (S a <= i < S a + m /\ sel i = true)) as [[Hr Hs]|Hn].
        -- rewrite decide_True by (split; [lia|done]).
           replace (i - a) with (S (i - S a)) by lia.
           cbn [count_sel]. rewrite Hsel. f_equal. lia.
        -- rewrite decide_False; [done|]. intros [Hr Hs]. apply Hn.
           split; [lia|done].
    + destruct (IH perm j (S a)) as (perm' & Hfold & Hl & Hi); [lia|].
      exists perm'. rewrite Hfold. split_and!; [done..|].
      intros i. rewrite Hi.
      destruct (decide (i = a)) as [->|Hne].
      * rewrite !decide_False; [done| |lia].
        intros [_ Hs]. congruence.
      * destruct (decide (S a <= i < S a + m /\ sel i = true)) as [[Hr Hs]|Hn].
        -- rewrite decide_True by (split; [lia|done]).
           replace (i - a) with (S (i - S a)) by lia.
           cbn [count_sel]. rewrite Hsel. done.
        -- rewrite decide_False; [done|]. intros [Hr Hs]. apply Hn.
           split; [lia|done].
Qed.

(** A list of [n] distinct numbers below [n] is a permutation of them. *)
Lemma bounded_NoDup_Permutation (l : list nat) :
  NoDup l -> Forall (fun x => x < length l) l -> l ≡ₚ seq 0 (length l).
Proof.
  intros Hnd Hlt.
  apply submseteq_length_Permutation.
  - apply NoDup_submseteq; [done|].
    intros x Hx. apply elem_of_seq.
    rewrite Forall_forall in Hlt. specialize (Hlt x Hx). lia.
  - by rewrite length_seq.
Qed.

End unroll_permutation.

Section unroll_perm_lookup.
Implicit Types (sel : nat -> bool) (perm : list nat) (a m i j : nat).

Lemma count_sel_all a m : count_sel (fun _ => true) a m = m.
Proof.
  revert a. induction m as [|m IH]; intros a; cbn [count_sel]; [done|].
  by rewrite IH.
Qed.

Lemma assign_loop_ext (f : list nat * nat -> nat -> list nat * nat)
    sel perm j a m :
  (forall perm j i,
     f (perm, j) i = if sel i then (<[i := j]> perm, S j) else (perm, j)) ->
  a + m <= length perm ->
  exists perm',
    foldl f (perm, j) (seq a m) = (perm', j + count_sel sel a m) /\
    length perm' = length perm /\
    forall i, perm' !! i =
              if decide (a <= i < a + m /\ sel i = true)
              then Some (j + count_sel sel a (i - a))
              else perm !! i.
Proof.
  intros Hf Hlen.
  rewrite (foldl_fun_ext f
    (fun '(perm, j) i =>
       if sel i then (<[i := j]> perm, S j) else (perm, j))).
  - by apply assign_loop.
  - intros [p k] i. apply Hf.
Qed.

Lemma unroll_perm_lookup gen unroll len :
  shared_len gen <= len <= thread_tiled_len gen ->
  let sl := shared_len gen in
  let ttl := thread_tiled_len gen in
  let keep i := negb (unroll_at unroll i) in
  let first := count_sel keep sl (ttl - sl) in
  exists perm,
    unroll_perm gen unroll len = (perm, first) /\ length perm = ttl /\
    forall i, perm !! i =
      if decide (i < sl) then Some i
      else if decide (i < ttl /\ unroll_at unroll i = false)
      then Some (sl + count_sel keep sl (i - sl))
      else if decide (i < len /\ unroll_at unroll i = true)
      then Some (sl + first + count_sel (unroll_at unroll) sl (i - sl))
      else if decide (i < ttl) then Some 0 else None.
Proof.
  intros Hlen sl ttl keep first. unfold unroll_perm. fold sl ttl.
  destruct (assign_loop_ext
    (fun '(perm, j) i => (<[i := j]> perm, S j)) (fun _ => true)
    (replicate ttl 0) 0 0 sl) as (perm1 & Hfold1 & Hl1 & Hi1).
  { done. }
  { rewrite length_replicate. lia. }
  rewrite Hfold1. rewrite count_sel_all in *. cbn [Nat.add] in *.
  rewrite length_replicate in Hl1.
  destruct (assign_loop_ext
    (fun '(perm, j) i =>
       if unroll_at unroll i then (perm, j) else (<[i := j]> perm, S j))
    keep perm1 sl sl (ttl - sl)) as (perm2 & Hfold2 & Hl2 & Hi2).
  { intros p k i. unfold keep. by destruct (unroll_at unroll i). }
  { lia. }
  rewrite Hfold2. fold first.
  destruct (assign_loop_ext
    (fun '(perm, j) i =>
       if unroll_at unroll i then (<[i := j]> perm, S j) else (perm, j))
    (unroll_at unroll) perm2 (sl + first) sl (len - sl))
    as (perm3 & Hfold3 & Hl3 & Hi3).
  { done. }
  { lia. }
  rewrite Hfold3.
  exists perm3. split; [f_equal; lia|]. split; [congruence|].
  intros i. rewrite Hi3, Hi2, Hi1.
  destruct (decide (i < sl)) as [Hs|Hs].
  - rewrite decide_False by lia. rewrite decide_False by lia.
    rewrite decide_True by (split; [lia|done]).
    rewrite count_sel_all. f_equal. lia.
  - destruct (unroll_at unroll i) eqn:Hu.
    + rewrite (decide_False (P := i < ttl /\ true = false)) by (intros [_ ?]; done).
      destruct (decide (i < len /\ true = true)) as [[Hi _]|Hn].
      * rewrite decide_True by lia. done.
      * rewrite decide_False by lia.
        rewrite decide_False by (unfold keep; rewrite Hu; cbn; intros [_ ?]; done).
        rewrite decide_False by lia.
        destruct (decide (i < ttl)) as [Ht|Ht].
        -- apply lookup_replicate. split; [done|lia].
        -- apply lookup_ge_None. rewrite length_replicate. lia.
    + rewrite decide_False by (intros [_ ?]; done).
      rewrite (decide_False (P := i < len /\ false = true)) by (intros [_ ?]; done).
      destruct (decide (i < ttl /\ false = false)) as [[Hi _]|Hn].
      * rewrite decide_True; [done|]. unfold keep. rewrite Hu. split; [lia|done].
      * rewrite decide_False by lia. rewrite decide_False by lia.
        rewrite decide_False by lia.
        apply lookup_ge_None. rewrite length_replicate. lia.
Qed.

End unroll_perm_lookup.

Section unroll_perm_classes.

Lemma unroll_perm_classes gen unroll len :
  shared_len gen <= len <= thread_tiled_len gen ->
  (forall i, len <= i < thread_tiled_len gen -> unroll_at unroll i = false) ->
  let sl := shared_len gen in
  let ttl := thread_tiled_len gen in
  let keep i := negb (unroll_at unroll i) in
  let first := count_sel keep sl (ttl - sl) in
  exists perm,
    unroll_perm gen unroll len = (perm, first) /\ length perm = ttl /\
    (forall i, i < sl -> perm !! i = Some i) /\
    (forall i p, perm !! i = Some p ->
      (i < sl /\ p = i) \/
      (sl <= i < ttl /\ unroll_at unroll i = false /\
       p = sl + count_sel keep sl (i - sl) /\
       count_sel keep sl (i - sl) < first) \/
      (sl <= i < ttl /\ unroll_at unroll i = true /\
       p = sl + first + count_sel (unroll_at unroll) sl (i - sl) /\
       first + count_sel (unroll_at unroll) sl (i - sl) < ttl - sl)) /\
    (forall i i' p p', i < i' ->
      perm !! i = Some p -> perm !! i' = Some p' ->
      (unroll_at unroll i = unroll_at unroll i' -> p < p') /\ p <> p').
Proof.
  intros Hlen Hout sl ttl keep first.
  destruct (unroll_perm_lookup gen unroll len Hlen)
    as (perm & Hup & Hl & Hperm).
  fold sl ttl in Hl, Hperm, Hout, Hlen, Hup |- *.
  fold keep in Hperm, Hup. fold first in Hperm, Hup.
  pose proof (count_sel_negb (unroll_at unroll) sl (ttl - sl)) as Hsum.
  fold keep in Hsum. fold first in Hsum.
  assert (Hclass : forall i p, perm !! i = Some p ->
    (i < sl /\ p = i) \/
    (sl <= i < ttl /\ unroll_at unroll i = false /\
     p = sl + count_sel keep sl (i - sl) /\
     count_sel keep sl (i - sl) < first) \/
    (sl <= i < ttl /\ unroll_at unroll i = true /\
     p = sl + first + count_sel (unroll_at unroll) sl (i - sl) /\
     first + count_sel (unroll_at unroll) sl (i - sl) < ttl - sl)).
  { intros i p Hi. rewrite Hperm in Hi.
    assert (Hit : i < ttl).
    { repeat case_decide; try lia; done. }
    destruct (decide (i < sl)) as [Hs|Hs]; [left; split; congruence|].
    right. destruct (unroll_at unroll i) eqn:Hu.
    - right.
      rewrite decide_False in Hi by (intros [_ ?]; done).
      assert (i < len) as Hil.
      { destruct (decide (i < len)); [done|]. rewrite Hout in Hu by lia. done. }
      rewrite decide_True in Hi by done.
      split_and!; [lia|lia|done|congruence|].
      pose proof (count_sel_lt (unroll_at unroll) sl (i - sl) (ttl - sl)
                    ltac:(lia)) as Hlt.
      replace (sl + (i - sl)) with i in Hlt by lia.
      specialize (Hlt Hu). lia.
    - left. rewrite decide_True in Hi by done.
      split_and!; [lia|lia|done|congruence|].
      pose proof (count_sel_lt keep sl (i - sl) (ttl - sl) ltac:(lia)) as Hlt.
      replace (sl + (i - sl)) with i in Hlt by lia.
      apply Hlt. unfold keep. by rewrite Hu. }
  assert (Hmono : forall sel i i', sl <= i < i' -> sel i = true ->
    count_sel sel sl (i - sl) < count_sel sel sl (i' - sl)).
  { intros sel i i' Hii Hsel. apply count_sel_lt; [lia|].
    by replace (sl + (i - sl)) with i by lia. }
  exists perm. split_and!; [done|done| |done|].
  - intros i Hi. rewrite Hperm. by rewrite decide_True.
  - intros i i' p p' Hii Hi Hi'.
    destruct (Hclass i p Hi) as [[? ->]|[(? & Hu & -> & ?)|(? & Hu & -> & ?)]];
    destruct (Hclass i' p' Hi')
      as [[? ->]|[(? & Hu' & -> & ?)|(? & Hu' & -> & ?)]];
    try lia; try (split; [congruence|lia]).
    + pose proof (Hmono keep i i' ltac:(lia)) as Hm.
      unfold keep at 1 in Hm. rewrite Hu in Hm. specialize (Hm eq_refl). lia.
    + pose proof (Hmono (unroll_at unroll) i i' ltac:(lia) Hu). lia.
Qed.

Lemma unroll_perm_Permutation gen unroll len :
  shared_len gen <= len <= thread_tiled_len gen ->
  (forall i, len <= i < thread_tiled_len gen -> unroll_at unroll i = false) ->
  (unroll_perm gen unroll len).1 ≡ₚ seq 0 (thread_tiled_len gen) /\
  (unroll_perm gen unroll len).2
  = count_sel (fun i => negb (unroll_at unroll i)) (shared_len gen)
      (thread_tiled_len gen - shared_len gen).
Proof.
  intros Hlen Hout.
  destruct (unroll_perm_classes gen unroll len Hlen Hout)
    as (perm & -> & Hl & _ & Hclass & Hlt).
  cbn [fst snd]. split; [|done].
  rewrite <- Hl. apply bounded_NoDup_Permutation.
  - apply NoDup_alt. intros i j p Hi Hj.
    destruct (Nat.lt_total i j) as [Hij|[Hij|Hij]]; [|done|].
    + by destruct (Hlt i j p p Hij Hi Hj).
    + by destruct (Hlt j i p p Hij Hj Hi).
  - apply Forall_lookup. intros i p Hi. rewrite Hl.
    pose proof (count_sel_le (fun i => negb (unroll_at unroll i))
                  (shared_len gen) (thread_tiled_len gen - shared_len gen)).
    destruct (Hclass i p Hi) as [[? ->]|[(? & _ & -> & ?)|(? & _ & -> & ?)]];
      lia.
Qed.

End unroll_perm_classes.

(** When the dimensions that are involved in the private accesses all
    lie in the window, the array [perm] that [interchange_for_unroll]
    computes is a permutation of the thread-tiled dimensions: the
    shared dimensions stay in place, the dimensions that are not
    unrolled follow in their original order, and the unrolled
    dimensions come last, again in their original order;
    [first_unroll] is the number of dimensions after the shared ones
    that are not unrolled. *)
Theorem unroll_perm_spec gen unroll len :
  shared_len gen <= len <= thread_tiled_len gen ->
  (forall i, len <= i < thread_tiled_len gen -> unroll_at unroll i = false) ->
  let sl := shared_len gen in
  let ttl := thread_tiled_len gen in
  let perm := (unroll_perm gen unroll len).1 in
  let first := (unroll_perm gen unroll len).2 in
  perm ≡ₚ seq 0 ttl /\
  first = count_sel (fun i => negb (unroll_at unroll i)) sl (ttl - sl) /\
  (forall i, i < sl -> perm !! i = Some i) /\
  (forall i p, sl <= i -> perm !! i = Some p ->
     if unroll_at unroll i then sl + first <= p < ttl
     else sl <= p < sl + first) /\
  (forall i i' p p', i < i' -> perm !! i = Some p -> perm !! i' = Some p' ->
     unroll_at unroll i = unroll_at unroll i' -> p < p').
Proof.
  intros Hlen Hout sl ttl.
  destruct (unroll_perm_Permutation gen unroll len Hlen Hout)
    as [Hperm Hfirst].
  destruct (unroll_perm_classes gen unroll len Hlen Hout)
    as (perm & Hup & Hl & Hshared & Hclass & Hlt).
  rewrite Hup in Hperm, Hfirst |- *. cbn [fst snd] in *.
  fold sl ttl in Hperm, Hfirst, Hclass, Hshared |- *.
  split_and!; [done|done|done| |].
  - intros i p Hs Hi.
    destruct (Hclass i p Hi) as [[? ->]|[(? & Hu & -> & ?)|(? & Hu & -> & ?)]];
      [lia|rewrite Hu; lia|rewrite Hu; lia].
  - intros i i' p p' Hii Hi Hi' Hsame.
    by apply (Hlt i i' p p' Hii Hi Hi').
Qed.

Lemma unroll_perm_spec_witness :
  let gen := {| kernel := ppcg_kernel_calloc; tile_first := 0;
                shared_len := 1; thread_tiled_len := 4;
                first_unroll := (-1)%Z |} in
  (unroll_perm gen [false; true; false; false] 3).1 ≡ₚ seq 0 4.
Proof.
  intros gen.
  refine (proj1 (unroll_perm_spec gen [false; true; false; false] 3 _ _)).
  - cbn. lia.
  - cbn. intros i Hi. assert (i = 3) as -> by lia. reflexivity.
Defined.

(** ** The maps built by [permutation] *)

Section permutation_map.
Local Open Scope Z_scope.
Implicit Types (x y : list Z) (pos : list nat) (len i : nat).

Local Ltac row_in_range :=
  cbn [c_in c_out]; rewrite ?length_insert, ?length_replicate;
  repeat case_decide; lia.

Local Ltac build_map_row :=
  unfold isl_equality_alloc, isl_inequality_alloc, constraint_alloc;
  cbn [space_n_in space_n_out];
  repeat first
    [ rewrite set_coefficient_in by row_in_range
    | rewrite set_coefficient_out by row_in_range ];
  cbn [isl_constraint_set_constant_si isl_basic_map_add_constraint
       mbind option_bind c_in c_out c_eq c_div c_const].

Lemma permutation_shape nparam pos len :
  (forall i, (i < len)%nat -> (pos !!! i < len)%nat) ->
  permutation (isl_space_params_alloc nparam) pos len =
  Some (bmap_extend
          {| bmap_n_in := len; bmap_n_out := len;
             bmap_n_div := 0; bmap_constraints := [] |}
          (concat (map (fun i => [copy_row len len i (pos !!! i)])
                       (seq 0 len)))).
Proof.
  intros Hpos. unfold permutation, isl_basic_map_universe.
  cbn [isl_space_add_dims isl_space_params_alloc space_n_in space_n_out
       space_n_param Nat.add].
  erewrite (foldl_add_rows _ (fun i => [copy_row len len i (pos !!! i)]));
    [done|].
  intros b i Hi. apply elem_of_seq in Hi.
  specialize (Hpos i ltac:(lia)).
  build_map_row. done.
Qed.

Lemma permutation_rel nparam pos len :
  (forall i, (i < len)%nat -> (pos !!! i < len)%nat) ->
  exists bmap,
    permutation (isl_space_params_alloc nparam) pos len = Some bmap /\
    forall x y, bmap_rel bmap x y <->
      length x = len /\ length y = len /\
      forall i, (i < len)%nat -> y !!! (pos !!! i) = x !!! i.
Proof.
  intros Hpos. eexists. split; [by apply permutation_shape|].
  intros x y. unfold bmap_rel.
  setoid_rewrite bmap_holds_extend.
  setoid_rewrite Forall_concat_map_seq.
  unfold bmap_holds at 1. cbn [bmap_n_in bmap_n_out bmap_n_div
    bmap_constraints forallb].
  setoid_rewrite andb_true_r.
  setoid_rewrite andb_true_iff. setoid_rewrite andb_true_iff.
  setoid_rewrite bool_decide_eq_true.
  split.
  - intros (d & ((Hx & Hy) & Hd) & Hcopy).
    split; [done|]. split; [done|].
    intros i Hi. specialize (Hcopy i Hi).
    rewrite Forall_singleton in Hcopy.
    apply copy_row_holds in Hcopy; [done|lia|by apply Hpos|done|done].
  - intros (Hx & Hy & Hcopy).
    exists []. split; [done|].
    intros i Hi. rewrite Forall_singleton.
    apply copy_row_holds; [lia|by apply Hpos|done|done|by apply Hcopy].
Qed.

Lemma Permutation_seq_lookup_lt pos len i :
  pos ≡ₚ seq 0 len -> (i < len)%nat -> (pos !!! i < len)%nat.
Proof.
  intros Hperm Hi.
  assert (length pos = len) as Hlen.
  { apply Permutation_length in Hperm. by rewrite length_seq in Hperm. }
  assert (pos !!! i ∈ seq 0 len) as Hin.
  { rewrite <- Hperm. apply list_elem_of_lookup. exists i.
    apply list_lookup_lookup_total_lt. lia. }
  apply elem_of_seq in Hin. lia.
Qed.

End permutation_map.

(** [permutation] builds the map that sends coordinate [i] of the
    input to coordinate [pos[i]] of the output, provided the positions
    lie inside the space; when [pos] is a permutation, every input
    point has exactly one image. *)
Theorem permutation_spec nparam pos len :
  length pos = len -> pos ≡ₚ seq 0 len ->
  exists bmap,
    permutation (isl_space_params_alloc nparam) pos len = Some bmap /\
    (forall x y, bmap_rel bmap x y <->
       length x = len /\ length y = len /\
       forall i, i < len -> y !!! (pos !!! i) = x !!! i) /\
    (forall x y y', bmap_rel bmap x y -> bmap_rel bmap x y' -> y = y') /\
    (forall x, length x = len -> exists y, bmap_rel bmap x y).
Proof.
  intros Hlen Hperm.
  assert (Hpos : forall i, i < len -> pos !!! i < len).
  { intros i Hi. by apply Permutation_seq_lookup_lt. }
  assert (Hsurj : forall p, p < len -> exists i, i < len /\ pos !!! i = p).
  { intros p Hp.
    assert (p ∈ pos) as Hin by (rewrite Hperm; apply elem_of_seq; lia).
    apply list_elem_of_lookup in Hin as [i Hi]. exists i.
    split; [apply lookup_lt_Some in Hi; lia|].
    by apply list_lookup_total_correct. }
  assert (Hinj : forall i j, i < len -> j < len ->
                   pos !!! i = pos !!! j -> i = j).
  { assert (NoDup pos) as Hnd by (rewrite Hperm; apply NoDup_seq).
    intros i j Hi Hj Heq.
    apply (NoDup_lookup pos i j (pos !!! i)); [done| |].
    - apply list_lookup_lookup_total_lt. lia.
    - rewrite Heq. apply list_lookup_lookup_total_lt. lia. }
  destruct (permutation_rel nparam pos len Hpos) as (bmap & Hmap & Hrel).
  exists bmap. split; [done|]. split; [done|]. split.
  - intros x y y' Hy Hy'.
    apply Hrel in Hy as (Hx & Hly & Hy). apply Hrel in Hy' as (_ & Hly' & Hy').
    apply list_eq_same_length with len; [done..|].
    intros p a b Hp Ha Hb.
    destruct (Hsurj p Hp) as (i & Hi & <-).
    apply list_lookup_total_correct in Ha, Hb.
    rewrite <- Ha, <- Hb, Hy, Hy' by done. done.
  - intros x Hx.
    exists (map (fun p => x !!! (default 0 (list_find (fun q => q = p) pos
                                             ≫= fun r => Some r.1)))
                (seq 0 len)).
    apply Hrel. split; [done|]. split; [by rewrite length_map, length_seq|].
    intros i Hi.
    erewrite list_lookup_total_correct.
    2:{ rewrite list_lookup_fmap, lookup_seq_lt by by apply Hpos. done. }
    cbn [Nat.add].
    destruct (list_find (fun q => q = pos !!! i) pos) as [[j q]|] eqn:Hfind.
    + apply list_find_Some in Hfind as (Hj & -> & _). cbn.
      f_equal. apply Hinj; [apply lookup_lt_Some in Hj; lia|done|].
      by apply list_lookup_total_correct.
    + apply list_find_None in Hfind. rewrite Forall_forall in Hfind.
      exfalso. apply (Hfind (pos !!! i)); [|done].
      apply list_elem_of_lookup. exists i.
      apply list_lookup_lookup_total_lt. lia.
Qed.



Lemma permutation_spec_witness :
  exists bmap,
    permutation (isl_space_params_alloc 0) [0; 2; 1] 3 = Some bmap /\
    forall y, bmap_rel bmap [5; 6; 7]%Z y -> y = [5; 7; 6]%Z.
Proof.
  destruct (permutation_spec 0 [0; 2; 1] 3) as (bmap & Hmap & Hrel & _).
  - reflexivity.
  - cbn. apply perm_skip, perm_swap.
  - exists bmap. split; [done|]. intros y Hy.
    apply Hrel in Hy as (_ & Hl & Hy).
    destruct y as [|a [|b [|c [|]]]]; try done.
    pose proof (Hy 0 ltac:(lia)) as H0. pose proof (Hy 1 ltac:(lia)) as H1.
    pose proof (Hy 2 ltac:(lia)) as H2. cbn in H0, H1, H2. congruence.
Defined.

(** ** The outcomes of [interchange_for_unroll] *)

Section unchanged.
Implicit Types (gen : gpu_gen).

(** Inside the array, [unroll[i]] is set exactly for the dimensions
    that are involved in a private access. *)
Lemma unroll_at_private_unroll gen i :
  i < thread_tiled_len gen ->
  unroll_at (private_unroll gen) i = true <->
  exists local group ma aff,
    local ∈ array (kernel gen) /\ group ∈ groups local /\
    private_tile group <> None /\ ma ∈ private_pieces group /\
    aff ∈ ma_affs ma /\ i < ma_n_in ma /\ aff_coeffs aff !!! i <> 0%Z.
Proof.
  intros Hi. unfold unroll_at, private_unroll.
  destruct (private_unroll_loop (array (kernel gen))
              (replicate (thread_tiled_len gen) false) i) as [Hlen Hmark].
  rewrite length_replicate in Hlen, Hmark.
  fold (private_unroll gen) in Hlen, Hmark |- *.
  destruct (lookup_lt_is_Some_2 (private_unroll gen) i ltac:(lia))
    as [b Hb].
  rewrite (list_lookup_total_correct _ _ _ Hb).
  rewrite Hb in Hmark. split.
  - intros ->. destruct Hmark as [Hmark _].
    destruct (Hmark eq_refl) as [H|[_ H]]; [|done].
    apply lookup_replicate in H as [? _]. done.
  - intros Hinv. destruct Hmark as [_ Hmark].
    by injection (Hmark (or_intror (conj Hi Hinv))).
Qed.
End unchanged.

(** [interchange_for_unroll] returns the schedule and the kernel as
    they are, with [first_unroll] set to -1, when the index
    expressions of the groups with a private tile involve no dimension
    of the window of [n_parallel + n_block] dimensions after the shared
    ones (in particular when no group holds a private tile) or when
    they involve a dimension after the window, whether or not an array
    is marked [force_private].  When no array is marked
    [force_private], these are the only cases in which it does so. *)
Theorem interchange_for_unroll_unchanged gen dim sched :
  let sl := shared_len gen in
  let ttl := thread_tiled_len gen in
  let len := sl + n_parallel (kernel gen) + n_block (kernel gen) in
  let involved i :=
    exists local group ma aff,
      local ∈ array (kernel gen) /\ group ∈ groups local /\
      private_tile group <> None /\ ma ∈ private_pieces group /\
      aff ∈ ma_affs ma /\ i < ma_n_in ma /\ aff_coeffs aff !!! i <> 0%Z in
  len <= ttl ->
  ((forall i, sl <= i < len -> ~ involved i) \/
   (exists i, len <= i < ttl /\ involved i) ->
   interchange_for_unroll gen dim sched = (set_first_unroll gen (-1), sched))
  /\
  (any_force_private (kernel gen) = false ->
   interchange_for_unroll gen dim sched = (set_first_unroll gen (-1), sched) ->
   (forall i, sl <= i < len -> ~ involved i) \/
   (exists i, len <= i < ttl /\ involved i)).
Proof.
  intros sl ttl len involved Hlen.
  assert (Hmark : forall i, i < ttl ->
            unroll_at (private_unroll gen) i = true <-> involved i).
  { intros i Hi. by apply unroll_at_private_unroll. }
  unfold interchange_for_unroll.
  change (private_unroll (set_first_unroll gen (-1)))
    with (private_unroll gen).
  cbn [shared_len thread_tiled_len kernel set_first_unroll].
  fold sl ttl len.
  set (unroll := private_unroll gen) in *.
  split.
  - intros [Hnone|(i & Hi & Hinv)].
    + assert (E : existsb (unroll_at unroll) (seq sl (len - sl)) = false).
      { apply existsb_seq_false. intros i Hi.
        destruct (unroll_at unroll i) eqn:Hu; [|done].
        destruct (Hnone i ltac:(lia)). apply Hmark; [lia|done]. }
      by rewrite E.
    + destruct (negb _); [done|].
      assert (E : existsb (unroll_at unroll) (seq len (ttl - len)) = true).
      { apply existsb_seq_true. exists i. split; [lia|].
        apply Hmark; [lia|done]. }
      by rewrite E.
  - intros Hforce.
    destruct (existsb (unroll_at unroll) (seq sl (len - sl))) eqn:E1;
      cbn [negb].
    2:{ intros _. left. intros i Hi Hinv.
        rewrite existsb_seq_false in E1.
        specialize (E1 i ltac:(lia)).
        rewrite (proj2 (Hmark i ltac:(lia)) Hinv) in E1. discriminate. }
    destruct (existsb (unroll_at unroll) (seq len (ttl - len))) eqn:E2.
    { intros _. right. apply existsb_seq_true in E2 as (i & Hi & Hu).
      exists i. split; [lia|]. apply Hmark; [lia|done]. }
    rewrite Hforce.
    destruct (unroll_perm (set_first_unroll gen (-1)) unroll len)
      as [perm first].
    intros Heq. apply (f_equal (fun r => first_unroll r.1)) in Heq.
    cbn in Heq. lia.
Qed.

Lemma interchange_for_unroll_unchanged_witness :
  let gp := {| group_name := "P"; private_tile := Some (GpuArrayTile [4]%Z);
               shared_tile := None; last_shared := 0;
               copy_in := true; copy_out := true;
               private_pieces :=
                 [{| ma_n_in := 3;
                     ma_affs := [{| aff_coeffs := [1; 0; 0]%Z;
                                    aff_const := 0 |}] |}] |} in
  let k :=
    {| k_id := 0; tile_len := 1; n_parallel := 1; n_grid := 1; n_block := 1;
       grid_dim := [0; 0]%Z; block_dim := [0; 0; 0]%Z;
       array := [{| array_size := 4; groups := [gp]; force_private := false |}];
       any_force_private := false; max_shared_memory := 0%Z;
       block_filter := fun _ => []; grid_size := [] |} in
  let gen := {| kernel := k; tile_first := 0; shared_len := 1;
                thread_tiled_len := 3; first_unroll := 0%Z |} in
  let sched : union_map := fun x t => t = x.2 in
  interchange_for_unroll gen (isl_space_params_alloc 0) (Some sched)
  = (set_first_unroll gen (-1), Some sched).
Proof.
  intros gp k gen sched.
  refine (proj1 (interchange_for_unroll_unchanged gen
                   (isl_space_params_alloc 0) (Some sched) _) _).
  - vm_compute. lia.
  - left. intros i Hi (local & group & ma & aff & Hl & Hg & _ & Hma & Haff
                       & _ & Hc).
    apply list_elem_of_singleton in Hl as ->.
    apply list_elem_of_singleton in Hg as ->.
    apply list_elem_of_singleton in Hma as ->.
    apply list_elem_of_singleton in Haff as ->.
    apply Hc. cbn in Hi.
    assert (i = 1 \/ i = 2) as [-> | ->] by lia; reflexivity.
Defined.

(** When a dimension of the window is involved in a private access, no
    dimension after the window is, and no array is marked
    [force_private], [interchange_for_unroll] keeps the kernel, sets
    [first_unroll] to the number of dimensions after the shared ones
    that are not unrolled and composes the schedule with a permutation
    of the thread-tiled dimensions: each point in time is rearranged
    into exactly one new point of the same length. *)
Theorem interchange_for_unroll_permuted gen nparam sched :
  let sl := shared_len gen in
  let ttl := thread_tiled_len gen in
  let len := sl + n_parallel (kernel gen) + n_block (kernel gen) in
  let unroll := private_unroll gen in
  len <= ttl ->
  (exists i, sl <= i < len /\ unroll_at unroll i = true) ->
  (forall i, len <= i < ttl -> unroll_at unroll i = false) ->
  any_force_private (kernel gen) = false ->
  exists perm first sched',
    interchange_for_unroll gen (isl_space_params_alloc nparam) (Some sched)
    = (set_first_unroll gen (Z.of_nat first), Some sched') /\
    unroll_perm gen unroll len = (perm, first) /\
    perm ≡ₚ seq 0 ttl /\ 1 <= ttl - sl - first /\
    forall x t',
      sched' x t' <->
      exists t, sched x t /\ length t = ttl /\ length t' = ttl /\
                forall i, i < ttl -> t' !!! (perm !!! i) = t !!! i.
Proof.
  intros sl ttl len unroll Hlen (i0 & Hi0 & Hu0) Hout Hforce.
  assert (Hwin : sl <= len <= ttl) by (subst sl len; lia).
  destruct (unroll_perm_Permutation gen unroll len Hwin Hout)
    as (Hperm & Hfirst).
  destruct (unroll_perm gen unroll len) as [perm first] eqn:Hup.
  cbn [fst snd] in Hperm, Hfirst. fold sl ttl in Hperm, Hfirst.
  assert (Hl : length perm = ttl).
  { apply Permutation_length in Hperm. by rewrite length_seq in Hperm. }
  destruct (permutation_rel nparam perm ttl) as (bmap & Hmap & Hrel).
  { intros i Hi. by apply Permutation_seq_lookup_lt. }
  exists perm, first. eexists. split_and!; [|done|done| |].
  - unfold interchange_for_unroll.
    change (private_unroll (set_first_unroll gen (-1)))
      with (private_unroll gen).
    cbn [shared_len thread_tiled_len kernel set_first_unroll].
    fold sl ttl len unroll.
    assert (E1 : existsb (unroll_at unroll) (seq sl (len - sl)) = true).
    { apply existsb_seq_true. exists i0. split; [lia|done]. }
    assert (E2 : existsb (unroll_at unroll) (seq len (ttl - len)) = false).
    { apply existsb_seq_false. intros i Hi. apply Hout. lia. }
    rewrite E1, E2, Hforce. cbn [negb].
    change (unroll_perm (set_first_unroll gen (-1)) unroll len)
      with (unroll_perm gen unroll len).
    rewrite Hup. cbn [thread_tiled_len]. fold ttl. rewrite Hmap.
    cbn [isl_union_map_apply_range mbind option_bind]. done.
  - pose proof (count_sel_negb (unroll_at unroll) sl (ttl - sl)) as Hsum.
    pose proof (count_sel_lt (unroll_at unroll) sl (i0 - sl) (ttl - sl)
                  ltac:(lia)) as Hlt.
    replace (sl + (i0 - sl)) with i0 in Hlt by lia. specialize (Hlt Hu0).
    rewrite <- Hfirst in Hsum. lia.
  - intros x t'. cbn beta. split.
    + intros (t & Ht & Hb). apply Hrel in Hb as (? & ? & ?). by exists t.
    + intros (t & Ht & ? & ? & ?). exists t. split; [done|]. by apply Hrel.
Qed.

Lemma interchange_for_unroll_permuted_witness :
  let gp := {| group_name := "P"; private_tile := Some (GpuArrayTile [4]%Z);
               shared_tile := None; last_shared := 0;
               copy_in := true; copy_out := true;
               private_pieces :=
                 [{| ma_n_in := 3;
                     ma_affs := [{| aff_coeffs := [0; 1; 0]%Z;
                                    aff_const := 0 |}] |}] |} in
  let k :=
    {| k_id := 0; tile_len := 1; n_parallel := 1; n_grid := 1; n_block := 1;
       grid_dim := [0; 0]%Z; block_dim := [0; 0; 0]%Z;
       array := [{| array_size := 4; groups := [gp]; force_private := false |}];
       any_force_private := false; max_shared_memory := 0%Z;
       block_filter := fun _ => []; grid_size := [] |} in
  let gen := {| kernel := k; tile_first := 0; shared_len := 1;
                thread_tiled_len := 3; first_unroll := 0%Z |} in
  exists perm first sched',
    interchange_for_unroll gen (isl_space_params_alloc 0)
      (Some (fun x t => t = x.2))
    = (set_first_unroll gen (Z.of_nat first), Some sched') /\
    perm ≡ₚ seq 0 3.
Proof.
  intros gp k gen.
  destruct (interchange_for_unroll_permuted gen 0 (fun x t => t = x.2))
    as (perm & first & sched' & Hres & _ & Hperm & _).
  - vm_compute. lia.
  - exists 1. split; [vm_compute; lia|reflexivity].
  - intros i Hi. vm_compute in Hi. lia.
  - reflexivity.
  - exists perm, first, sched'. split; [exact Hres|exact Hperm].
Defined.

(** ** All the coordinates of [insert_even] *)

Section insert_even_odd.
Local Open Scope Z_scope.
Implicit Types (proj s : list Z) (v w : nat -> Z) (i m : nat).

Lemma weave_lookup_odd v proj m i :
  (i < m)%nat ->
  concat (map (fun j => [v j; proj !!! j]) (seq 0 m)) !!! (2 * i + 1)%nat
  = proj !!! i.
Proof.
  induction m as [|m IH]; intros Hi; [lia|].
  rewrite seq_S, map_app, concat_app. cbn [map concat app Nat.add].
  destruct (decide (i < m)%nat) as [Hlt|Hge].
  - rewrite lookup_total_app_l by (rewrite weave_length; lia). by apply IH.
  - assert (i = m) as -> by lia.
    rewrite lookup_total_app_r by (rewrite weave_length; lia).
    rewrite weave_length.
    by replace (2 * m + 1 - 2 * m)%nat with 1%nat by lia.
Qed.

Lemma clear_odd_odd proj a m p :
  (2 * p + 1 < length proj)%nat ->
  foldl (fun proj i => <[(2 * i + 1)%nat := 0]> proj) proj (seq a m)
    !!! (2 * p + 1)%nat
  = if decide (a <= p < a + m)%nat then 0 else proj !!! (2 * p + 1)%nat.
Proof.
  intros Hp. induction m as [|m IH].
  - cbn. by rewrite decide_False by lia.
  - rewrite seq_S, foldl_app. cbn [foldl].
    destruct (decide (p = a + m)%nat) as [->|Hne].
    + rewrite list_lookup_total_insert_eq by (rewrite clear_odd_length; lia).
      by rewrite decide_True by lia.
    + rewrite list_lookup_total_insert_ne by lia. rewrite IH.
      repeat case_decide; (done || lia).
Qed.

Lemma insert_even_odd gen pos val s i :
  (tile_first gen <= shared_len gen)%nat ->
  length s = shared_len gen ->
  (i < shared_len gen - tile_first gen)%nat ->
  insert_even gen pos val s !!! (2 * i + 1)%nat
  = if decide (0 <= pos <= Z.of_nat i) then 0
    else s !!! (tile_first gen + i)%nat.
Proof.
  intros Hle Hs Hi. unfold insert_even.
  assert (Hn : (shared_len gen - tile_first gen)%nat
               = length (drop (tile_first gen) s))
    by (rewrite length_drop; lia).
  rewrite Hn in Hi |- *.
  rewrite (insert_loop_all
             (fun i => if decide (Z.of_nat i = pos) then val else 0)).
  assert (Hdrop : drop (tile_first gen) s !!! i
                  = s !!! (tile_first gen + i)%nat).
  { by rewrite lookup_total_drop. }
  set (proj := drop (tile_first gen) s) in *.
  assert (Hlook :
    (concat (map (fun j => [if decide (Z.of_nat j = pos) then val else 0;
                            proj !!! j]) (seq 0 (length proj)))
     ++ [if decide (Z.of_nat (length proj) = pos) then val else 0])
    !!! (2 * i + 1)%nat
    = s !!! (tile_first gen + i)%nat).
  { rewrite lookup_total_app_l by (rewrite weave_length; lia).
    rewrite <- Hdrop.
    by rewrite (weave_lookup_odd
                  (fun j => if decide (Z.of_nat j = pos) then val else 0)). }
  destruct (decide (pos < 0)) as [Hneg|Hneg].
  - rewrite (decide_False (P := 0 <= pos <= Z.of_nat i)) by lia. exact Hlook.
  - rewrite clear_odd_odd by (rewrite length_app, weave_length; simpl; lia).
    rewrite Hlook.
    repeat case_decide; (done || lia).
Qed.

Lemma list_eq_lookup_total (l k : list Z) :
  length l = length k ->
  (forall i, (i < length l)%nat -> l !!! i = k !!! i) -> l = k.
Proof.
  intros Hlen Hi. apply list_eq_same_length with (length l); [done..|].
  intros i x y Hlt Hx Hy.
  apply list_lookup_total_correct in Hx, Hy. rewrite <- Hx, <- Hy.
  by apply Hi.
Qed.

Lemma even_or_odd (k : nat) :
  exists i, k = (2 * i)%nat \/ k = (2 * i + 1)%nat.
Proof.
  exists (k / 2)%nat.
  pose proof (Nat.div_mod_eq k 2). pose proof (Nat.mod_upper_bound k 2).
  lia.
Qed.

End insert_even_odd.

(** [insert_even] maps a point of the shared tile loops to a point of
    [2 n + 1] coordinates, [n] being the number of loops after
    [tile_first]: the even coordinates are 0 except for coordinate
    [2 pos], which is [val]; odd coordinate [2 i + 1] is loop
    [tile_first + i], or 0 when [0 <= pos <= i]. *)
Theorem insert_even_coords gen pos val s :
  tile_first gen <= shared_len gen ->
  length s = shared_len gen ->
  let n := shared_len gen - tile_first gen in
  insert_even gen pos val s =
  concat (map (fun i =>
                 [if decide (Z.of_nat i = pos) then val else 0%Z;
                  if decide (0 <= pos <= Z.of_nat i)%Z then 0%Z
                  else s !!! (tile_first gen + i)])
              (seq 0 n))
  ++ [if decide (Z.of_nat n = pos) then val else 0%Z].
Proof.
  intros Hle Hs n.
  set (v := fun i : nat => if decide (Z.of_nat i = pos) then val else 0%Z).
  set (w := fun i : nat => if decide (0 <= pos <= Z.of_nat i)%Z then 0%Z
                           else s !!! (tile_first gen + i)).
  assert (Hweave : forall m,
    length (concat (map (fun i => [v i; w i]) (seq 0 m))) = 2 * m /\
    forall i, i < m ->
      concat (map (fun i => [v i; w i]) (seq 0 m)) !!! (2 * i) = v i /\
      concat (map (fun i => [v i; w i]) (seq 0 m)) !!! (2 * i + 1) = w i).
  { induction m as [|m [IHl IHi]]; [split; [done|lia]|].
    rewrite seq_S, map_app, concat_app. cbn [map concat app Nat.add].
    split; [rewrite length_app, IHl; cbn; lia|].
    intros i Hi. destruct (decide (i < m)) as [Hlt|Hge].
    - rewrite !lookup_total_app_l by lia. by apply IHi.
    - assert (i = m) as -> by lia.
      rewrite !lookup_total_app_r by lia. rewrite IHl.
      replace (2 * m - 2 * m) with 0 by lia.
      by replace (2 * m + 1 - 2 * m) with 1 by lia. }
  destruct (Hweave n) as [Hl Hi].
  destruct (insert_even_even gen pos val s 0 Hle Hs ltac:(lia)) as [Hlen _].
  fold n in Hlen.
  change (insert_even gen pos val s
          = concat (map (fun i => [v i; w i]) (seq 0 n)) ++ [v n]).
  apply list_eq_lookup_total.
  - rewrite Hlen, length_app, Hl. cbn. lia.
  - intros k Hk. rewrite Hlen in Hk.
    destruct (even_or_odd k) as [i [->| ->]].
    + destruct (insert_even_even gen pos val s i Hle Hs ltac:(lia))
        as [_ ->].
      destruct (decide (i < n)) as [Hlt|Hge].
      * rewrite lookup_total_app_l by lia. by destruct (Hi i Hlt) as [-> _].
      * assert (i = n) as -> by lia.
        rewrite lookup_total_app_r by lia. rewrite Hl.
        by replace (2 * n - 2 * n) with 0 by lia.
    + rewrite insert_even_odd by (done || lia).
      rewrite lookup_total_app_l by lia.
      by destruct (Hi i ltac:(lia)) as [_ ->].
Qed.

Lemma insert_even_coords_witness :
  let gen := {| kernel := ppcg_kernel_calloc; tile_first := 1;
                shared_len := 3; thread_tiled_len := 5;
                first_unroll := (-1)%Z |} in
  insert_even gen 1 7 [10; 20; 30]%Z = [0; 20; 7; 0; 0]%Z.
Proof.
  intros gen.
  apply (insert_even_coords gen 1 7 [10; 20; 30]%Z).
  - cbn. lia.
  - reflexivity.
Defined.

(** The time of an entry at loop level [pos >= 0] and the time of an
    entry that has no level ([pos < 0], the kernel body) or a deeper
    level agree on the first [2 pos] coordinates; coordinate [2 pos]
    is the rank [val] of the first entry and, for the second entry, its
    rank if it has the same level and 0 otherwise.  So the sign of the
    rank decides whether an entry comes before or after the body inside
    loop level [pos]. *)
Theorem entry_time_order gen e1 e2 s :
  tile_first gen <= shared_len gen ->
  length s = shared_len gen ->
  (0 <= entry_pos e1
     <= Z.of_nat (shared_len gen) - Z.of_nat (tile_first gen))%Z ->
  (entry_pos e2 < 0 \/ entry_pos e1 <= entry_pos e2)%Z ->
  let p := Z.to_nat (entry_pos e1) in
  take (2 * p) (entry_time gen e1 s) = take (2 * p) (entry_time gen e2 s) /\
  entry_time gen e1 s !!! (2 * p) = entry_val e1 /\
  entry_time gen e2 s !!! (2 * p)
  = if decide (entry_pos e2 = entry_pos e1) then entry_val e2 else 0%Z.
Proof.
  intros Hle Hs Hpos Hrel p. unfold entry_time.
  destruct (insert_even_even gen (entry_pos e1) (entry_val e1) s p Hle Hs
              ltac:(lia)) as [Hl1 H1].
  destruct (insert_even_even gen (entry_pos e2) (entry_val e2) s p Hle Hs
              ltac:(lia)) as [Hl2 H2].
  split_and!.
  - apply list_eq_lookup_total.
    + rewrite !length_take. lia.
    + intros k Hk. rewrite length_take in Hk.
      rewrite !lookup_total_take_lt by lia.
      destruct (even_or_odd k) as [i [->| ->]].
      * destruct (insert_even_even gen (entry_pos e1) (entry_val e1) s i
                    Hle Hs ltac:(lia)) as [_ ->].
        destruct (insert_even_even gen (entry_pos e2) (entry_val e2) s i
                    Hle Hs ltac:(lia)) as [_ ->].
        rewrite !decide_False by lia. done.
      * rewrite !insert_even_odd by (done || lia).
        rewrite !decide_False by lia. done.
  - rewrite H1. by rewrite decide_True by lia.
  - rewrite H2. repeat case_decide; (done || lia).
Qed.

Lemma entry_time_order_witness :
  let gen := {| kernel := ppcg_kernel_calloc; tile_first := 0;
                shared_len := 2; thread_tiled_len := 4;
                first_unroll := (-1)%Z |} in
  let read := {| entry_kind_of := Sync; entry_pos := 1%Z;
                 entry_val := (-1)%Z |} in
  let body := {| entry_kind_of := Body; entry_pos := (-1)%Z;
                 entry_val := 0%Z |} in
  take 2 (entry_time gen read [3; 4]%Z) = take 2 (entry_time gen body [3; 4]%Z)
  /\ entry_time gen read [3; 4]%Z !!! 2 = (-1)%Z
  /\ entry_time gen body [3; 4]%Z !!! 2 = 0%Z.
Proof.
  intros gen read body.
  apply (entry_time_order gen read body [3; 4]%Z).
  - cbn. lia.
  - reflexivity.
  - cbn. lia.
  - left. cbn. lia.
Defined.

(** ** The map built by [wrap] is a function *)

Section wrap_function.
Local Open Scope Z_scope.
Implicit Types (x y s q : list Z) (len first wrap_len i p : nat).

Lemma project_out_holds_inv (bmap bmap' : isl_basic_map) f n x y q :
  bmap_n_div bmap = 0%nat ->
  Forall (fun row => c_div row = [] /\
                     length (c_out row) = bmap_n_out bmap)
         (bmap_constraints bmap) ->
  (f + n <= bmap_n_out bmap)%nat ->
  isl_basic_map_project_out (Some bmap) isl_dim_out f n = Some bmap' ->
  bmap_holds bmap' x y q = true ->
  length q = n /\ (length y + n)%nat = bmap_n_out bmap /\
  bmap_holds bmap x (take f y ++ q ++ drop f y) [] = true.
Proof.
  intros Hdiv Hrows Hf.
  unfold isl_basic_map_project_out. cbn [mbind option_bind].
  rewrite decide_True by done. intros [= <-].
  unfold bmap_holds. cbn [bmap_n_in bmap_n_out bmap_n_div bmap_constraints].
  rewrite Hdiv.
  rewrite !andb_true_iff, !bool_decide_eq_true.
  intros (((Hx & Hy) & Hq) & Hall).
  split; [lia|]. split; [lia|].
  split_and!; [done| |done|].
  - rewrite !length_app, length_take, length_drop. lia.
  - rewrite forallb_forall in Hall. apply forallb_forall.
    intros row Hin.
    rewrite Forall_forall in Hrows.
    destruct (Hrows row) as [Hd Ho]; [by apply list_elem_of_In|].
    rewrite <- (project_out_constraint_holds row f n x y q);
      [|done|lia|lia|lia].
    apply Hall. apply in_map_iff. by exists row.
Qed.

Lemma put_back_lookup y q f p :
  (f <= length y)%nat ->
  (take f y ++ q ++ drop f y) !!! p =
  if decide (p < f)%nat then y !!! p
  else if decide (p < f + length q)%nat then q !!! (p - f)%nat
  else y !!! (p - length q)%nat.
Proof.
  intros Hf.
  assert (length (take f y) = f) as Ht by (rewrite length_take; lia).
  case_decide.
  - rewrite lookup_total_app_l by lia. by rewrite lookup_total_take_lt.
  - rewrite lookup_total_app_r by lia. rewrite Ht. case_decide.
    + by rewrite lookup_total_app_l by lia.
    + rewrite lookup_total_app_r by lia. rewrite lookup_total_drop.
      f_equal. lia.
Qed.

Lemma wrap_point_coords len first wrap_len wrap_size s :
  (first + wrap_len <= len)%nat -> length s = len ->
  length wrap_size = wrap_len ->
  length (wrap_point first wrap_len wrap_size s) = (len + wrap_len)%nat /\
  (forall p, (p < first + wrap_len)%nat ->
     wrap_point first wrap_len wrap_size s !!! p = s !!! p) /\
  (forall i, (i < wrap_len)%nat ->
     wrap_point first wrap_len wrap_size s !!! (first + wrap_len + i)%nat
     = s !!! (first + i)%nat `mod` size_at wrap_size i) /\
  (forall p, (first + wrap_len <= p < len)%nat ->
     wrap_point first wrap_len wrap_size s !!! (p + wrap_len)%nat = s !!! p).
Proof.
  intros Hlen Hs Hsz. unfold wrap_point, size_at.
  set (A := take (first + wrap_len) s).
  set (M := zip_with Z.modulo (take wrap_len (drop first s)) wrap_size).
  set (D := drop (first + wrap_len) s).
  assert (HA : length A = (first + wrap_len)%nat)
    by (unfold A; rewrite length_take; lia).
  assert (Hm : length (take wrap_len (drop first s)) = wrap_len)
    by (rewrite length_take, length_drop; lia).
  assert (HM : length M = wrap_len)
    by (unfold M; rewrite length_zip_with; lia).
  assert (HD : length D = (len - (first + wrap_len))%nat)
    by (unfold D; rewrite length_drop; lia).
  split_and!.
  - rewrite !length_app. lia.
  - intros p Hp. rewrite lookup_total_app_l by lia.
    unfold A. by rewrite lookup_total_take_lt.
  - intros i Hi.
    rewrite lookup_total_app_r by lia.
    rewrite lookup_total_app_l by lia.
    rewrite HA.
    replace (first + wrap_len + i - (first + wrap_len))%nat with i by lia.
    unfold M. rewrite zip_with_lookup_total by lia.
    by rewrite lookup_total_take_lt, lookup_total_drop by lia.
  - intros p Hp.
    rewrite lookup_total_app_r by lia.
    rewrite lookup_total_app_r by lia.
    rewrite HA, HM. unfold D. rewrite lookup_total_drop.
    f_equal. lia.
Qed.

Lemma wrap_rel_unique nparam len first wrap_len wrap_size bmap x y :
  (first + wrap_len <= len)%nat ->
  length wrap_size = wrap_len -> Forall (fun t => 0 < t) wrap_size ->
  wrap (isl_space_params_alloc nparam) len first wrap_len wrap_size
  = Some bmap ->
  bmap_rel bmap x y ->
  length x = len /\ y = wrap_point first wrap_len wrap_size x.
Proof.
  intros Hlen Hsz Hpos Hwrap [q Hq].
  rewrite wrap_shape in Hwrap by done.
  match type of Hwrap with
  | isl_basic_map_project_out (Some ?b) _ ?f ?n = _ =>
      destruct (project_out_holds_inv b bmap f n x y q)
        as (Hlq & Hly & Hfull); [| | |exact Hwrap|exact Hq|]
  end.
  { done. }
  { cbn [bmap_extend bmap_constraints bmap_n_out app].
    rewrite Forall_app, !Forall_concat_map_seq. split.
    - intros i Hi. rewrite Forall_singleton.
      unfold wrap_copy_row, copy_row. cbn.
      by rewrite length_insert, length_replicate.
    - intros i Hi. unfold wrap_split_rows, lower_row, upper_row.
      rewrite !Forall_cons. cbn.
      rewrite !length_insert, !length_replicate.
      split_and!; try done. }
  { cbn [bmap_extend bmap_n_out]. lia. }
  cbn [bmap_extend bmap_n_out] in Hly.
  rewrite !bmap_holds_extend, !Forall_concat_map_seq in Hfull.
  destruct Hfull as [[Hbase Hcopy] Hsplit].
  unfold bmap_holds in Hbase.
  cbn [bmap_n_in bmap_n_out bmap_n_div bmap_constraints forallb] in Hbase.
  rewrite !andb_true_iff, !bool_decide_eq_true in Hbase.
  destruct Hbase as (((Hx & Hyf) & _) & _).
  change (length x = len) in Hx.
  split; [done|].
  set (yfull := take (first + 2 * wrap_len) y ++ q
                ++ drop (first + 2 * wrap_len) y) in *.
  assert (Hput : forall p, yfull !!! p =
    if decide (p < first + 2 * wrap_len)%nat then y !!! p
    else if decide (p < first + 2 * wrap_len + length q)%nat
    then q !!! (p - (first + 2 * wrap_len))%nat
    else y !!! (p - length q)%nat).
  { intros p. apply put_back_lookup. lia. }
  destruct (wrap_point_coords len first wrap_len wrap_size x Hlen Hx Hsz)
    as (Hl & Hpre & Hmid & Hpost).
  assert (Hcp : forall i, (i < len)%nat ->
    yfull !!! (if decide (i < first + wrap_len)%nat then i
               else (i + 2 * wrap_len)%nat) = x !!! i).
  { intros i Hi. specialize (Hcopy i Hi).
    rewrite Forall_singleton in Hcopy. unfold wrap_copy_row in Hcopy.
    apply copy_row_holds in Hcopy.
    - exact Hcopy.
    - lia.
    - case_decide; lia.
    - exact Hx.
    - exact Hyf. }
  apply (list_eq_same_length _ _ (len + wrap_len)%nat); [exact Hl|lia|].
  intros p a b Hp Ha Hb.
  apply list_lookup_total_correct in Ha, Hb. subst a b.
  destruct (decide (p < first + wrap_len)%nat) as [H1|H1].
  { rewrite Hpre by done. specialize (Hcp p ltac:(lia)).
    rewrite decide_True in Hcp by done. rewrite Hput in Hcp.
    by rewrite decide_True in Hcp by lia. }
  destruct (decide (p < first + 2 * wrap_len)%nat) as [H2|H2].
  { set (i := (p - first - wrap_len)%nat).
    specialize (Hsplit i ltac:(lia)).
    unfold wrap_split_rows in Hsplit. rewrite !Forall_cons in Hsplit.
    destruct Hsplit as (E & Hlo & Hup & _).
    apply lower_row_holds in Hlo; [|lia|exact Hyf].
    apply upper_row_holds in Hup; [|lia|exact Hyf].
    assert (length yfull = (len + 2 * wrap_len)%nat) as Hyl by exact Hyf.
    unfold constraint_holds, constraint_value in E.
    cbn [c_eq c_in c_out c_div c_const] in E.
    rewrite dot_replicate_0, dot_triple, dot_nil_r in E by (done || lia).
    apply bool_decide_eq_true in E.
    specialize (Hcp (first + i)%nat ltac:(lia)).
    rewrite decide_True in Hcp by lia.
    replace (first + wrap_len + i)%nat with p in * by lia.
    rewrite (Hput p), decide_True in Hlo, Hup, E by lia.
    specialize (Hmid i ltac:(lia)).
    replace (first + wrap_len + i)%nat with p in Hmid by lia.
    rewrite Hmid.
    apply (Z.mod_unique _ _ (yfull !!! (first + 2 * wrap_len + i)%nat));
      lia. }
  specialize (Hcp (p - wrap_len)%nat ltac:(lia)).
  rewrite decide_False in Hcp by lia.
  rewrite Hput in Hcp. rewrite !decide_False in Hcp by lia.
  replace (p - wrap_len + 2 * wrap_len - length q)%nat with p in Hcp by lia.
  rewrite Hcp.
  specialize (Hpost (p - wrap_len)%nat ltac:(lia)).
  by replace (p - wrap_len + wrap_len)%nat with p in Hpost by lia.
Qed.

End wrap_function.

(** For positive sizes, the map that [wrap] builds is a function on the
    points of the input space: the image of a point keeps all its
    coordinates, in order, and has the remainders of the wrapped
    coordinates modulo the sizes inserted after the window.  Each
    remainder lies between 0 and the size and is the coordinate that
    [tile] puts at the same position. *)
Theorem wrap_function nparam len first n size :
  first + n <= len ->
  length size = n ->
  Forall (fun t => 0 < t)%Z size ->
  exists bwrap,
    wrap (isl_space_params_alloc nparam) len first n size = Some bwrap /\
    (forall x y, bmap_rel bwrap x y <->
       length x = len /\ y = wrap_point first n size x) /\
    forall x, length x = len ->
      let y := wrap_point first n size x in
      length y = len + n /\
      (forall p, p < first + n -> y !!! p = x !!! p) /\
      (forall i, i < n ->
         y !!! (first + n + i)
         = (x !!! (first + i)%nat `mod` size_at size i)%Z /\
         (0 <= y !!! (first + n + i)%nat < size_at size i)%Z /\
         y !!! (first + n + i)
         = tile_point first n size x !!! (first + n + i)) /\
      (forall p, first + n <= p < len -> y !!! (p + n) = x !!! p).
Proof.
  intros Hlen Hsz Hpos.
  destruct (wrap_rel nparam len first n size Hlen Hsz Hpos)
    as (bwrap & Hwrap & Himg & _).
  exists bwrap. split; [done|]. split.
  - intros x y. split.
    + by apply (wrap_rel_unique nparam).
    + intros [Hx ->]. by apply Himg.
  - intros x Hx y.
    destruct (wrap_point_coords len first n size x Hlen Hx Hsz)
      as (Hl & Hpre & Hmid & Hpost).
    destruct (tile_point_coords len first n size x Hlen Hx Hsz)
      as (_ & _ & Htile & _).
    split_and!; [done|done| |done].
    intros i Hi. subst y. rewrite (Hmid i Hi).
    assert (0 < size_at size i)%Z as Hp.
    { unfold size_at. rewrite Forall_forall in Hpos. apply Hpos.
      apply list_elem_of_lookup_total_2. lia. }
    split; [done|]. split; [by apply Z.mod_pos_bound|].
    destruct (Htile i Hi) as [_ Hinner].
    replace (first + n + i) with (first + i + n) by lia. by rewrite Hinner.
Qed.

Lemma wrap_function_witness :
  exists bwrap,
    wrap (isl_space_params_alloc 0) 3 1 2 [2; 3]%Z = Some bwrap /\
    forall y, bmap_rel bwrap [7; 5; 11]%Z y -> y = [7; 5; 11; 1; 2]%Z.
Proof.
  destruct (wrap_function 0 3 1 2 [2; 3]%Z) as (bwrap & Hwrap & Hrel & _).
  - lia.
  - reflexivity.
  - repeat constructor.
  - exists bwrap. split; [exact Hwrap|].
    intros y Hy. apply Hrel in Hy as [_ ->]. reflexivity.
Defined.

Section map_errors.
Implicit Types (len first n i : nat).

Lemma add_constraint_None_r bmap :
  isl_basic_map_add_constraint bmap None = None.
Proof. by destruct bmap. Qed.

Lemma set_coefficient_None type pos v :
  isl_constraint_set_coefficient_si None type pos v = None.
Proof. done. Qed.

Lemma foldl_last_None {A} (step : option A -> nat -> option A) a n :
  (forall b, step b n = None) ->
  foldl step a (seq 0 (S n)) = None.
Proof.
  intros Hstep. rewrite seq_S, foldl_app. cbn [foldl Nat.add]. apply Hstep.
Qed.

Lemma set_coefficient_out_length (c : option isl_constraint) m type pos v :
  (forall c0, c = Some c0 -> length (c_out c0) = m) ->
  forall c1, isl_constraint_set_coefficient_si c type pos v = Some c1 ->
             length (c_out c1) = m.
Proof.
  intros Hc c1. destruct c as [c0|]; [|done].
  specialize (Hc c0 eq_refl).
  unfold isl_constraint_set_coefficient_si. cbn [mbind option_bind].
  destruct type; case_decide; intros [= <-]; cbn [c_out];
    by rewrite ?length_insert.
Qed.

Lemma set_coefficient_out_None (c : option isl_constraint) m pos v :
  (forall c0, c = Some c0 -> length (c_out c0) = m) -> m <= pos ->
  isl_constraint_set_coefficient_si c isl_dim_out pos v = None.
Proof.
  intros Hc Hpos. destruct c as [c0|]; [|done].
  specialize (Hc c0 eq_refl).
  unfold isl_constraint_set_coefficient_si. cbn [mbind option_bind].
  by rewrite decide_False by lia.
Qed.

End map_errors.

(** [tile] and [wrap] return an error exactly when the window of the
    coordinates to tile or wrap, if it is not empty, does not fit in
    the input space: a coefficient is then set at a position outside
    of the space. *)
Theorem tile_wrap_error nparam len first n size :
  0 < n ->
  (tile (isl_space_params_alloc nparam) len first n size = None <->
   len < first + n) /\
  (wrap (isl_space_params_alloc nparam) len first n size = None <->
   len < first + n).
Proof.
  intros Hn.
  destruct (decide (first + n <= len)) as [Hfit|Hfit].
  - split.
    + rewrite tile_shape by done. split; [done|lia].
    + rewrite wrap_shape by done.
      unfold isl_basic_map_project_out. cbn [mbind option_bind].
      rewrite decide_True by (cbn [bmap_extend bmap_n_out]; lia).
      split; [done|lia].
  - destruct n as [|n]; [lia|].
    split; (split; [lia|intros _]).
    + unfold tile. apply foldl_last_None. intros b.
      unfold isl_equality_alloc, constraint_alloc,
        isl_constraint_set_coefficient_si at 3.
      cbn [isl_space_add_dims isl_space_params_alloc space_n_in space_n_out
           mbind option_bind c_in].
      rewrite length_replicate. rewrite decide_False by lia.
      rewrite !set_coefficient_None, !add_constraint_None_r.
      done.
    + unfold wrap.
      rewrite foldl_last_None; [done|]. intros b.
      rewrite (set_coefficient_out_None _ (len + 2 * S n)); [| |lia].
      { by rewrite !add_constraint_None_r. }
      apply set_coefficient_out_length, set_coefficient_out_length.
      intros c0 [= <-]. cbn. by rewrite length_replicate.
Qed.

Lemma tile_wrap_error_witness :
  tile (isl_space_params_alloc 0) 2 1 2 [4; 4]%Z = None.
Proof.
  apply (tile_wrap_error 0 2 1 2 [4; 4]%Z); lia.
Defined.

(** ** The barrier after the copies to shared memory *)

(** [body_schedule] schedules the synchronisation of rank -1 at the
    innermost shared level, the barrier between the copy-in statements
    and the kernel body, exactly when some group with a tile has
    something to copy in and is not mapped to private memory. *)
Theorem body_schedule_read_barrier gen :
  let n := (Z.of_nat (shared_len gen) - Z.of_nat (tile_first gen))%Z in
  {| entry_kind_of := Sync; entry_pos := n; entry_val := (-1)%Z |}
    ∈ body_schedule gen <->
  exists group,
    group ∈ tiled_groups (kernel gen) /\
    copy_in group = true /\ has_tile (private_tile group) = false.
Proof.
  intros n. rewrite body_schedule_entry.
  pose proof (Nat2Z.is_nonneg (length (kernel_groups (kernel gen)))) as Hs.
  fold (total_groups (kernel gen)) in Hs.
  split.
  - intros [He|[(k & group & Hk & He)|He]]; [done| |].
    + exists group. split; [by apply list_elem_of_lookup_2 in Hk|].
      apply group_entries_cases in He.
      destruct He as [[_ He]|[(_ & _ & _ & He)|[[_ He]|(Hin & Hp & _)]]];
        [done| |done|done].
      injection He as _ He. lia.
    + injection He as He. lia.
  - intros (group & Hin & Hcopy & Hpriv).
    right; left.
    apply list_elem_of_lookup in Hin as [k Hk].
    exists k, group. split; [done|].
    rewrite add_group_schedule_app. apply elem_of_app. right.
    unfold add_group_schedule. rewrite Hcopy, Hpriv. cbn [negb].
    unfold add_sync_schedule. apply elem_of_app. right.
    by apply list_elem_of_singleton.
Qed.

(** ** Scaling the tile loops *)

Section scaling.
Local Open Scope Z_scope.
Implicit Types (x y : list Z) (len i : nat) (f : nat -> Z).

Local Ltac scale_in_range :=
  cbn [c_in c_out]; rewrite ?length_insert, ?length_replicate; lia.

Lemma scale_map_shape nparam len f :
  scale_map (isl_space_params_alloc nparam) len f =
  Some (bmap_extend
          {| bmap_n_in := len; bmap_n_out := len;
             bmap_n_div := 0; bmap_constraints := [] |}
          (concat (map (fun i =>
                     [{| c_eq := true;
                         c_in := <[i := f i]> (replicate len 0);
                         c_out := <[i := -1]> (replicate len 0);
                         c_div := []; c_const := 0 |}])
                       (seq 0 len)))).
Proof.
  unfold scale_map, isl_basic_map_universe.
  cbn [isl_space_add_dims isl_space_params_alloc space_n_in space_n_out
       space_n_param Nat.add].
  erewrite (foldl_add_rows _ (fun i =>
              [{| c_eq := true;
                  c_in := <[i := f i]> (replicate len 0);
                  c_out := <[i := -1]> (replicate len 0);
                  c_div := []; c_const := 0 |}])); [done|].
  intros b i Hi. apply elem_of_seq in Hi.
  unfold isl_equality_alloc, constraint_alloc.
  cbn [space_n_in space_n_out].
  rewrite set_coefficient_in by scale_in_range.
  rewrite set_coefficient_out by scale_in_range.
  done.
Qed.

Lemma scale_map_rel nparam len f :
  exists bmap,
    scale_map (isl_space_params_alloc nparam) len f = Some bmap /\
    forall x y, bmap_rel bmap x y <->
      length x = len /\ length y = len /\
      forall i, (i < len)%nat -> y !!! i = f i * x !!! i.
Proof.
  eexists. split; [apply scale_map_shape|].
  intros x y. unfold bmap_rel.
  setoid_rewrite bmap_holds_extend.
  setoid_rewrite Forall_concat_map_seq.
  unfold bmap_holds at 1. cbn [bmap_n_in bmap_n_out bmap_n_div
    bmap_constraints forallb].
  setoid_rewrite andb_true_r.
  setoid_rewrite andb_true_iff. setoid_rewrite andb_true_iff.
  setoid_rewrite bool_decide_eq_true.
  assert (Hrow : forall i d, (i < len)%nat ->
    length x = len -> length y = len ->
    constraint_holds
      {| c_eq := true; c_in := <[i := f i]> (replicate len 0);
         c_out := <[i := -1]> (replicate len 0);
         c_div := []; c_const := 0 |} x y d = true
    <-> y !!! i = f i * x !!! i).
  { intros i d Hi Hx Hy. unfold constraint_holds, constraint_value.
    cbn [c_eq c_in c_out c_div c_const].
    rewrite !dot_single by done. cbn [dot].
    rewrite bool_decide_eq_true. lia. }
  split.
  - intros (d & ((Hx & Hy) & Hd) & Hrows).
    split; [done|]. split; [done|].
    intros i Hi. specialize (Hrows i Hi).
    rewrite Forall_singleton in Hrows. by apply (Hrow i d).
  - intros (Hx & Hy & Hrows).
    exists []. split; [done|].
    intros i Hi. rewrite Forall_singleton. apply Hrow; [done..|].
    by apply Hrows.
Qed.

End scaling.

(** [scale_access_tile_loops] leaves the schedule alone when wrapping
    is on or scaling is off; otherwise it multiplies the [n_tile]
    coordinates from [first] on by the block sizes and keeps the other
    coordinates.  [scale_thread_tile_loops] is the same transformation
    of the [n_block] coordinates from [shared_len] on. *)
Theorem scale_access_tile_loops_spec options gen nparam sched
    len first n_tile :
  let dim := isl_space_params_alloc nparam in
  scale_thread_tile_loops options gen dim (Some sched)
  = scale_access_tile_loops options gen dim (Some sched)
      (thread_tiled_len gen) (shared_len gen) (n_block (kernel gen)) /\
  if opt_wrap options || negb (opt_scale_tile_loops options) then
    scale_access_tile_loops options gen dim (Some sched) len first n_tile
    = Some sched
  else
    exists sched',
      scale_access_tile_loops options gen dim (Some sched) len first n_tile
      = Some sched' /\
      forall x t',
        sched' x t' <->
        exists t, sched x t /\ length t = len /\ length t' = len /\
          forall i, i < len ->
            t' !!! i =
            if decide (first <= i < first + n_tile)
            then (size_at (block_dim (kernel gen)) (i - first) * t !!! i)%Z
            else t !!! i.
Proof.
  intros dim. split; [done|].
  unfold scale_access_tile_loops.
  destruct (opt_wrap options); [done|].
  destruct (opt_scale_tile_loops options); [|done].
  cbn [orb negb].
  destruct (scale_map_rel nparam len
    (fun i => if decide (first <= i /\ i < first + n_tile)
              then size_at (block_dim (kernel gen)) (i - first)
              else 1%Z)) as (bmap & Hmap & Hrel).
  subst dim. rewrite Hmap. cbn [isl_union_map_apply_range mbind option_bind].
  eexists. split; [done|].
  intros x t'. cbn beta. split.
  - intros (t & Ht & Hb). apply Hrel in Hb as (Hl & Hl' & Hi).
    exists t. split_and!; [done..|].
    intros i Hlt. rewrite (Hi i Hlt).
    repeat case_decide; (done || lia).
  - intros (t & Ht & Hl & Hl' & Hi). exists t. split; [done|].
    apply Hrel. split_and!; [done..|].
    intros i Hlt. rewrite (Hi i Hlt).
    repeat case_decide; (done || lia).
Qed.

(** ** Tiling the schedule *)

Section tile_schedule_points.
Local Open Scope Z_scope.
Implicit Types (x y s size : list Z) (len first n i p : nat).

Lemma foldl_ext_in {A B} (f g : A -> B -> A) (a : A) (l : list B) :
  (forall a b, b ∈ l -> f a b = g a b) -> foldl f a l = foldl g a l.
Proof.
  revert a. induction l as [|b l IH]; intros a Hfg; [done|].
  cbn [foldl]. rewrite Hfg by (apply elem_of_cons; by left).
  apply IH. intros a' b' Hb'. apply Hfg. apply elem_of_cons. by right.
Qed.

Lemma size_at_take size n i :
  (i < n)%nat -> size_at (take n size) i = size_at size i.
Proof. intros Hi. unfold size_at. by rewrite lookup_total_take_lt. Qed.

Lemma tile_take_size dim len first n size :
  tile dim len first n (take n size) = tile dim len first n size.
Proof.
  unfold tile. apply foldl_ext_in. intros b i Hi.
  apply elem_of_seq in Hi. by rewrite size_at_take by lia.
Qed.

Lemma wrap_take_size dim len first n size :
  wrap dim len first n (take n size) = wrap dim len first n size.
Proof.
  unfold wrap. f_equal. apply foldl_ext_in. intros b i Hi.
  apply elem_of_seq in Hi. by rewrite size_at_take by lia.
Qed.

Lemma tile_point_take_size first n size s :
  tile_point first n (take n size) s = tile_point first n size s.
Proof.
  unfold tile_point.
  rewrite !zip_with_take_r' by (rewrite length_take; lia). done.
Qed.

Lemma wrap_point_take_size first n size s :
  wrap_point first n (take n size) s = wrap_point first n size s.
Proof.
  unfold wrap_point.
  rewrite !zip_with_take_r' by (rewrite length_take; lia). done.
Qed.

(** The maps of [tile] and [wrap] as functions, for an array of sizes
    with at least [n] elements. *)
Lemma tile_map_function nparam len first n size :
  (first + n <= len)%nat -> (n <= length size)%nat ->
  Forall (fun t => 0 < t) (take n size) ->
  exists bmap,
    tile (isl_space_params_alloc nparam) len first n size = Some bmap /\
    forall x y, bmap_rel bmap x y <->
                length x = len /\ y = tile_point first n size x.
Proof.
  intros Hlen Hn Hpos.
  destruct (tile_rel_point nparam len first n (take n size) Hlen)
    as (bmap & Hb & Himg & Huniq); [rewrite length_take; lia|done|].
  rewrite tile_take_size in Hb.
  exists bmap. split; [done|]. intros x y. split.
  - intros Hxy. apply Huniq in Hxy as [Hx ->].
    by rewrite tile_point_take_size.
  - intros [Hx ->]. rewrite <- tile_point_take_size. by apply Himg.
Qed.

Lemma wrap_map_function nparam len first n size :
  (first + n <= len)%nat -> (n <= length size)%nat ->
  Forall (fun t => 0 < t) (take n size) ->
  exists bmap,
    wrap (isl_space_params_alloc nparam) len first n size = Some bmap /\
    forall x y, bmap_rel bmap x y <->
                length x = len /\ y = wrap_point first n size x.
Proof.
  intros Hlen Hn Hpos.
  assert (length (take n size) = n) as Hl by (rewrite length_take; lia).
  destruct (wrap_rel nparam len first n (take n size) Hlen Hl Hpos)
    as (bmap & Hb & Himg & _).
  exists bmap. split; [by rewrite wrap_take_size in Hb|].
  intros x y. split.
  - intros Hxy.
    apply (wrap_rel_unique nparam len first n (take n size)) in Hxy
      as [Hx ->]; [|done..].
    by rewrite wrap_point_take_size.
  - intros [Hx ->]. rewrite <- wrap_point_take_size. by apply Himg.
Qed.

Lemma tile_point_coords_gen len first n size s :
  (first + n <= len)%nat -> length s = len -> (n <= length size)%nat ->
  length (tile_point first n size s) = (len + n)%nat /\
  (forall p, (p < first)%nat -> tile_point first n size s !!! p = s !!! p) /\
  (forall i, (i < n)%nat ->
     tile_point first n size s !!! (first + i)%nat
     = s !!! (first + i)%nat `div` size_at size i /\
     tile_point first n size s !!! (first + i + n)%nat
     = s !!! (first + i)%nat `mod` size_at size i) /\
  (forall p, (first + n <= p < len)%nat ->
     tile_point first n size s !!! (p + n)%nat = s !!! p).
Proof.
  intros Hlen Hs Hn.
  destruct (tile_point_coords len first n (take n size) s Hlen Hs)
    as (Hl & Hpre & Hmid & Hpost); [rewrite length_take; lia|].
  rewrite tile_point_take_size in Hl, Hpre, Hmid, Hpost.
  split_and!; [done|done| |done].
  intros i Hi. destruct (Hmid i Hi) as [H1 H2].
  rewrite size_at_take in H1, H2 by done. done.
Qed.

Lemma wrap_point_coords_gen len first n size s :
  (first + n <= len)%nat -> length s = len -> (n <= length size)%nat ->
  length (wrap_point first n size s) = (len + n)%nat /\
  (forall p, (p < first + n)%nat -> wrap_point first n size s !!! p = s !!! p) /\
  (forall i, (i < n)%nat ->
     wrap_point first n size s !!! (first + n + i)%nat
     = s !!! (first + i)%nat `mod` size_at size i) /\
  (forall p, (first + n <= p < len)%nat ->
     wrap_point first n size s !!! (p + n)%nat = s !!! p).
Proof.
  intros Hlen Hs Hn.
  destruct (wrap_point_coords len first n (take n size) s Hlen Hs)
    as (Hl & Hpre & Hmid & Hpost); [rewrite length_take; lia|].
  rewrite wrap_point_take_size in Hl, Hpre, Hmid, Hpost.
  split_and!; [done|done| |done].
  intros i Hi. specialize (Hmid i Hi).
  by rewrite size_at_take in Hmid by done.
Qed.

End tile_schedule_points.

Section tile_schedule.
Implicit Types (options : ppcg_options) (gen : gpu_gen).
Implicit Types (t tile_size : list Z) (untiled_len : nat).

Lemma tile_schedule_rel options gen untiled_len tile_size nparam sched :
  let k := kernel gen in
  tile_first gen + tile_len k <= untiled_len ->
  n_grid k <= tile_len k ->
  tile_len k <= length tile_size -> n_grid k <= length (grid_dim k) ->
  Forall (fun v => 0 < v)%Z (take (tile_len k) tile_size) ->
  Forall (fun v => 0 < v)%Z (take (n_grid k) (grid_dim k)) ->
  exists sched',
    tile_schedule options gen untiled_len tile_size
      (isl_space_params_alloc nparam) (Some sched)
    = (set_shared_len gen (tile_first gen + tile_len k + n_grid k),
       untiled_len + tile_len k + n_grid k, Some sched') /\
    forall x t',
      sched' x t' <->
      exists t, sched x t /\ length t = untiled_len /\
                t' = tile_schedule_point options gen tile_size t.
Proof.
  intros k Hfit Hgrid Hts Hgd Hpos_ts Hpos_gd.
  destruct (tile_map_function nparam untiled_len (tile_first gen)
              (tile_len k) tile_size Hfit Hts Hpos_ts) as (b1 & Hb1 & Hrel1).
  assert (exists b2,
    (if opt_wrap options
     then wrap (isl_space_params_alloc nparam) (untiled_len + tile_len k)
            (tile_first gen) (n_grid k) (grid_dim k)
     else tile (isl_space_params_alloc nparam) (untiled_len + tile_len k)
            (tile_first gen) (n_grid k) (grid_dim k)) = Some b2 /\
    forall u y, bmap_rel b2 u y <->
      length u = untiled_len + tile_len k /\
      y = if opt_wrap options
          then wrap_point (tile_first gen) (n_grid k) (grid_dim k) u
          else tile_point (tile_first gen) (n_grid k) (grid_dim k) u)
    as (b2 & Hb2 & Hrel2).
  { destruct (opt_wrap options).
    - apply wrap_map_function; [lia|done|done].
    - apply tile_map_function; [lia|done|done]. }
  unfold tile_schedule. fold k. rewrite Hb1.
  replace (if opt_wrap options
           then isl_map_from_basic_map
                  (wrap (isl_space_params_alloc nparam)
                     (untiled_len + tile_len k) (tile_first gen)
                     (n_grid k) (grid_dim k))
           else isl_map_from_basic_map
                  (tile (isl_space_params_alloc nparam)
                     (untiled_len + tile_len k) (tile_first gen)
                     (n_grid k) (grid_dim k)))
    with (isl_map_from_basic_map (Some b2))
    by (rewrite <- Hb2; by destruct (opt_wrap options)).
  cbn [isl_map_from_basic_map isl_map_apply_range
       isl_union_map_apply_range_map mbind option_bind].
  eexists. split; [done|].
  intros x t'. cbn beta. unfold tile_schedule_point. fold k. split.
  - intros (t & Ht & u & Hu & Hy).
    apply Hrel1 in Hu as [Hl ->]. apply Hrel2 in Hy as [_ ->].
    by exists t.
  - intros (t & Ht & Hl & ->). exists t. split; [done|].
    exists (tile_point (tile_first gen) (tile_len k) tile_size t).
    split; [by apply Hrel1|]. apply Hrel2. split; [|done].
    destruct (tile_point_coords_gen untiled_len (tile_first gen)
                (tile_len k) tile_size t Hfit Hl Hts) as [-> _]. done.
Qed.

Lemma tile_schedule_point_coords options gen untiled_len tile_size t :
  let k := kernel gen in
  let tf := tile_first gen in
  let tl := tile_len k in
  let ng := n_grid k in
  let t' := tile_schedule_point options gen tile_size t in
  tf + tl <= untiled_len -> ng <= tl ->
  tl <= length tile_size -> ng <= length (grid_dim k) ->
  length t = untiled_len ->
  length t' = untiled_len + tl + ng /\
  (forall p, p < tf -> t' !!! p = t !!! p) /\
  (forall i, i < ng ->
     let outer := (t !!! (tf + i)%nat `div` size_at tile_size i)%Z in
     t' !!! (tf + i) = (if opt_wrap options then outer
                        else outer `div` size_at (grid_dim k) i)%Z /\
     t' !!! (tf + ng + i) = (outer `mod` size_at (grid_dim k) i)%Z) /\
  (forall i, ng <= i < tl ->
     t' !!! (tf + ng + i)
     = (t !!! (tf + i)%nat `div` size_at tile_size i)%Z) /\
  (forall i, i < tl ->
     t' !!! (tf + ng + tl + i)
     = (t !!! (tf + i)%nat `mod` size_at tile_size i)%Z) /\
  (forall p, tf + tl <= p < untiled_len -> t' !!! (p + tl + ng) = t !!! p).
Proof.
  intros k tf tl ng t' Hfit Hgrid Hts Hgd Hl.
  destruct (tile_point_coords_gen untiled_len tf tl tile_size t Hfit Hl Hts)
    as (Hul & Hupre & Humid & Hupost).
  set (u := tile_point tf tl tile_size t) in *.
  subst t'. unfold tile_schedule_point. fold k tf tl ng u.
  destruct (opt_wrap options).
  - destruct (wrap_point_coords_gen (untiled_len + tl) tf ng (grid_dim k) u
                ltac:(lia) Hul Hgd) as (Hwl & Hwpre & Hwmid & Hwpost).
    split_and!.
    + lia.
    + intros p Hp. rewrite Hwpre by lia. by apply Hupre.
    + intros i Hi. split.
      * rewrite Hwpre by lia. by destruct (Humid i ltac:(lia)) as [-> _].
      * rewrite Hwmid by done. by destruct (Humid i ltac:(lia)) as [-> _].
    + intros i Hi.
      replace (tf + ng + i) with (tf + i + ng) by lia.
      rewrite Hwpost by lia. by destruct (Humid i ltac:(lia)) as [-> _].
    + intros i Hi.
      replace (tf + ng + tl + i) with (tf + i + tl + ng) by lia.
      rewrite Hwpost by lia. by destruct (Humid i Hi) as [_ ->].
    + intros p Hp. rewrite Hwpost by lia. by apply Hupost.
  - destruct (tile_point_coords_gen (untiled_len + tl) tf ng (grid_dim k) u
                ltac:(lia) Hul Hgd) as (Hwl & Hwpre & Hwmid & Hwpost).
    split_and!.
    + lia.
    + intros p Hp. rewrite Hwpre by lia. by apply Hupre.
    + intros i Hi. destruct (Hwmid i Hi) as [H1 H2]. split.
      * rewrite H1. by destruct (Humid i ltac:(lia)) as [-> _].
      * replace (tf + ng + i) with (tf + i + ng) by lia.
        rewrite H2. by destruct (Humid i ltac:(lia)) as [-> _].
    + intros i Hi.
      replace (tf + ng + i) with (tf + i + ng) by lia.
      rewrite Hwpost by lia. by destruct (Humid i ltac:(lia)) as [-> _].
    + intros i Hi.
      replace (tf + ng + tl + i) with (tf + i + tl + ng) by lia.
      rewrite Hwpost by lia. by destruct (Humid i Hi) as [_ ->].
    + intros p Hp. rewrite Hwpost by lia. by apply Hupost.
Qed.

End tile_schedule.

(** [tile_schedule] composes the schedule with the tiling over the tile
    sizes and the tiling or wrapping over the grid sizes.  For positive
    sizes, each point in time of [untiled_len] coordinates gets exactly
    one image, of [untiled_len + tile_len + n_grid] coordinates; in the
    image, coordinate [tile_first + n_grid + i] is the block identifier
    [(t_i / tile_size_i) mod grid_dim_i] of grid dimension [i] (the
    position that [parametrize_tiled_schedule] equates to the block
    identifiers), with or without wrapping; the [tile_len] coordinates
    from [tile_first + n_grid + tile_len] on are the positions inside
    the tile, and the coordinates outside the tiled window are kept.
    [shared_len] is set to [tile_first + tile_len + n_grid]. *)
Theorem tile_schedule_spec options gen untiled_len tile_size nparam sched :
  let k := kernel gen in
  let tf := tile_first gen in
  let tl := tile_len k in
  let ng := n_grid k in
  tf + tl <= untiled_len -> ng <= tl ->
  tl <= length tile_size -> ng <= length (grid_dim k) ->
  Forall (fun v => 0 < v)%Z (take tl tile_size) ->
  Forall (fun v => 0 < v)%Z (take ng (grid_dim k)) ->
  exists sched',
    tile_schedule options gen untiled_len tile_size
      (isl_space_params_alloc nparam) (Some sched)
    = (set_shared_len gen (tf + tl + ng), untiled_len + tl + ng,
       Some sched') /\
    (forall x t, sched x t -> length t = untiled_len ->
       exists t', sched' x t' /\ forall t'', sched' x t'' ->
         (exists t0, sched x t0 /\
                     t'' = tile_schedule_point options gen tile_size t0)) /\
    forall x t', sched' x t' ->
      exists t, sched x t /\ length t = untiled_len /\
        length t' = untiled_len + tl + ng /\
        (forall p, p < tf -> t' !!! p = t !!! p) /\
        (forall i, i < ng ->
           let id := t' !!! (tf + ng + i) in
           id = ((t !!! (tf + i)%nat `div` size_at tile_size i)
                 `mod` size_at (grid_dim k) i)%Z /\
           (0 <= id < size_at (grid_dim k) i)%Z) /\
        (forall i, i < tl ->
           let inner := t' !!! (tf + ng + tl + i) in
           inner = (t !!! (tf + i)%nat `mod` size_at tile_size i)%Z /\
           (0 <= inner < size_at tile_size i)%Z) /\
        (forall p, tf + tl <= p < untiled_len ->
           t' !!! (p + tl + ng) = t !!! p).
Proof.
  intros k tf tl ng Hfit Hgrid Hts Hgd Hpos_ts Hpos_gd.
  destruct (tile_schedule_rel options gen untiled_len tile_size nparam sched
              Hfit Hgrid Hts Hgd Hpos_ts Hpos_gd) as (sched' & Hres & Hrel).
  fold k tf tl ng in Hres.
  exists sched'. split; [done|]. split.
  - intros x t Ht Hl.
    exists (tile_schedule_point options gen tile_size t). split.
    + apply Hrel. by exists t.
    + intros t'' Ht''. apply Hrel in Ht'' as (t0 & Ht0 & _ & ->).
      by exists t0.
  - intros x t' Ht'. apply Hrel in Ht' as (t & Ht & Hl & ->).
    destruct (tile_schedule_point_coords options gen untiled_len tile_size t
                Hfit Hgrid Hts Hgd Hl)
      as (Hlen & Hpre & Hblock & _ & Hinner & Hpost).
    fold k tf tl ng in Hlen, Hpre, Hblock, Hinner, Hpost.
    assert (Hpos : forall size n i, i < n ->
      Forall (fun v => 0 < v)%Z (take n size) -> n <= length size ->
      (0 < size_at size i)%Z).
    { intros size n i Hi Hall Hn. unfold size_at.
      rewrite Forall_forall in Hall. apply Hall.
      rewrite <- (lookup_total_take_lt size n i) by lia.
      apply list_elem_of_lookup_total_2. rewrite length_take. lia. }
    exists t. split_and!; [done..| | |done].
    + intros i Hi. destruct (Hblock i Hi) as [_ Hid].
      cbn zeta. rewrite Hid. split; [done|].
      apply Z.mod_pos_bound. by apply (Hpos _ ng).
    + intros i Hi. cbn zeta. rewrite (Hinner i Hi). split; [done|].
      apply Z.mod_pos_bound. by apply (Hpos _ tl).
Qed.

Lemma tile_schedule_spec_witness :
  let k := {| k_id := 0; tile_len := 2; n_parallel := 1; n_grid := 1;
              n_block := 1; grid_dim := [3; 0]%Z; block_dim := [0; 0; 0]%Z;
              array := []; any_force_private := false;
              max_shared_memory := 0%Z;
              block_filter := fun _ => []; grid_size := [] |} in
  let gen := {| kernel := k; tile_first := 0; shared_len := 0;
                thread_tiled_len := 0; first_unroll := (-1)%Z |} in
  let options := {| opt_wrap := true; opt_scale_tile_loops := true |} in
  exists sched',
    (tile_schedule options gen 2 [4; 5]%Z (isl_space_params_alloc 0)
       (Some (fun x t => t = x.2))).2 = Some sched' /\
    forall x t', sched' x t' -> length t' = 5.
Proof.
  intros k gen options.
  destruct (tile_schedule_spec options gen 2 [4; 5]%Z 0 (fun x t => t = x.2))
    as (sched' & Hres & _ & Hcoords).
  - vm_compute. lia.
  - vm_compute. lia.
  - vm_compute. lia.
  - vm_compute. lia.
  - repeat constructor.
  - repeat constructor.
  - exists sched'. split; [exact (f_equal snd Hres)|].
    intros x t' Ht'. by destruct (Hcoords x t' Ht') as (t & _ & _ & Hl & _).
Defined.

(** With scaling on, [scale_tile_loops] after [tile_schedule] turns the
    tile coordinates into tile origins: for each tiled dimension the
    scaled tile-loop coordinates and the position inside the tile add
    up to the original coordinate.  With wrapping, the tile coordinate
    of a grid dimension is kept whole and scaled by the tile size;
    without wrapping, it is split over the grid size and the two parts
    are scaled by the tile size times the grid size and by the tile
    size.  The product of the tile size and the grid size is computed
    as an [int], so this holds as long as an [int] can hold it. *)
Theorem tile_schedule_scaled options gen untiled_len tile_size nparam sched :
  let k := kernel gen in
  let tf := tile_first gen in
  let tl := tile_len k in
  let ng := n_grid k in
  let dim := isl_space_params_alloc nparam in
  tf + tl <= untiled_len -> ng <= tl ->
  tl <= length tile_size -> ng <= length (grid_dim k) ->
  Forall (fun v => 0 < v)%Z (take tl tile_size) ->
  Forall (fun v => 0 < v)%Z (take ng (grid_dim k)) ->
  (opt_wrap options = false ->
   forall i, i < ng ->
     (size_at tile_size i * size_at (grid_dim k) i <= int_max)%Z) ->
  opt_scale_tile_loops options = true ->
  let '(gen', tiled_len, sched') :=
    tile_schedule options gen untiled_len tile_size dim (Some sched) in
  exists sched'',
    scale_tile_loops options gen' tiled_len tile_size dim sched'
    = Some sched'' /\
    (forall x t, sched x t -> length t = untiled_len ->
       exists t'', sched'' x t'') /\
    forall x t'', sched'' x t'' ->
      exists t, sched x t /\ length t = untiled_len /\
        length t'' = untiled_len + tl + ng /\
        (forall i, i < ng ->
           (if opt_wrap options
            then t'' !!! (tf + i)%nat + t'' !!! (tf + ng + tl + i)%nat
            else t'' !!! (tf + i)%nat + t'' !!! (tf + ng + i)%nat
                 + t'' !!! (tf + ng + tl + i)%nat)%Z
           = t !!! (tf + i)) /\
        (forall i, ng <= i < tl ->
           (t'' !!! (tf + ng + i)%nat + t'' !!! (tf + ng + tl + i)%nat)%Z
           = t !!! (tf + i)).
Proof.
  intros k tf tl ng dim Hfit Hgrid Hts Hgd Hpos_ts Hpos_gd Hint Hscale.
  destruct (tile_schedule_rel options gen untiled_len tile_size nparam sched
              Hfit Hgrid Hts Hgd Hpos_ts Hpos_gd) as (sched' & Hres & Hrel).
  fold k tf tl ng dim in Hres. rewrite Hres.
  unfold scale_tile_loops. rewrite Hscale. cbn [negb].
  set (gen' := set_shared_len gen (tf + tl + ng)).
  destruct (scale_map_rel nparam (untiled_len + tl + ng)
              (tile_loop_factor options gen' tile_size))
    as (bmap & Hmap & Hscaled).
  subst dim. rewrite Hmap.
  cbn [isl_union_map_apply_range mbind option_bind].
  eexists. split; [done|]. cbn beta.
  assert (Hpos : forall size n i, i < n ->
    Forall (fun v => 0 < v)%Z (take n size) -> n <= length size ->
    (0 < size_at size i)%Z).
  { intros size n i Hi Hall Hn. unfold size_at.
    rewrite Forall_forall in Hall. apply Hall.
    rewrite <- (lookup_total_take_lt size n i) by lia.
    apply list_elem_of_lookup_total_2. rewrite length_take. lia. }
  assert (Hfactor : forall i,
    (i < ng ->
     tile_loop_factor options gen' tile_size (tf + i)
     = if opt_wrap options then size_at tile_size i
       else (size_at tile_size i * size_at (grid_dim k) i)%Z) /\
    (i < tl ->
     tile_loop_factor options gen' tile_size (tf + ng + i)
     = size_at tile_size i /\
     tile_loop_factor options gen' tile_size (tf + ng + tl + i) = 1%Z)).
  { intros i. unfold tile_loop_factor.
    cbn [gen' set_shared_len kernel tile_first]. fold k tf tl ng.
    split.
    - intros Hi. rewrite decide_True by lia.
      replace (tf + i - tf) with i by lia.
      destruct (opt_wrap options); [done|]. cbn [negb].
      pose proof (Hpos tile_size tl i ltac:(lia) Hpos_ts Hts) as Hp1.
      pose proof (Hpos (grid_dim k) ng i Hi Hpos_gd Hgd) as Hp2.
      pose proof (Hint eq_refl i Hi) as Hmax.
      unfold to_int, int_min, int_max in *.
      rewrite Z.mod_small by nia. lia.
    - intros Hi. split.
      + rewrite decide_False by lia. rewrite decide_True by lia.
        by replace (tf + ng + i - (tf + ng)) with i by lia.
      + rewrite !decide_False by lia. done. }
  split.
  - intros x t Ht Hl.
    set (t' := tile_schedule_point options gen tile_size t).
    destruct (tile_schedule_point_coords options gen untiled_len tile_size t
                Hfit Hgrid Hts Hgd Hl) as (Hlen & _).
    fold k tl ng t' in Hlen.
    exists (imap (fun i v => (tile_loop_factor options gen' tile_size i * v)%Z)
                 t').
    exists t'. split; [apply Hrel; by exists t|].
    apply Hscaled. split_and!; [done|by rewrite length_imap|].
    intros i Hi. apply list_lookup_total_correct.
    rewrite list_lookup_imap.
    rewrite (list_lookup_lookup_total_lt t' i) by lia. done.
  - intros x t'' (t' & Ht' & Hb).
    apply Hrel in Ht' as (t & Ht & Hl & ->).
    apply Hscaled in Hb as (_ & Hl'' & Hcoord).
    destruct (tile_schedule_point_coords options gen untiled_len tile_size t
                Hfit Hgrid Hts Hgd Hl)
      as (Hlen & _ & Hblock & Houter & Hinner & _).
    fold k tf tl ng in Hlen, Hblock, Houter, Hinner.
    exists t. split_and!; [done..| |].
    + intros i Hi.
      destruct (Hfactor i) as [Hf1 Hf2].
      destruct (Hf2 ltac:(lia)) as [Hf3 Hf4].
      destruct (Hblock i Hi) as [Hb1 Hb2]. cbn zeta in Hb1, Hb2.
      rewrite !Hcoord by lia.
      rewrite Hf1, Hf3, Hf4, Hb1, Hb2, (Hinner i ltac:(lia)) by done.
      pose proof (Hpos tile_size tl i ltac:(lia) Hpos_ts Hts) as Hp1.
      pose proof (Hpos (grid_dim k) ng i Hi Hpos_gd Hgd) as Hp2.
      pose proof (Z.div_mod (t !!! (tf + i)) (size_at tile_size i)
                    ltac:(lia)) as Hd1.
      pose proof (Z.div_mod (t !!! (tf + i) `div` size_at tile_size i)
                    (size_at (grid_dim k) i) ltac:(lia)) as Hd2.
      destruct (opt_wrap options); [lia|].
      rewrite Hd2 in Hd1 at 1. lia.
    + intros i Hi.
      destruct (Hfactor i) as [_ Hf2].
      destruct (Hf2 ltac:(lia)) as [Hf3 Hf4].
      rewrite !Hcoord by lia.
      rewrite Hf3, Hf4, (Houter i Hi), (Hinner i ltac:(lia)).
      pose proof (Hpos tile_size tl i ltac:(lia) Hpos_ts Hts) as Hp1.
      pose proof (Z.div_mod (t !!! (tf + i)) (size_at tile_size i)
                    ltac:(lia)) as Hd1.
      lia.
Qed.

Lemma tile_schedule_scaled_witness :
  let k := {| k_id := 0; tile_len := 2; n_parallel := 1; n_grid := 1;
              n_block := 1; grid_dim := [3; 0]%Z; block_dim := [0; 0; 0]%Z;
              array := []; any_force_private := false;
              max_shared_memory := 0%Z;
              block_filter := fun _ => []; grid_size := [] |} in
  let gen := {| kernel := k; tile_first := 0; shared_len := 0;
                thread_tiled_len := 0; first_unroll := (-1)%Z |} in
  let options := {| opt_wrap := false; opt_scale_tile_loops := true |} in
  let sched : union_map := fun x t => t = x.2 in
  let '(gen', tiled_len, sched') :=
    tile_schedule options gen 2 [4; 5]%Z (isl_space_params_alloc 0)
      (Some sched) in
  exists sched'',
    scale_tile_loops options gen' tiled_len [4; 5]%Z
      (isl_space_params_alloc 0) sched' = Some sched''.
Proof.
  intros k gen options sched.
  assert (H := tile_schedule_scaled options gen 2 [4; 5]%Z 0 sched).
  cbn zeta in H.
  destruct (tile_schedule options gen 2 [4; 5]%Z (isl_space_params_alloc 0)
              (Some sched)) as [[gen' tiled_len] sched'].
  destruct H as (sched'' & Hs & _).
  - vm_compute. lia.
  - vm_compute. lia.
  - vm_compute. lia.
  - vm_compute. lia.
  - repeat constructor.
  - repeat constructor.
  - intros _ i Hi. assert (i = 0) as -> by (vm_compute in Hi; lia).
    vm_compute. discriminate.
  - reflexivity.
  - exists sched''. exact Hs.
Defined.

(** ** Loops that count and then fill an array *)

Section count_and_fill.
Context {A B : Type}.
Implicit Types (l : list A) (n m : nat) (arr pre : list (option B)).

Lemma foldl_nested {C S} (g : S -> C -> S) (h : A -> list C) (s : S) l :
  foldl (fun s x => foldl g s (h x)) s l = foldl g s (concat (map h l)).
Proof.
  revert s. induction l as [|x l IH]; intros s; [done|].
  cbn [foldl map concat]. by rewrite foldl_app, IH.
Qed.

Lemma foldl_nested_pair {C S1 S2} (g : S1 * S2 -> C -> S1 * S2)
    (h : A -> list C) (s : S1 * S2) l :
  foldl (fun '(a, b) x => foldl g (a, b) (h x)) s l
  = foldl g s (concat (map h l)).
Proof.
  rewrite <- foldl_nested. apply foldl_fun_ext. by intros [a b] x.
Qed.

Lemma count_loop (P : A -> bool) l n :
  foldl (fun n x => if P x then S n else n) n l
  = n + length (filter (fun x => P x = true) l).
Proof.
  revert n. induction l as [|x l IH]; intros n; cbn [foldl]; [cbn; lia|].
  rewrite IH. destruct (P x) eqn:HP.
  - rewrite filter_cons_True by done. cbn. lia.
  - rewrite filter_cons_False by congruence. done.
Qed.

Lemma fill_loop (skip : A -> bool) (f : A -> B) l pre m :
  length (filter (fun x => skip x = false) l) <= m ->
  foldl (fun '(arr, n) x =>
           if skip x then (arr, n) else (<[n := Some (f x)]> arr, S n))
        (pre ++ replicate m None, length pre) l
  = (pre ++ map (fun x => Some (f x)) (filter (fun x => skip x = false) l)
         ++ replicate (m - length (filter (fun x => skip x = false) l)) None,
     length pre + length (filter (fun x => skip x = false) l)).
Proof.
  revert pre m. induction l as [|x l IH]; intros pre m Hm; cbn [foldl].
  - cbn. by rewrite Nat.sub_0_r, Nat.add_0_r.
  - destruct (skip x) eqn:Hs.
    + rewrite filter_cons_False in Hm |- * by congruence. by apply IH.
    + rewrite filter_cons_True in Hm |- * by done. cbn [length] in Hm.
      destruct m as [|m]; [lia|].
      replace (<[length pre := Some (f x)]> (pre ++ replicate (S m) None))
        with ((pre ++ [Some (f x)]) ++ replicate m None).
      2:{ rewrite insert_app_r_alt by lia. rewrite Nat.sub_diag.
          cbn. by rewrite <- app_assoc. }
      replace (S (length pre)) with (length (pre ++ [Some (f x)]))
        by (rewrite length_app; cbn; lia).
      rewrite IH by lia. rewrite length_app. cbn [length map].
      rewrite <- app_assoc. cbn [app]. f_equal. lia.
Qed.

(** A loop that counts the elements to keep and a loop that stores
    them in an array of that many cells: every cell is written, none
    is written twice and nothing is written outside of the array. *)
Lemma count_then_fill (keep skip : A -> bool) (f : A -> B) l :
  (forall x, skip x = negb (keep x)) ->
  let n := foldl (fun n x => if keep x then S n else n) 0 l in
  n = length (filter (fun x => keep x = true) l) /\
  foldl (fun '(arr, n) x =>
           if skip x then (arr, n) else (<[n := Some (f x)]> arr, S n))
        (replicate n None, 0) l
  = (map (fun x => Some (f x)) (filter (fun x => keep x = true) l), n).
Proof.
  intros Hskip n.
  assert (Hn : n = length (filter (fun x => keep x = true) l)).
  { subst n. by rewrite count_loop. }
  assert (Hfilter : filter (fun x => skip x = false) l
                    = filter (fun x => keep x = true) l).
  { apply list_filter_iff. intros x. rewrite Hskip.
    by destruct (keep x). }
  split; [done|].
  pose proof (fill_loop skip f l [] n) as Hfill.
  rewrite Hfilter in Hfill. cbn [app length] in Hfill.
  rewrite Hfill by lia.
  rewrite <- Hn, Nat.sub_diag. cbn [replicate]. by rewrite app_nil_r.
Qed.

End count_and_fill.

(** [create_kernel_vars] allocates one variable for each group with a
    tile and fills every cell of the array: variable [k] belongs to the
    group that [body_schedule] numbers [k], it is private exactly when
    the group has a private tile (also when it has a shared tile as
    well), and its sizes are those of the tile that is selected. *)
Theorem create_kernel_vars_spec kernel :
  create_kernel_vars kernel
  = (length (tiled_groups kernel),
     map (fun group => Some (create_kernel_var group))
         (tiled_groups kernel)) /\
  forall k group,
    tiled_groups kernel !! k = Some group ->
    exists var,
      (create_kernel_vars kernel).2 !! k = Some (Some var) /\
      var_name var = group_name group /\
      (var_type var = ppcg_access_private <->
       has_tile (private_tile group) = true) /\
      Some (GpuArrayTile (var_size var))
      = match private_tile group with
        | Some tile => Some tile
        | None => shared_tile group
        end.
Proof.
  assert (Hvars : create_kernel_vars kernel
    = (length (tiled_groups kernel),
       map (fun group => Some (create_kernel_var group))
           (tiled_groups kernel))).
  { unfold create_kernel_vars.
    rewrite (foldl_nested
      (fun n group =>
         if has_tile (private_tile group) || has_tile (shared_tile group)
         then S n else n) groups).
    rewrite (foldl_nested_pair
      (fun '(var, n) group =>
         if negb (has_tile (private_tile group))
            && negb (has_tile (shared_tile group))
         then (var, n)
         else (<[n := Some (create_kernel_var group)]> var, S n)) groups).
    destruct (count_then_fill
      (fun group => has_tile (private_tile group)
                    || has_tile (shared_tile group))
      (fun group => negb (has_tile (private_tile group))
                    && negb (has_tile (shared_tile group)))
      create_kernel_var (concat (map groups (array kernel))))
      as [Hn Hfill].
    { intros group. by rewrite negb_orb. }
    cbn zeta in Hn, Hfill. rewrite Hfill. by rewrite Hn. }
  split; [done|].
  intros k group Hk. rewrite Hvars. cbn [snd].
  exists (create_kernel_var group). split.
  { by rewrite list_lookup_fmap, Hk. }
  apply tiled_groups_lookup in Hk as [_ Htile].
  unfold create_kernel_var.
  destruct (private_tile group) as [[sizes]|] eqn:Hp; cbn.
  - done.
  - try rewrite Hp in Htile. cbn in Htile.
    destruct (shared_tile group) as [[sizes]|]; [|done].
    split_and!; done.
Qed.

(** [collect_references] stores in [refs], in the order of the
    statements and of their accesses, exactly the accesses whose array
    name is the name of the array, and [n_ref] is their number: the
    second loop fills every cell that the first loop counted.  An
    array with compound elements is left as it is. *)
Theorem collect_references_spec stmts array_ :
  let array' := collect_references stmts array_ in
  let all := concat (map accesses stmts) in
  if has_compound_element array_ then array' = array_
  else
    refs array' = map Some (filter (fun access =>
                                      access_name access
                                      = Some (array_name array_)) all) /\
    n_ref array' = length (refs array') /\
    array_name array' = array_name array_ /\
    forall access, Some access ∈ refs array' <->
      access ∈ all /\ access_name access = Some (array_name array_).
Proof.
  cbn zeta. unfold collect_references.
  destruct (has_compound_element array_); [done|].
  rewrite (foldl_nested
    (fun n access => if names_array array_ access then S n else n)
    accesses).
  rewrite (foldl_nested_pair
    (fun '(refs, n) access =>
       if match access_name access with
          | None => true
          | Some name => negb (bool_decide (array_name array_ = name))
          end
       then (refs, n)
       else (<[n := Some access]> refs, S n)) accesses).
  destruct (count_then_fill (names_array array_)
    (fun access => match access_name access with
                   | None => true
                   | Some name => negb (bool_decide (array_name array_ = name))
                   end)
    (fun access => access) (concat (map accesses stmts))) as [Hn Hfill].
  { intros access. unfold names_array. by destruct (access_name access). }
  cbn zeta in Hn, Hfill. rewrite Hfill. cbn [set_refs refs n_ref array_name].
  assert (Hfilter :
    filter (fun access => names_array array_ access = true)
           (concat (map accesses stmts))
    = filter (fun access => access_name access = Some (array_name array_))
             (concat (map accesses stmts))).
  { apply list_filter_iff. intros access. unfold names_array.
    destruct (access_name access) as [name|]; [|done].
    rewrite bool_decide_eq_true. split; congruence. }
  rewrite Hn, Hfilter. split_and!; [done|by rewrite length_map|done|].
  intros access. rewrite list_elem_of_fmap. split.
  - intros (a & [= <-] & Ha). by apply list_elem_of_filter in Ha as [? ?].
  - intros [Hin Hname]. exists access. split; [done|].
    by apply list_elem_of_filter.
Qed.

(** ** Searches *)

Section searches.

Lemma find_array_index_from_spec arrays name i0 :
  match list_find (fun array_ => name = array_name array_) arrays with
  | Some (i, _) => find_array_index_from arrays name i0 = Z.of_nat (i0 + i)
  | None => find_array_index_from arrays name i0 = (-1)%Z
  end.
Proof.
  revert i0. induction arrays as [|a arrays IH]; intros i0; [done|].
  cbn [find_array_index_from list_find].
  case_bool_decide as Hname.
  - rewrite decide_True by done. f_equal. lia.
  - rewrite decide_False by done. specialize (IH (S i0)).
    destruct (list_find _ arrays) as [[i a']|]; cbn; [|done].
    rewrite IH. f_equal. lia.
Qed.

End searches.

(** [find_array_index] returns the index of the first array with the
    given name, and -1 exactly when no array has that name;
    [find_stmt] and [find_access] return the first statement with the
    given identifier and the first access with the given reference
    identifier, and NULL exactly when there is none. *)
Theorem find_first_spec (arrays : list gpu_array_info) (stmts : list gpu_stmt)
    (accs : list gpu_stmt_access) (name : string) :
  (match list_find (fun array_ => name = array_name array_) arrays with
   | Some (i, _) => find_array_index arrays name = Z.of_nat i
   | None => find_array_index arrays name = (-1)%Z
   end) /\
  (find_array_index arrays name = (-1)%Z <->
   forall array_, array_ ∈ arrays -> array_name array_ <> name) /\
  (forall i : nat, find_array_index arrays name = Z.of_nat i ->
     exists array_, arrays !! i = Some array_ /\ array_name array_ = name /\
       forall j array', j < i -> arrays !! j = Some array' ->
                        array_name array' <> name) /\
  find_stmt stmts name
  = snd <$> list_find (fun stmt => name = stmt_id stmt) stmts /\
  find_access accs name
  = snd <$> list_find (fun access => ref_id access = name) accs.
Proof.
  pose proof (find_array_index_from_spec arrays name 0) as Hfind.
  fold (find_array_index arrays name) in Hfind.
  split_and!.
  - done.
  - destruct (list_find _ arrays) as [[i a]|] eqn:Hl.
    + apply list_find_Some in Hl as (Hi & Hname & _).
      split; [lia|]. intros Hnone. exfalso.
      apply (Hnone a); [by apply list_elem_of_lookup_2 in Hi|done].
    + apply list_find_None in Hl. rewrite Forall_forall in Hl.
      split; [|done]. intros _ a Ha Hname. by apply (Hl a).
  - intros i Hi.
    destruct (list_find _ arrays) as [[i' a]|] eqn:Hl; [|lia].
    assert (i' = i) as -> by lia.
    apply list_find_Some in Hl as (Hi' & Hname & Hfirst).
    exists a. split_and!; [done..|].
    intros j a' Hj Ha' Hn. by apply (Hfirst j a').
  - induction stmts as [|stmt stmts IH]; [done|].
    cbn [find_stmt list_find]. case_bool_decide.
    + by rewrite decide_True.
    + rewrite decide_False by done. rewrite IH.
      by destruct (list_find _ stmts) as [[? ?]|].
  - induction accs as [|access accs IH]; [done|].
    cbn [find_access list_find]. case_bool_decide.
    + by rewrite decide_True.
    + rewrite decide_False by done. rewrite IH.
      by destruct (list_find _ accs) as [[? ?]|].
Qed.

(** ** Independences *)

(** [remove_independences] keeps exactly the order dependences that lie
    in no filter of an independence for which the array is not local;
    in particular it only removes pairs, and it changes nothing for an
    array that is local to every independence. *)
Theorem remove_independences_spec independences array_ order :
  (forall d, d ∈ remove_independences independences array_ order <->
     d ∈ order /\
     forall pi, pi ∈ independences ->
       array_name array_ ∉ pi_local pi -> d ∉ pi_filter pi) /\
  remove_independences independences array_ order ⊆ order /\
  ((forall pi, pi ∈ independences -> array_name array_ ∈ pi_local pi) ->
   remove_independences independences array_ order = order).
Proof.
  assert (Hspec : forall d,
    d ∈ remove_independences independences array_ order <->
    d ∈ order /\
    forall pi, pi ∈ independences ->
      array_name array_ ∉ pi_local pi -> d ∉ pi_filter pi).
  { intros d. unfold remove_independences. revert order.
    induction independences as [|pi pis IH]; intros order; cbn [foldl].
    - split; [|by intros [? _]]. intros Hd. split; [done|].
      intros pi Hpi. by apply elem_of_nil in Hpi.
    - rewrite IH. case_bool_decide as Hlocal.
      + split.
        * intros [Hd Hrest]. split; [done|]. intros pi' Hpi' Hnl.
          apply elem_of_cons in Hpi' as [->|Hpi']; [done|]. by apply Hrest.
        * intros [Hd Hall]. split; [done|]. intros pi' Hpi'.
          apply Hall. apply elem_of_cons. by right.
      + rewrite elem_of_difference. split.
        * intros [[Hd Hpi] Hrest]. split; [done|]. intros pi' Hpi' Hnl.
          apply elem_of_cons in Hpi' as [->|Hpi']; [done|]. by apply Hrest.
        * intros [Hd Hall]. split; [split; [done|]|].
          -- apply Hall; [apply elem_of_cons; by left|done].
          -- intros pi' Hpi'. apply Hall. apply elem_of_cons. by right. }
  split_and!; [done| |].
  - intros d Hd. by apply Hspec in Hd as [? _].
  - intros Hlocal. apply set_eq. intros d. rewrite Hspec. split.
    + by intros [? _].
    + intros Hd. split; [done|]. intros pi Hpi Hnl.
      by specialize (Hlocal pi Hpi).
Qed.

(** ** The positive size guard *)

(** [gpu_array_positive_size_guard] holds at a parameter point exactly
    when each of the [n_index] bounds of the array is defined there and
    positive; for a scalar it is the universe. *)
Theorem gpu_array_positive_size_guard_spec array_ p :
  (gpu_array_positive_size_guard array_ p = true <->
   forall bound_i, bound_i ∈ take (n_index array_) (bound array_) ->
     exists v, bound_i p = Some v /\ (0 < v)%Z) /\
  (n_index array_ = 0 -> gpu_array_positive_size_guard array_ p = true).
Proof.
  unfold gpu_array_positive_size_guard.
  assert (Hfold : forall bounds (guard : isl_param_set),
    foldl (fun guard bound_i =>
             isl_set_intersect guard
               (isl_set_subtract (isl_pw_aff_nonneg_set bound_i)
                  (isl_pw_aff_zero_set bound_i))) guard bounds p = true <->
    guard p = true /\
    forall bound_i : isl_pw_aff, bound_i ∈ bounds ->
      exists v, bound_i p = Some v /\ (0 < v)%Z).
  { induction bounds as [|b bounds IH]; intros guard; cbn [foldl].
    - split; [|by intros [? _]]. intros Hg. split; [done|].
      intros b Hb. by apply elem_of_nil in Hb.
    - rewrite IH.
      unfold isl_set_intersect, isl_set_subtract, isl_pw_aff_nonneg_set,
        isl_pw_aff_zero_set.
      rewrite andb_true_iff. split.
      + intros [[Hg Hb] Hrest]. split; [done|]. intros b' Hb'.
        apply elem_of_cons in Hb' as [->|Hb']; [|by apply Hrest].
        destruct (b p) as [v|]; [|done]. exists v. split; [done|].
        apply andb_true_iff in Hb as [H1 H2].
        apply bool_decide_eq_true in H1. apply negb_true_iff in H2.
        apply bool_decide_eq_false in H2. lia.
      + intros [Hg Hall]. split; [split; [done|]|].
        * destruct (Hall b) as (v & -> & Hv); [apply elem_of_cons; by left|].
          apply andb_true_iff. split.
          -- apply bool_decide_eq_true. lia.
          -- apply negb_true_iff, bool_decide_eq_false. lia.
        * intros b' Hb'. apply Hall. apply elem_of_cons. by right. }
  split.
  - rewrite Hfold. unfold isl_set_universe. split; [by intros [_ ?]|done].
  - intros ->. done.
Qed.

(** ** Selecting the outermost tilable bands *)

Section outer_bands.
Implicit Types (node child : schedule_tree) (t : host_tree) (pos : nat).

Lemma schedule_tree_Forall_ind (P : schedule_tree -> Prop) :
  P tree_leaf ->
  (forall child, P child -> P (tree_domain child)) ->
  (forall child, P child -> P (tree_filter child)) ->
  (forall band permutable child, P child ->
     P (tree_band band permutable child)) ->
  (forall children, Forall P children -> P (tree_list children)) ->
  P tree_other ->
  forall node, P node.
Proof.
  intros Hleaf Hdomain Hfilter Hband Hlist Hother.
  fix IH 1. intros [|child|child|band permutable child|children|].
  - exact Hleaf.
  - apply Hdomain, IH.
  - apply Hfilter, IH.
  - apply Hband, IH.
  - apply Hlist. induction children as [|child children IHc].
    + constructor.
    + constructor; [apply IH|exact IHc].
  - exact Hother.
Qed.

Lemma max_tile_first_spec (info : list nat) (m0 : nat) :
  let m := foldl (fun max_tile_first tile_first =>
                    if decide (max_tile_first < tile_first) then tile_first
                    else max_tile_first) m0 info in
  m0 <= m /\ (forall tf, tf ∈ info -> tf <= m) /\ (m = m0 \/ m ∈ info).
Proof.
  revert m0. induction info as [|tf info IH]; intros m0; cbn [foldl].
  - split; [done|]. split; [|by left].
    intros tf Htf. by apply elem_of_nil in Htf.
  - destruct (IH (if decide (m0 < tf) then tf else m0)) as (Hle & Hall & Hin).
    split_and!.
    + case_decide; lia.
    + intros tf' Htf'. apply elem_of_cons in Htf' as [->|Htf'].
      * case_decide; lia.
      * by apply Hall.
    + destruct Hin as [Hin|Hin].
      * case_decide; [|by left]. right. rewrite Hin.
        apply elem_of_cons. by left.
      * right. apply elem_of_cons. by right.
Qed.

Lemma elem_of_concat_map {A B} (f : A -> list B) (l : list A) (b : B) :
  b ∈ concat (map f l) <-> exists a, a ∈ l /\ b ∈ f a.
Proof.
  induction l as [|a l IH]; cbn [map concat].
  - split; [intros H; by apply elem_of_nil in H|].
    intros (a & Ha & _). by apply elem_of_nil in Ha.
  - rewrite elem_of_app, IH. split.
    + intros [Hb|(a' & Ha' & Hb)].
      * exists a. split; [apply elem_of_cons; by left|done].
      * exists a'. split; [apply elem_of_cons; by right|done].
    + intros (a' & Ha' & Hb). apply elem_of_cons in Ha' as [->|Ha'].
      * by left.
      * right. by exists a'.
Qed.

End outer_bands.

Section outer_bands_selected.
Implicit Types (node child : schedule_tree) (t : host_tree) (pos : nat).
Implicit Types (par : bool).

Lemma select_children_spec pos (children : list schedule_tree) :
  Forall (fun child => forall par par' t tf,
            select_outer_band par child pos = Some (par', t, tf) ->
            selected_at pos par par' child t tf) children ->
  forall par par' ts info,
    select_children (fun par child => select_outer_band par child pos)
      children par = Some (par', ts, info) ->
    map erase_kernels ts = children /\
    foldr (fun c rest => no_kernel_band_above c /\ rest) True ts /\
    length info = length ts /\
    (forall i t tf, ts !! i = Some t -> info !! i = Some tf ->
       Forall (fun k => k.1.1 = k.1.2 /\ pos <= k.1.2 <= tf /\
                        kernel_root k.2) (kernels pos t) /\
       exists k, k ∈ kernels pos t /\ k.1.2 = tf) /\
    par' = par || existsb (fun k => is_band k.2)
                    (concat (map (kernels pos) ts)).
Proof.
  induction 1 as [|child children Hchild _ IH]; intros par par' ts info.
  - cbn. intros [= <- <- <-]. split_and!; [done..| |by rewrite orb_false_r].
    intros i t tf Hi. by rewrite lookup_nil in Hi.
  - cbn [select_children].
    destruct (select_outer_band par child pos) as [[[par1 t1] tf1]|] eqn:H1;
      [|done].
    cbn [mbind option_bind].
    destruct (select_children _ children par1) as [[[par2 ts2] info2]|]
      eqn:H2; [|done].
    cbn [mbind option_bind]. intros [= <- <- <-].
    destruct (Hchild _ _ _ _ H1) as (He & Hn & Hk & Hex & Hp).
    destruct (IH _ _ _ _ H2) as (Hes & Hns & Hl & Hks & Hps).
    split_and!.
    + cbn. by rewrite He, Hes.
    + done.
    + cbn. by rewrite Hl.
    + intros [|i] t tf Ht Htf.
      * cbn in Ht, Htf. by injection Ht as <-; injection Htf as <-.
      * cbn in Ht, Htf. by apply (Hks i).
    + cbn [map concat]. rewrite existsb_app, Hps, Hp.
      by rewrite orb_assoc.
Qed.

Lemma select_outer_band_selected node :
  forall par pos par' t tf,
    select_outer_band par node pos = Some (par', t, tf) ->
    selected_at pos par par' node t tf.
Proof.
  induction node as [|child IH|child IH|band permutable child IH|children IH|]
    using schedule_tree_Forall_ind; intros par pos par' t tf;
    cbn [select_outer_band].
  - intros [= <- <- <-]. unfold selected_at. cbn.
    split_and!; [done|done| |by exists (pos, pos, tree_leaf); rewrite list_elem_of_singleton|by rewrite orb_false_r].
    by repeat constructor.
  - destruct (select_outer_band par child pos) as [[[par1 t1] tf1]|] eqn:H1;
      [|done].
    cbn. intros [= <- <- <-].
    destruct (IH _ _ _ _ _ H1) as (He & Hn & Hk & Hex & Hp).
    unfold selected_at. cbn. by rewrite He.
  - destruct (select_outer_band par child pos) as [[[par1 t1] tf1]|] eqn:H1;
      [|done].
    cbn. intros [= <- <- <-].
    destruct (IH _ _ _ _ _ H1) as (He & Hn & Hk & Hex & Hp).
    unfold selected_at. cbn. by rewrite He.
  - destruct (negb permutable || bool_decide (n_outer_coincidence band = 0))
      eqn:Hsel.
    + destruct (select_outer_band par child (pos + band_n_member band))
        as [[[par1 t1] tf1]|] eqn:H1; [|done].
      cbn. intros [= <- <- <-].
      destruct (IH _ _ _ _ _ H1) as (He & Hn & Hk & Hex & Hp).
      unfold selected_at. cbn [erase_kernels no_kernel_band_above kernels].
      rewrite He. split_and!; [done| |done| |done|done].
      * apply orb_true_iff in Hsel as [Hsel|Hsel].
        -- left. by destruct permutable.
        -- right. by apply bool_decide_eq_true in Hsel.
      * eapply Forall_impl; [exact Hk|]. intros k (? & ? & ?).
        split_and!; [done|lia|lia|done].
    + intros [= <- <- <-]. unfold selected_at.
      cbn [erase_kernels no_kernel_band_above kernels existsb is_band snd].
      apply orb_false_iff in Hsel as [Hperm Hpar].
      apply negb_false_iff in Hperm. apply bool_decide_eq_false in Hpar.
      split_and!; [done|done| | |by destruct par].
      * constructor; [|constructor]. cbn.
        split_and!; [done|lia|lia|done|lia].
      * eexists. split; [by apply list_elem_of_singleton|done].
  - destruct children as [|child0 children0]; [done|].
    set (children := child0 :: children0) in *.
    destruct (select_children _ children par) as [[[par1 ts] info]|] eqn:H1;
      [|done].
    cbn [mbind option_bind]. intros [= <- <- <-].
    assert (IHpos : Forall (fun child => forall par par' t tf,
              select_outer_band par child pos = Some (par', t, tf) ->
              selected_at pos par par' child t tf) children).
    { eapply Forall_impl; [exact IH|]. intros child Hchild par0 par0' t0 tf0.
      apply Hchild. }
    destruct (select_children_spec pos children IHpos _ _ _ _ H1)
      as (Hes & Hns & Hl & Hks & Hps).
    set (m := foldl (fun max_tile_first tile_first =>
                       if decide (max_tile_first < tile_first)
                       then tile_first else max_tile_first) 0 info).
    destruct (max_tile_first_spec info 0) as (_ & Hmax & Hin). fold m in Hmax, Hin.
    assert (Hne : info <> []).
    { intros ->. subst children. cbn in Hl.
      apply (f_equal length) in Hes. rewrite length_map in Hes.
      cbn in Hes. lia. }
    assert (Hhd : hd 0 (map (fun tile_first =>
                               if decide (tile_first = m) then tile_first
                               else m) info) = m).
    { destruct info as [|tf0 info']; [done|]. cbn. by case_decide. }
    rewrite Hhd. unfold selected_at.
    cbn [erase_kernels no_kernel_band_above kernels].
    split_and!; [by rewrite Hes|done| | |done].
    + apply Forall_concat, Forall_forall. intros ks Hks'.
      apply list_elem_of_fmap in Hks' as (t & -> & Ht).
      apply list_elem_of_lookup in Ht as [i Ht].
      destruct (lookup_lt_is_Some_2 info i) as [tf Htf].
      { rewrite Hl. by apply lookup_lt_Some in Ht. }
      destruct (Hks i t tf Ht Htf) as [Hall _].
      eapply Forall_impl; [exact Hall|]. intros k (? & ? & ?).
      specialize (Hmax tf ltac:(by apply list_elem_of_lookup_2 in Htf)).
      split_and!; [done|lia|lia|done].
    + assert (m ∈ info) as Hm.
      { destruct Hin as [Hin|Hin]; [|done].
        destruct info as [|tf0 info']; [done|].
        assert (tf0 <= m) by (apply Hmax, elem_of_cons; by left).
        assert (tf0 = 0) as -> by lia. rewrite Hin.
        apply elem_of_cons. by left. }
      apply list_elem_of_lookup in Hm as [i Hi].
      destruct (lookup_lt_is_Some_2 ts i) as [t Ht].
      { rewrite <- Hl. by apply lookup_lt_Some in Hi. }
      destruct (Hks i t m Ht Hi) as [_ (k & Hk & Hkm)].
      exists k. split; [|done].
      apply elem_of_concat_map. exists t. split; [|done].
      by apply list_elem_of_lookup_2 in Ht.
  - done.
Qed.

Lemma select_children_is_Some pos (children : list schedule_tree) :
  Forall (fun child => forall par,
            is_Some (select_outer_band par child pos)
            <-> handled child = true) children ->
  forall par,
    is_Some (select_children
               (fun par child => select_outer_band par child pos)
               children par)
    <-> forallb handled children = true.
Proof.
  induction 1 as [|child children Hchild _ IH]; intros par.
  - cbn. split; [done|]. by eexists.
  - cbn [select_children forallb]. rewrite andb_true_iff, <- (Hchild par).
    destruct (select_outer_band par child pos) as [[[par1 t1] tf1]|];
      cbn [mbind option_bind].
    + rewrite <- (IH par1).
      destruct (select_children _ children par1) as [[[par2 ts] info]|];
        cbn [mbind option_bind].
      * split; [intros _|by eexists]. split; by eexists.
      * split; [by intros [? ?]|]. by intros [_ [? ?]].
    + split; [by intros [? ?]|]. by intros [[? ?] _].
Qed.

Lemma select_outer_band_is_Some node :
  forall par pos,
    is_Some (select_outer_band par node pos) <-> handled node = true.
Proof.
  induction node as [|child IH|child IH|band permutable child IH|children IH|]
    using schedule_tree_Forall_ind; intros par pos;
    cbn [select_outer_band handled].
  - split; [done|]. by eexists.
  - rewrite <- (IH par pos).
    destruct (select_outer_band par child pos) as [[[par1 t1] tf1]|]; cbn.
    + split; by eexists.
    + split; by intros [? ?].
  - rewrite <- (IH par pos).
    destruct (select_outer_band par child pos) as [[[par1 t1] tf1]|]; cbn.
    + split; by eexists.
    + split; by intros [? ?].
  - destruct (negb permutable || bool_decide (n_outer_coincidence band = 0)).
    + rewrite <- (IH par (pos + band_n_member band)).
      destruct (select_outer_band par child _) as [[[par1 t1] tf1]|]; cbn.
      * split; by eexists.
      * split; by intros [? ?].
    + split; [done|]. by eexists.
  - destruct children as [|child0 children0].
    { split; [by intros [? ?]|done]. }
    set (children := child0 :: children0) in *.
    assert (Hall : forall pos, Forall (fun child => forall par,
              is_Some (select_outer_band par child pos)
              <-> handled child = true) children).
    { intros pos'. eapply Forall_impl; [exact IH|].
      intros child Hchild par0. apply Hchild. }
    rewrite <- (select_children_is_Some pos children (Hall pos) par).
    destruct (select_children _ children par) as [[[par1 ts] info]|]; cbn.
    + split; by eexists.
    + split; by intros [? ?].
  - split; [by intros [? ?]|done].
Qed.

End outer_bands_selected.

(** [select_outer_tilable_band] fails exactly on a schedule tree with a
    node of an unhandled type, or a set or sequence node without
    children, above the bands that are selected.  Otherwise it returns
    the tree with a kernel mark in place of each outermost band that is
    permutable and has an outer coincident member, and of each leaf
    that no such band covers: only bands that are not selected are left
    above the kernels, each kernel records the number of band members
    above it, [tile_first] is the largest of these numbers, and
    [any_parallelism] is set when some kernel is a band. *)
Theorem select_outer_tilable_band_spec any_parallelism schedule :
  match select_outer_tilable_band any_parallelism schedule with
  | Some (any_parallelism', t, tile_first) =>
      handled schedule = true /\
      selected_at 0 any_parallelism any_parallelism' schedule t tile_first /\
      (forall k, k ∈ kernels 0 t -> k.1.2 <= tile_first) /\
      (any_parallelism = false -> any_parallelism' = true ->
       exists k, k ∈ kernels 0 t /\ is_band k.2 = true)
  | None => handled schedule = false
  end.
Proof.
  unfold select_outer_tilable_band.
  pose proof (select_outer_band_is_Some schedule any_parallelism 0) as Hsome.
  destruct (select_outer_band any_parallelism schedule 0)
    as [[[par' t] tf]|] eqn:Hsel.
  - pose proof (select_outer_band_selected schedule _ _ _ _ _ Hsel) as Hs.
    split_and!; [by apply Hsome|done| |].
    + destruct Hs as (_ & _ & Hall & _). rewrite Forall_forall in Hall.
      intros k Hk. destruct (Hall k Hk) as (_ & ? & _). lia.
    + destruct Hs as (_ & _ & _ & _ & Hpar). intros -> ->.
      cbn [orb] in Hpar. symmetry in Hpar.
      apply existsb_exists in Hpar as (k & Hk & Hband).
      exists k. split; [by apply list_elem_of_In|done].
  - destruct (handled schedule); [|done].
    destruct Hsome as [_ Hsome]. by destruct (Hsome eq_refl).
Qed.

(** ** Linearized index expressions *)

Section linearize.
Local Open Scope Z_scope.
Implicit Types (bs : list Z).

Lemma horner_injective bs (is1 is2 : list Z) a1 a2 :
  length is1 = length is2 -> (length is1 <= length bs)%nat ->
  Forall (fun bi => 0 <= bi.2 < bi.1) (zip bs is1) ->
  Forall (fun bi => 0 <= bi.2 < bi.1) (zip bs is2) ->
  foldl (fun acc bi => acc * bi.1 + bi.2) a1 (zip bs is1)
  = foldl (fun acc bi => acc * bi.1 + bi.2) a2 (zip bs is2) ->
  a1 = a2 /\ is1 = is2.
Proof.
  revert is1 is2 a1 a2.
  induction bs as [|b bs IH]; intros [|i1 is1] [|i2 is2] a1 a2 Hlen Hbs;
    cbn in Hlen, Hbs; try lia; cbn [zip zip_with foldl fst snd].
  - by intros _ _ ->.
  - by intros _ _ ->.
  - intros H1 H2 Heq.
    apply Forall_cons in H1 as [Hi1 H1]. apply Forall_cons in H2 as [Hi2 H2].
    cbn [fst snd] in Hi1, Hi2.
    destruct (IH is1 is2 _ _ ltac:(lia) ltac:(lia) H1 H2 Heq) as [Ha ->].
    assert (a1 = a2) as ->.
    { assert (a1 = (a1 * b + i1) `div` b) as E1
        by (apply (Z.div_unique _ _ _ i1); lia).
      assert (a2 = (a2 * b + i2) `div` b) as E2
        by (apply (Z.div_unique _ _ _ i2); lia).
      rewrite Ha in E1. congruence. }
    split; [done|]. f_equal. lia.
Qed.

Lemma row_major_injective bs (is1 is2 : list Z) :
  length is1 = length is2 -> (length is1 <= length bs)%nat ->
  Forall (fun bi => 0 <= bi.2 < bi.1) (zip (tail bs) (tail is1)) ->
  Forall (fun bi => 0 <= bi.2 < bi.1) (zip (tail bs) (tail is2)) ->
  row_major bs is1 = row_major bs is2 -> is1 = is2.
Proof.
  unfold row_major. intros Hlen Hbs H1 H2 Heq.
  destruct is1 as [|i1 is1], is2 as [|i2 is2]; cbn in Hlen; try lia; [done|].
  cbn [tail hd] in *.
  destruct (horner_injective (tail bs) is1 is2 i1 i2) as [-> ->];
    [lia| |done..].
  destruct bs; cbn in *; lia.
Qed.

Lemma linearize_loop (bound args0 : list isl_ast_expr) arg1 (n m : nat) :
  n = length args0 -> args0 !! 1%nat = Some arg1 ->
  (m < length bound)%nat ->
  exists res,
    foldl (fun res i =>
      res ← res;
      bound_i ← bound !! i;
      let res := isl_ast_expr_mul res bound_i in
      if decide (n <= i + 1)%nat then Some res
      else
        expr_i ← args0 !! (i + 1)%nat;
        Some (isl_ast_expr_add res expr_i))
      (Some arg1) (seq 1 m) = Some res /\
    forall env,
      ast_eval env res =
      foldl (fun acc bi => acc * bi.1 + bi.2) (ast_eval env arg1)
        (take m (zip (tail (map (ast_eval env) bound))
                     (tail (map (ast_eval env) (tail args0)
                            ++ replicate m 0)))).
Proof.
  intros Hn Harg1 Hm.
  pose proof (lookup_lt_Some _ _ _ Harg1) as Hlen2.
  induction m as [|m IH].
  - exists arg1. split; [done|]. intros env. by rewrite take_0.
  - destruct IH as (res & Hfold & Heval); [lia|].
    rewrite seq_S, foldl_app, Hfold. cbn [foldl mbind option_bind Nat.add].
    destruct (bound !! S m) as [bound_i|] eqn:Hb.
    2:{ apply lookup_ge_None in Hb. lia. }
    cbn [mbind option_bind].
    set (zs env := zip (tail (map (ast_eval env) bound))
                       (tail (map (ast_eval env) (tail args0)
                              ++ replicate (S m) 0))).
    assert (Hz : forall env index_val,
      (tail (map (ast_eval env) (tail args0) ++ replicate (S m) 0)) !! m
      = Some index_val ->
      take (S m) (zs env)
      = take m (zip (tail (map (ast_eval env) bound))
                    (tail (map (ast_eval env) (tail args0)
                           ++ replicate m 0)))
        ++ [(ast_eval env bound_i, index_val)]).
    { intros env index_val Hidx.
      erewrite (take_S_r (zs env) m (ast_eval env bound_i, index_val)).
      2:{ unfold zs. apply lookup_zip_with_Some. eexists _, _.
          split; [done|]. split; [|exact Hidx].
          rewrite lookup_tail, list_lookup_fmap, Hb. done. }
      f_equal. unfold zs. rewrite !zip_with_take. f_equal.
      destruct (map (ast_eval env) (tail args0)) as [|x xs] eqn:Hxs.
      { apply (f_equal length) in Hxs.
        rewrite length_map, length_tl in Hxs. cbn in Hxs. lia. }
      cbn [app tail].
      replace (S m) with (m + 1)%nat by lia.
      rewrite replicate_add. cbn [replicate].
      rewrite app_assoc.
      rewrite (take_app_le _ [0]); [done|].
      rewrite length_app, length_replicate. lia. }
    unfold zs in Hz. clear zs.
    case_decide as Hlast.
    + eexists. split; [done|]. intros env.
      rewrite (Hz env 0).
      * rewrite foldl_app. cbn [foldl fst snd ast_eval isl_ast_expr_mul].
        rewrite Heval. lia.
      * rewrite lookup_tail.
        rewrite lookup_app_r by (rewrite length_map, length_tl; lia).
        apply lookup_replicate. split; [done|].
        rewrite length_map, length_tl. lia.
    + assert (exists expr_i, args0 !! (S m + 1)%nat = Some expr_i)
        as [expr_i He] by (apply lookup_lt_is_Some_2; lia).
      replace (args0 !! (S m + 1)%nat) with (Some expr_i).
      cbn [mbind option_bind].
      eexists. split; [done|]. intros env.
      rewrite (Hz env (ast_eval env expr_i)).
      * rewrite foldl_app.
        cbn [foldl fst snd ast_eval isl_ast_expr_mul isl_ast_expr_add].
        rewrite Heval. done.
      * rewrite lookup_tail. apply lookup_app_l_Some.
        rewrite list_lookup_fmap, lookup_tail.
        replace (S (S m)) with (S m + 1)%nat by lia. by rewrite He.
Qed.

End linearize.

Section linearize_index.
Local Open Scope Z_scope.

Lemma linearize_index_value n_index bound op arg0 args :
  (forall margs, arg0 <> ast_op isl_ast_op_member margs) ->
  (1 <= length args <= n_index)%nat -> (n_index <= length bound)%nat ->
  exists res,
    gpu_local_array_info_linearize_index n_index bound
      (ast_op op (arg0 :: args))
    = Some (if decide (length args < n_index)%nat
            then isl_ast_expr_add arg0 res
            else isl_ast_expr_access arg0 [res]) /\
    forall env,
      ast_eval env res
      = row_major (map (ast_eval env) bound)
          (map (ast_eval env) args
           ++ replicate (n_index - length args) 0).
Proof.
  intros Hbase Hargs Hbound.
  destruct args as [|arg1 rest]; [cbn in Hargs; lia|].
  destruct (linearize_loop bound (arg0 :: arg1 :: rest) arg1
              (S (length (arg1 :: rest))) (n_index - 1))
    as (res & Hfold & Heval); [done|done|lia|].
  exists res. split.
  - assert (Hcode :
      gpu_local_array_info_linearize_index n_index bound
        (ast_op op (arg0 :: arg1 :: rest))
      = (res ← foldl (fun res i =>
            res ← res;
            bound_i ← bound !! i;
            let res := isl_ast_expr_mul res bound_i in
            if decide (S (length (arg1 :: rest)) <= i + 1)%nat then Some res
            else
              expr_i ← (arg0 :: arg1 :: rest) !! (i + 1)%nat;
              Some (isl_ast_expr_add res expr_i))
            (Some arg1) (seq 1 (n_index - 1));
         if decide (S (length (arg1 :: rest)) < 1 + n_index)%nat
         then Some (isl_ast_expr_add arg0 res)
         else Some (isl_ast_expr_access arg0 [res]))).
    { destruct arg0 as [name|v|[] margs]; try done.
      by destruct (Hbase margs). }
    rewrite Hcode, Hfold. cbn [mbind option_bind].
    repeat case_decide; (done || lia).
  - intros env. rewrite Heval. unfold row_major.
    cbn [tail map app hd].
    rewrite zip_with_take.
    replace (take (n_index - 1)
               (map (ast_eval env) rest ++ replicate (n_index - 1) 0))
      with (map (ast_eval env) rest
            ++ replicate (n_index - length (arg1 :: rest)) 0).
    2:{ rewrite take_app_ge by (rewrite length_map; cbn in Hargs; lia).
        rewrite take_replicate, length_map. f_equal. f_equal.
        cbn [length] in *. lia. }
    rewrite zip_with_take_l'; [done|].
    rewrite length_app, length_map, length_replicate. cbn [length] in *. lia.
Qed.

End linearize_index.

(** [gpu_local_array_info_linearize_index] turns an access
    [A[i_0]...[i_k]] to an array stored in row-major order into
    [A[e]], when all indices are given, or into [A + e], when some are
    missing, where the value of [e] is the row-major offset
    [(..(i_0 * b_1 + i_1)..) * b_n + i_n] with 0 for the missing
    indices.  The offset determines the indices: two accesses with all
    indices in bounds (from the second index on) that are linearized to
    the same offset have the same index values.  An expression without
    indices is returned as it is. *)
Theorem linearize_index_spec n_index bound op arg0 args :
  (forall margs, arg0 <> ast_op isl_ast_op_member margs) ->
  1 <= length args <= n_index -> n_index <= length bound ->
  gpu_local_array_info_linearize_index n_index bound (ast_op op [arg0])
  = Some (ast_op op [arg0]) /\
  exists res,
    gpu_local_array_info_linearize_index n_index bound
      (ast_op op (arg0 :: args))
    = Some (if decide (length args < n_index)
            then isl_ast_expr_add arg0 res
            else isl_ast_expr_access arg0 [res]) /\
    (forall env,
       ast_eval env res
       = row_major (map (ast_eval env) bound)
           (map (ast_eval env) args
            ++ replicate (n_index - length args) 0%Z)) /\
    forall env args' res',
      length args = n_index -> length args' = n_index ->
      gpu_local_array_info_linearize_index n_index bound
        (ast_op op (arg0 :: args'))
      = Some (isl_ast_expr_access arg0 [res']) ->
      Forall (fun bi => 0 <= bi.2 < bi.1)%Z
        (zip (tail (map (ast_eval env) bound))
             (tail (map (ast_eval env) args))) ->
      Forall (fun bi => 0 <= bi.2 < bi.1)%Z
        (zip (tail (map (ast_eval env) bound))
             (tail (map (ast_eval env) args'))) ->
      ast_eval env res = ast_eval env res' ->
      map (ast_eval env) args = map (ast_eval env) args'.
Proof.
  intros Hbase Hargs Hbound. split.
  { destruct arg0 as [name|v|[] margs]; try done. by destruct (Hbase margs). }
  destruct (linearize_index_value n_index bound op arg0 args Hbase Hargs
              Hbound) as (res & Hres & Heval).
  exists res. split; [done|]. split; [done|].
  intros env args' res' Hfull Hfull' Hres' Hin Hin' Heq.
  destruct (linearize_index_value n_index bound op arg0 args' Hbase
              ltac:(lia) Hbound) as (res2 & Hres2 & Heval2).
  rewrite Hres2 in Hres'. rewrite decide_False in Hres' by lia.
  injection Hres' as ->.
  rewrite Heval, Heval2 in Heq.
  rewrite Hfull in Heq at 1. rewrite Hfull' in Heq.
  rewrite Nat.sub_diag in Heq. cbn [replicate] in Heq.
  rewrite !app_nil_r in Heq.
  apply (row_major_injective (map (ast_eval env) bound)); try done.
  - rewrite !length_map. lia.
  - rewrite !length_map. lia.
Qed.

Lemma linearize_index_spec_witness :
  exists res,
    gpu_local_array_info_linearize_index 2
      [ast_id "n"; ast_id "m"]
      (ast_op isl_ast_op_access [ast_id "A"; ast_id "i"; ast_id "j"])
    = Some (isl_ast_expr_access (ast_id "A") [res]) /\
    forall env, ast_eval env res = (env "i" * env "m" + env "j")%Z.
Proof.
  destruct (linearize_index_spec 2 [ast_id "n"; ast_id "m"]
              isl_ast_op_access (ast_id "A") [ast_id "i"; ast_id "j"])
    as (_ & res & Hres & Heval & _).
  - intros margs. discriminate.
  - cbn. lia.
  - cbn. lia.
  - exists res. split; [exact Hres|]. intros env. rewrite Heval. reflexivity.
Defined.

(** ** Options of the AST build *)

Section atomic_and_unroll.
Local Open Scope Z_scope.

Lemma even_positions (a n : nat) : (a < (n + 1) / 2 <-> 2 * a < n)%nat.
Proof.
  pose proof (Nat.div_mod_eq (n + 1) 2) as Hdiv.
  pose proof (Nat.mod_upper_bound (n + 1) 2 ltac:(done)) as Hmod.
  revert Hdiv Hmod.
  generalize ((n + 1) / 2)%nat ((n + 1) mod 2)%nat. intros q r. lia.
Qed.

Lemma fix_loop (f : nat -> nat) n_in n_out (l : list nat) bmap :
  bmap_n_in bmap = n_in -> bmap_n_out bmap = n_out ->
  (forall a, a ∈ l -> (f a < n_in)%nat) ->
  foldl (fun map a => isl_map_fix_si map isl_dim_in (f a) 0) (Some bmap) l
  = Some (bmap_extend bmap (map (fun a => fix_row n_in n_out (f a) 0) l)).
Proof.
  revert bmap. induction l as [|a l IH]; intros bmap Hin Hout Hl.
  - cbn. by rewrite bmap_extend_nil.
  - cbn [foldl map].
    assert (Hstep : isl_map_fix_si (Some bmap) isl_dim_in (f a) 0
                    = Some (bmap_extend bmap [fix_row n_in n_out (f a) 0])).
    { unfold isl_map_fix_si. cbn [mbind option_bind].
      unfold isl_equality_alloc, constraint_alloc.
      cbn [space_n_in space_n_out].
      rewrite set_coefficient_in
        by (cbn [c_in]; rewrite length_replicate, Hin;
            apply Hl, list_elem_of_here).
      cbn [isl_constraint_set_constant_si isl_basic_map_add_constraint
           mbind option_bind c_in c_out c_eq c_div c_const].
      unfold bmap_extend, fix_row. by rewrite Hin, Hout. }
    rewrite Hstep, IH.
    + by rewrite bmap_extend_app.
    + done.
    + done.
    + intros a' Ha'. apply Hl. by apply list_elem_of_further.
Qed.

Lemma fix_row_holds n_in n_out j v x y d :
  (j < n_in)%nat -> length x = n_in ->
  constraint_holds (fix_row n_in n_out j v) x y d = true <-> x !!! j = v.
Proof.
  intros Hj Hx. unfold constraint_holds, constraint_value, fix_row.
  cbn [c_eq c_in c_out c_div c_const].
  rewrite dot_single, dot_replicate_0 by done.
  rewrite bool_decide_eq_true. cbn [dot]. lia.
Qed.

Lemma parity_row_holds n_in k x i a :
  constraint_holds (parity_row n_in k) x [i; a] [] = true <->
  i + 2 * a + k = 0.
Proof.
  unfold constraint_holds, constraint_value, parity_row.
  cbn [c_eq c_in c_out c_div c_const].
  rewrite dot_replicate_0, bool_decide_eq_true. cbn. lia.
Qed.

(** The parity map: the rows [fixed], none of which involves an output
    dimension, and the parity row, with the second output dimension
    projected out. *)
Lemma parity_map n_in (fixed : list isl_constraint) k :
  Forall (fun row => c_div row = [] /\ c_out row = replicate 2 0) fixed ->
  exists bmap,
    isl_basic_map_project_out
      (Some (bmap_extend
         {| bmap_n_in := n_in; bmap_n_out := 2; bmap_n_div := 0;
            bmap_constraints := [] |} (fixed ++ [parity_row n_in k])))
      isl_dim_out 1 1 = Some bmap /\
    forall x y,
      bmap_rel bmap x y <->
      length x = n_in /\
      Forall (fun row => constraint_holds row x [0; 0] [] = true) fixed /\
      exists i a, y = [i] /\ i + 2 * a + k = 0.
Proof.
  intros Hfixed.
  set (full := bmap_extend _ _).
  assert (Hrows : Forall (fun row => c_div row = [] /\
                     length (c_out row) = bmap_n_out full)
                    (bmap_constraints full)).
  { unfold full. cbn [bmap_extend bmap_constraints bmap_n_out app].
    rewrite Forall_app, Forall_singleton. split.
    - eapply Forall_impl; [exact Hfixed|]. intros row [-> ->]. done.
    - done. }
  assert (Hvalue : forall row x y y',
            c_div row = [] /\ c_out row = replicate 2 0 ->
            constraint_holds row x y [] = constraint_holds row x y' []).
  { intros row x y y' [Hd Ho]. unfold constraint_holds, constraint_value.
    by rewrite Ho, !dot_replicate_0. }
  destruct (project_out_holds full 1 1) as (bmap & Hproj & Hin & _);
    [done|done|cbn; lia|].
  exists bmap. split; [done|]. intros x y. split.
  - intros [q Hq].
    destruct (project_out_holds_inv full bmap 1 1 x y q)
      as (Hlq & Hly & Hfull); [done|done|cbn; lia|done|done|].
    cbn [full bmap_extend bmap_n_out] in Hly.
    destruct y as [|i [|? ?]]; cbn in Hly; try lia.
    destruct q as [|a [|? ?]]; cbn in Hlq; try lia.
    cbn [take drop app] in Hfull.
    unfold full in Hfull.
    rewrite bmap_holds_extend, Forall_app, Forall_singleton in Hfull.
    destruct Hfull as (Hbase & Hfix & Hpar).
    unfold bmap_holds in Hbase.
    cbn [bmap_n_in bmap_n_out bmap_n_div bmap_constraints forallb]
      in Hbase.
    rewrite !andb_true_iff, !bool_decide_eq_true in Hbase.
    destruct Hbase as (((Hx & _) & _) & _).
    split; [done|]. split.
    + rewrite Forall_forall in Hfixed, Hfix |- *. intros row Hrow.
      rewrite (Hvalue row x _ [i; a]) by by apply Hfixed.
      by apply Hfix.
    + exists i, a. split; [done|]. by apply parity_row_holds in Hpar.
  - intros (Hx & Hfix & i & a & -> & Hpar).
    exists [a]. apply Hin; [done|].
    cbn [take drop app]. unfold full.
    rewrite bmap_holds_extend, Forall_app, Forall_singleton. split_and!.
    + unfold bmap_holds.
      cbn [bmap_n_in bmap_n_out bmap_n_div bmap_constraints forallb].
      rewrite !andb_true_iff, !bool_decide_eq_true. done.
    + rewrite Forall_forall in Hfixed, Hfix |- *. intros row Hrow.
      rewrite (Hvalue row x _ [0; 0]) by by apply Hfixed.
      by apply Hfix.
    + by apply parity_row_holds.
Qed.

End atomic_and_unroll.

(** [set_atomic_and_unroll] sets two options.  The option "atomic"
    relates a schedule point of [sched_len] coordinates to [i] exactly
    when the coordinates at the even positions are zero and [i] is odd;
    the option "unroll" relates every schedule point of [sched_len]
    coordinates to every even [i].  Neither bounds [i] by the length
    of the schedule. *)
Theorem set_atomic_and_unroll_spec build space sched_len :
  exists atomic unroll,
    set_atomic_and_unroll (Some build) space sched_len
    = Some {| build_options := [("atomic", atomic); ("unroll", unroll)] |} /\
    (forall x y,
       bmap_rel atomic x y <->
       length x = sched_len /\
       (forall j, j < sched_len -> Nat.even j = true -> x !!! j = 0%Z) /\
       exists a, y = [(2 * a + 1)%Z]) /\
    (forall x y,
       bmap_rel unroll x y <->
       length x = sched_len /\ exists a, y = [(2 * a)%Z]).
Proof.
  unfold set_atomic_and_unroll.
  unfold isl_basic_map_universe, isl_space_add_dims, isl_space_from_domain,
    isl_space_params.
  cbn [space_n_param space_n_in space_n_out].
  rewrite (fix_loop (fun a => 2 * a) sched_len 2);
    [|cbn; lia|done|intros a Ha; apply elem_of_seq in Ha; apply even_positions; lia].
  unfold isl_equality_alloc, constraint_alloc.
  cbn [space_n_in space_n_out].
  rewrite !set_coefficient_out
    by (cbn [c_out]; rewrite ?length_insert, ?length_replicate; lia).
  cbn [isl_constraint_set_constant_si isl_basic_map_add_constraint
       mbind option_bind c_in c_out c_eq c_div c_const].
  change (0 + sched_len) with sched_len. change (0 + 2) with 2.
  set (fixed := map (fun a => fix_row sched_len 2 (2 * a) 0%Z)
                  (seq 0 ((sched_len + 1) / 2))).
  destruct (parity_map sched_len fixed 1) as (atomic & Hatomic & Ha).
  { unfold fixed. rewrite Forall_map. apply Forall_forall. done. }
  destruct (parity_map sched_len [] 0) as (unroll & Hunroll & Hu).
  { done. }
  exists atomic, unroll. split; [|split].
  - unfold bmap_extend in Hatomic, Hunroll |- *.
    cbn [bmap_n_in bmap_n_out bmap_n_div bmap_constraints app]
      in Hatomic, Hunroll |- *.
    unfold parity_row in Hatomic, Hunroll.
    rewrite Hatomic, Hunroll. done.
  - intros x y. rewrite Ha. split.
    + intros (Hx & Hfix & i & a & -> & Hpar). split; [done|]. split.
      * intros j Hj Heven. apply Nat.even_spec in Heven as [a' ->].
        rewrite Forall_forall in Hfix.
        apply (fix_row_holds sched_len 2 (2 * a') 0 x [0; 0]%Z []);
          [lia|done|].
        apply Hfix. unfold fixed. apply list_elem_of_fmap.
        exists a'. split; [done|]. apply elem_of_seq.
        pose proof (proj2 (even_positions a' sched_len)). lia.
      * exists (- a - 1)%Z. f_equal. lia.
    + intros (Hx & Hzero & a & ->). split; [done|]. split.
      * unfold fixed. rewrite Forall_map. apply Forall_forall.
        intros a' Ha'. apply elem_of_seq in Ha'.
        assert (2 * a' < sched_len) by (apply even_positions; lia).
        apply fix_row_holds; [lia|done|].
        apply Hzero; [lia|]. apply Nat.even_spec. by exists a'.
      * exists (2 * a + 1)%Z, (- a - 1)%Z. split; [done|lia].
  - intros x y. rewrite Hu. split.
    + intros (Hx & _ & i & a & -> & Hpar). split; [done|].
      exists (- a)%Z. f_equal. lia.
    + intros (Hx & a & ->). split; [done|]. split; [done|].
      exists (2 * a)%Z, (- a)%Z. split; [done|lia].
Qed.
